(** * QMD search core: chunker, lexical and vector searchers, RRF fusion

    A shallow embedding of the search and ranking subsystem of the QMD
    Obsidian plugin:

    - [src/embeddings/chunker.ts]   (module [Chunker])
    - [search/fts-search.ts]        (module [FtsSearch])
    - [search/vector-search.ts]     (module [VectorSearch])
    - [src/search/hybrid-search.ts] (module [HybridSearch])

    and of what calls the chunker, [src/embeddings/batch-processor.ts]
    (module [BatchProcessor]).  The modules [ChunkerBatch], [FtsColumns] and
    [HybridStats] hold further methods of the first, second and fourth file.

    Conventions of the embedding.

    - A JavaScript string is the list of its UTF-16 code units
      ([jsstring := list N]); the regular expressions of the source carry no
      [u] flag, so they work on code units as well.
    - A JavaScript number is an exact rational ([Q]); positions, lengths and
      token counts, which are integers in the source, are [Z].  Rounding of
      IEEE doubles is not modelled in the searchers: [1.3] is [13/10],
      [0.5] is [1/2].  The modules [Rounded] and [Doubles] write the score
      conversions with every operation rounded, and on binary64 numbers,
      for what can be said of the order of scores with rounding.
    - A call that may throw returns a sum: [Returned v] or [Threw e].
    - Calls to collaborators (the SQL engine, the embedding service) are
      functions handed to the model; the calls made to the embedding service
      are recorded in a log. *)

From Stdlib Require Import ZArith NArith QArith Qround Qminmax Qabs.
From Stdlib Require Import List String Ascii Bool Lia Lqa Sorted.
From Stdlib Require PrimFloat.
Import ListNotations.

Local Open Scope Z_scope.

(* ================================================================== *)
(** * JavaScript strings *)
(* ================================================================== *)

Module JsString.

Definition jsstring := list N.

(** A literal: the code units of an ASCII string. *)
Definition js (s : string) : jsstring :=
  map N_of_ascii (list_ascii_of_string s).

(** [s.length] *)
Definition jslength (s : jsstring) : Z := Z.of_nat (List.length s).

Fixpoint jseqb (a b : jsstring) : bool :=
  match a, b with
  | [], [] => true
  | x :: a', y :: b' => (x =? y)%N && jseqb a' b'
  | _, _ => false
  end.

(** A string is truthy when it is not empty. *)
Definition nonempty (s : jsstring) : bool :=
  match s with [] => false | _ => true end.

Definition in_range (lo hi c : N) : bool := ((lo <=? c) && (c <=? hi))%N.

(** [\w] : [A-Za-z0-9_] *)
Definition is_w (c : N) : bool :=
  in_range 48 57 c || in_range 65 90 c || (c =? 95)%N || in_range 97 122 c.

(** [[\u3040-\u309F\u30A0-\u30FF\u4E00-\u9FAF\uAC00-\uD7AF]] *)
Definition is_cjk (c : N) : bool :=
  in_range 0x3040 0x309F c || in_range 0x30A0 0x30FF c
  || in_range 0x4E00 0x9FAF c || in_range 0xAC00 0xD7AF c.

(** [\s] : white space and line terminators of ECMAScript; [trim] strips the
    same set. *)
Definition is_s (c : N) : bool :=
  in_range 9 13 c || (c =? 32)%N || (c =? 0xA0)%N || (c =? 0x1680)%N
  || in_range 0x2000 0x200A c || (c =? 0x2028)%N || (c =? 0x2029)%N
  || (c =? 0x202F)%N || (c =? 0x205F)%N || (c =? 0x3000)%N || (c =? 0xFEFF)%N.

(** [\w] or the class above: the characters of a word-like run. *)
Definition is_wordchar (c : N) : bool := is_w c || is_cjk c.

(** Neither [\w], [\s] nor the class above. *)
Definition is_punct (c : N) : bool := negb (is_w c || is_s c || is_cjk c).

(** The longest prefix of [s] whose characters satisfy [p], and the rest. *)
Fixpoint span (p : N -> bool) (s : jsstring) : jsstring * jsstring :=
  match s with
  | [] => ([], [])
  | c :: s' =>
      if p c then let '(a, b) := span p s' in (c :: a, b) else ([], s)
  end.

Fixpoint dropWhile (p : N -> bool) (s : jsstring) : jsstring :=
  match s with
  | [] => []
  | c :: s' => if p c then dropWhile p s' else s
  end.

(** [s.trim()] *)
Definition trim (s : jsstring) : jsstring :=
  rev (dropWhile is_s (rev (dropWhile is_s s))).

(** [s.match(/[cls]+/g)] : the maximal runs of characters of the class, left
    to right ([null] is the empty list here; the source only takes the
    length).  [run] holds the run being read, reversed. *)
Fixpoint match_runs_from (cls : N -> bool) (run : jsstring) (s : jsstring)
  : list jsstring :=
  match s with
  | [] => match run with [] => [] | _ => [rev run] end
  | c :: s' =>
      if cls c then match_runs_from cls (c :: run) s'
      else match run with
           | [] => match_runs_from cls [] s'
           | _ => rev run :: match_runs_from cls [] s'
           end
  end.

Definition match_runs (cls : N -> bool) (s : jsstring) : list jsstring :=
  match_runs_from cls [] s.

(** [s.match(/[cls]/g)] : one match per character of the class. *)
Definition match_chars (cls : N -> bool) (s : jsstring) : list jsstring :=
  map (fun c => [c]) (filter cls s).

Fixpoint starts_with (pat s : jsstring) : bool :=
  match pat, s with
  | [], _ => true
  | p :: pat', c :: s' => (p =? c)%N && starts_with pat' s'
  | _ :: _, [] => false
  end.

(** First index [>= i] (the index of the head of [s] being [i]) at which
    [pat] occurs with its start at or after [from]; [-1] when there is none. *)
Fixpoint index_from (pat s : jsstring) (i from : Z) : Z :=
  match s with
  | [] => if starts_with pat [] && (from <=? i) then i else -1
  | _ :: s' =>
      if starts_with pat s && (from <=? i) then i
      else index_from pat s' (i + 1) from
  end.

(** [s.indexOf(pat, from)] ; [from] is clamped to [[0, s.length]]. *)
Definition indexOf (s pat : jsstring) (from : Z) : Z :=
  index_from pat s 0 (Z.min (Z.max from 0) (jslength s)).

(** Last index at which [pat] occurs, [best] when there is none. *)
Fixpoint last_index_from (pat s : jsstring) (i best : Z) : Z :=
  match s with
  | [] => if starts_with pat [] then i else best
  | _ :: s' =>
      last_index_from pat s' (i + 1) (if starts_with pat s then i else best)
  end.

(** [s.lastIndexOf(pat)] *)
Definition lastIndexOf (s pat : jsstring) : Z := last_index_from pat s 0 (-1).

(** [s.includes(pat)] *)
Definition includes (s pat : jsstring) : bool := 0 <=? indexOf s pat 0.

(** [s.slice(0, n)] for a string. *)
Definition slice_to (s : jsstring) (n : Z) : jsstring :=
  if n <? 0 then firstn (Z.to_nat (jslength s + n)) s
  else firstn (Z.to_nat n) s.

(** [words.join(' ')] *)
Fixpoint join_space (l : list jsstring) : jsstring :=
  match l with
  | [] => []
  | [w] => w
  | w :: l' => w ++ 32%N :: join_space l'
  end.

(** ** [String.prototype.split] with a regular expression

    A [matcher] is the regular expression tried at one position (a sticky
    match): it is given the character before the position, if any, and the
    rest of the string from the position, and returns the length of the
    match.  None of the expressions of the sources matches the empty string.

    [split_from] follows the loop of the ECMAScript algorithm: [cur] is the
    piece being read (reversed), [skip] the number of characters of the
    current match still to pass.  With [keep] the match itself is pushed
    after the piece (a capture group around the whole expression). *)
Definition matcher := option N -> jsstring -> option nat.

Fixpoint split_from (m : matcher) (keep : bool) (prev : option N)
  (cur : jsstring) (skip : nat) (s : jsstring) : list jsstring :=
  match s with
  | [] => [rev cur]
  | c :: s' =>
      match skip with
      | S k => split_from m keep (Some c) cur k s'
      | O =>
          match m prev s with
          | Some (S k) =>
              rev cur
              :: (if keep then [firstn (S k) s] else [])
              ++ split_from m keep (Some c) [] k s'
          | _ => split_from m keep (Some c) (c :: cur) O s'
          end
      end
  end.

Definition split (m : matcher) (keep : bool) (s : jsstring) : list jsstring :=
  split_from m keep None [] O s.

(** [/\s+/] *)
Definition re_spaces : matcher := fun _ s =>
  match fst (span is_s s) with
  | [] => None
  | w => Some (List.length w)
  end.

(** Index of the last line feed of [w], counted from 1; 0 when there is none. *)
Fixpoint last_newline (w : jsstring) (i best : nat) : nat :=
  match w with
  | [] => best
  | c :: w' => last_newline w' (S i) (if (c =? 10)%N then S i else best)
  end.

(** [/\n\s*\n/] : a line feed, then white space up to the last line feed of
    the white-space run (the star is greedy and gives back). *)
Definition re_blank_line : matcher := fun _ s =>
  match s with
  | 10%N :: s' =>
      match last_newline (fst (span is_s s')) 0 0 with
      | O => None
      | n => Some (S n)
      end
  | _ => None
  end.

(** [[.!?]] *)
Definition is_sentence_end (c : N) : bool :=
  (c =? 46)%N || (c =? 33)%N || (c =? 63)%N.

(** [[A-Z0-9\u4E00-\u9FAF\uAC00-\uD7AF]] and the double quote (34) *)
Definition is_sentence_start (c : N) : bool :=
  in_range 65 90 c || in_range 48 57 c || in_range 0x4E00 0x9FAF c
  || in_range 0xAC00 0xD7AF c || (c =? 34)%N.

(** The sentence boundary of [splitIntoSentences] (a look-behind for
    [[.!?]], [\s+], a look-ahead for the class above): after a
    sentence-ending mark, the whole white-space run, when a character of the
    look-ahead class follows it. *)
Definition re_sentence_gap : matcher := fun prev s =>
  match prev with
  | Some p =>
      if is_sentence_end p then
        match span is_s s with
        | (w, c :: _) =>
            if nonempty w && is_sentence_start c
            then Some (List.length w) else None
        | _ => None
        end
      else None
  | None => None
  end.

(** [w.replace(/[.!?]+$/, '')] *)
Definition strip_sentence_end (w : jsstring) : jsstring :=
  rev (dropWhile is_sentence_end (rev w)).

End JsString.

(* ================================================================== *)
(** * The document chunker ([src/embeddings/chunker.ts]) *)
(* ================================================================== *)

Module Chunker.
Import JsString.

(** [a > b] on numbers. *)
Definition Qgtb (a b : Q) : bool := negb (Qle_bool a b).

Record DocumentChunk := mkChunk {
  hash : jsstring;
  seq : Z;
  pos : Z;
  text : jsstring;
  tokenCount : Z
}.

Record ChunkOptions := mkOptions {
  opt_maxTokens : option Q;
  opt_overlapPercent : option Q
}.

(** [TextSegment]: [text], [tokens], [startPos]. *)
Record TextSegment := mkSegment {
  stext : jsstring;
  tokens : Z;
  startPos : Z
}.

Definition ABBREVIATIONS : list jsstring :=
  map js
    [ "Mr"; "Mrs"; "Ms"; "Dr"; "Prof"; "Sr"; "Jr"; "vs"; "etc"; "Inc"; "Ltd";
      "Co"; "i.e"; "e.g"; "cf"; "viz"; "al"; "et"; "approx"; "dept"; "est";
      "min"; "max"; "Jan"; "Feb"; "Mar"; "Apr"; "Jun"; "Jul"; "Aug"; "Sep";
      "Oct"; "Nov"; "Dec" ]%string.

(** [ABBREVIATIONS.has(w)] *)
Definition is_abbreviation (w : jsstring) : bool :=
  existsb (jseqb w) ABBREVIATIONS.

Definition DEFAULT_maxTokens : Q := 800%Q.
Definition DEFAULT_overlapPercent : Q := (15 # 100)%Q.

(** The fields of a [DocumentChunker]. *)
Record DocumentChunker := mkChunker {
  maxTokens : Q;
  overlapPercent : Q;
  overlapTokens : Z
}.

(** [constructor(options?)] *)
Definition new_DocumentChunker (options : option ChunkOptions)
  : DocumentChunker :=
  let field (get : ChunkOptions -> option Q) (dflt : Q) :=
    match options with
    | Some o => match get o with Some v => v | None => dflt end
    | None => dflt
    end in
  let mt := field opt_maxTokens DEFAULT_maxTokens in
  let op := field opt_overlapPercent DEFAULT_overlapPercent in
  mkChunker mt op (Qfloor (mt * op)%Q).

(** [estimateTokenCount(text)] *)
Definition estimateTokenCount (text : jsstring) : Z :=
  match text with
  | [] => 0
  | _ =>
      let wordCount := Z.of_nat (List.length (match_runs is_wordchar text)) in
      let punctuationCount :=
        Z.of_nat (List.length (match_chars is_punct text)) in
      let cjkCount := Z.of_nat (List.length (match_chars is_cjk text)) in
      let englishWordCount : Q :=
        (inject_Z wordCount
         - (if 0 <? cjkCount
            then Qmin (inject_Z wordCount) (inject_Z cjkCount / 2)
            else 0))%Q in
      let englishTokens := Qceiling (englishWordCount * (13 # 10))%Q in
      englishTokens + cjkCount
      + Qceiling (inject_Z punctuationCount * (1 # 2))%Q
  end.

(** [words[words.length - 1]?.replace(/[.!?]+$/, '')] for
    [words = part.trim().split(/\s+/)]. *)
Definition lastWord (part : jsstring) : jsstring :=
  strip_sentence_end (last (split re_spaces false (trim part)) []).

(** The loop of [splitIntoSentences] over the parts of one paragraph.
    [carry] is what an abbreviation at the end of the previous part left in
    front of this one ([parts[i + 1] = part + ' ' + parts[i + 1]]). *)
Fixpoint sentences_of_parts (carry : option jsstring) (parts : list jsstring)
  : list jsstring :=
  match parts with
  | [] => []
  | p :: rest =>
      let part := match carry with
                  | Some pre => pre ++ 32%N :: p
                  | None => p
                  end in
      if nonempty (lastWord part) && is_abbreviation (lastWord part)
         && (match rest with [] => false | _ => true end)
      then sentences_of_parts (Some part) rest
      else (if nonempty (trim part) then [trim part] else [])
           ++ sentences_of_parts None rest
  end.

(** [splitIntoSentences(text)] *)
Definition splitIntoSentences (text : jsstring) : list jsstring :=
  match text with
  | [] => []
  | _ =>
      let paragraphs := split re_blank_line false text in
      let sentences :=
        flat_map
          (fun para =>
             if nonempty (trim para)
             then sentences_of_parts None (split re_sentence_gap false para)
             else [])
          paragraphs in
      match sentences with
      | [] => [trim text]
      | _ => sentences
      end
  end.

(** [splitIntoWords(text)] : [text.split(/(\s+)/).filter(Boolean)] *)
Definition splitIntoWords (text : jsstring) : list jsstring :=
  filter nonempty (split re_spaces true text).

(** The local variables of the word loop of [buildSegments]. *)
Record WordLoop := mkWordLoop {
  w_segments : list TextSegment;
  wordChunk : jsstring;
  wordPos : Z;
  w_chunkStartPos : Z
}.

Definition word_step (c : DocumentChunker) (st : WordLoop) (word : jsstring)
  : WordLoop :=
  let testChunk := wordChunk st ++ word in
  let testTokens := estimateTokenCount testChunk in
  if Qgtb (inject_Z testTokens) (maxTokens c) && nonempty (trim (wordChunk st))
  then mkWordLoop
         (w_segments st
          ++ [mkSegment (trim (wordChunk st))
                (estimateTokenCount (trim (wordChunk st)))
                (w_chunkStartPos st)])
         word
         (wordPos st + jslength word)
         (wordPos st)
  else mkWordLoop (w_segments st) testChunk (wordPos st + jslength word)
         (w_chunkStartPos st).

(** One turn of the sentence loop of [buildSegments]: the segments so far and
    [currentPos]. *)
Definition sentence_step (c : DocumentChunker) (content : jsstring)
  (st : list TextSegment * Z) (sentence : jsstring) : list TextSegment * Z :=
  let '(segments, currentPos) := st in
  let found := indexOf content (trim sentence) currentPos in
  let actualPos := if found =? -1 then currentPos else found in
  let tokens := estimateTokenCount sentence in
  let segments' :=
    if Qgtb (inject_Z tokens) (maxTokens c) then
      let w := fold_left (word_step c) (splitIntoWords sentence)
                 (mkWordLoop segments [] actualPos actualPos) in
      if nonempty (trim (wordChunk w))
      then w_segments w
           ++ [mkSegment (trim (wordChunk w))
                 (estimateTokenCount (trim (wordChunk w)))
                 (w_chunkStartPos w)]
      else w_segments w
    else segments ++ [mkSegment sentence tokens actualPos] in
  (segments', actualPos + jslength sentence).

(** [buildSegments(content)] *)
Definition buildSegments (c : DocumentChunker) (content : jsstring)
  : list TextSegment :=
  fst (fold_left (sentence_step c content) (splitIntoSentences content)
         ([], 0)).

(** The backward loop of [extractOverlapText]; [rwords] are the words from
    the last one down, [acc] is [overlapWords]. *)
Fixpoint take_overlap (target : Z) (rwords : list jsstring)
  (currentTokens : Z) (acc : list jsstring) : list jsstring :=
  match rwords with
  | [] => acc
  | w :: rest =>
      let wordTokens := estimateTokenCount w in
      if currentTokens + wordTokens >? target then acc
      else take_overlap target rest (currentTokens + wordTokens) (w :: acc)
  end.

(** [extractOverlapText(text, targetTokens)] : the overlap text and [pos]. *)
Definition extractOverlapText (text : jsstring) (targetTokens : Z)
  : jsstring * Z :=
  if targetTokens <=? 0 then ([], jslength text)
  else
    let words := split re_spaces false text in
    let overlapWords := take_overlap targetTokens (rev words) 0 [] in
    let overlapText := join_space overlapWords in
    let p := lastIndexOf text overlapText in
    (overlapText,
     if 0 <=? p then p else jslength text - jslength overlapText).

(** The local variables of [chunkDocument] that the loop and [flushChunk]
    update. *)
Record ChunkLoop := mkLoop {
  chunks : list DocumentChunk;
  currentChunkSegments : list TextSegment;
  currentTokens : Z;
  st_seq : Z;
  chunkStartPos : Z;
  overlapText : jsstring;
  st_overlapTokens : Z;
  overlapStartOffset : Z
}.

Definition chunk_of (h : jsstring) (st : ChunkLoop) : DocumentChunk :=
  let chunkText := join_space (map stext (currentChunkSegments st)) in
  mkChunk h (st_seq st) (chunkStartPos st) chunkText
    (estimateTokenCount chunkText).

(** The closure [flushChunk]. *)
Definition flushChunk (c : DocumentChunker) (h : jsstring) (st : ChunkLoop)
  : ChunkLoop :=
  match currentChunkSegments st with
  | [] => st
  | _ =>
      let ch := chunk_of h st in
      let overlap := extractOverlapText (text ch) (overlapTokens c) in
      mkLoop (chunks st ++ [ch]) (currentChunkSegments st) (currentTokens st)
        (st_seq st + 1) (chunkStartPos st)
        (fst overlap) (estimateTokenCount (fst overlap)) (snd overlap)
  end.

(** One turn of [for (const segment of segments)]. *)
Definition segment_step (c : DocumentChunker) (h : jsstring) (st : ChunkLoop)
  (segment : TextSegment) : ChunkLoop :=
  let testTokens := currentTokens st + tokens segment in
  let st1 :=
    if Qgtb (inject_Z testTokens) (maxTokens c) then
      let f := flushChunk c h st in
      if nonempty (overlapText f) then
        let start :=
          match rev (chunks f) with
          | lastChunk :: _ => pos lastChunk + overlapStartOffset f
          | [] => chunkStartPos f
          end in
        mkLoop (chunks f)
          [mkSegment (overlapText f) (st_overlapTokens f) start]
          (st_overlapTokens f) (st_seq f) start
          (overlapText f) (st_overlapTokens f) (overlapStartOffset f)
      else
        mkLoop (chunks f) [] 0 (st_seq f) (startPos segment)
          (overlapText f) (st_overlapTokens f) (overlapStartOffset f)
    else st in
  let start2 :=
    match currentChunkSegments st1 with
    | [] => startPos segment
    | _ => chunkStartPos st1
    end in
  mkLoop (chunks st1) (currentChunkSegments st1 ++ [segment])
    (currentTokens st1 + tokens segment) (st_seq st1) start2
    (overlapText st1) (st_overlapTokens st1) (overlapStartOffset st1).

(** [chunkDocument(hash, content)] *)
Definition chunkDocument (c : DocumentChunker) (h : jsstring)
  (content : jsstring) : list DocumentChunk :=
  if negb (nonempty content) || (jslength (trim content) =? 0) then []
  else
    let trimmedContent := trim content in
    let totalTokens := estimateTokenCount trimmedContent in
    if Qle_bool (inject_Z totalTokens) (maxTokens c) then
      [mkChunk h 0 0 trimmedContent totalTokens]
    else
      let segments := buildSegments c trimmedContent in
      let st := fold_left (segment_step c h) segments
                  (mkLoop [] [] 0 0 0 [] 0 0) in
      match currentChunkSegments st with
      | [] => chunks st
      | _ => chunks st ++ [chunk_of h st]
      end.

End Chunker.

(* ================================================================== *)
(** * Thrown values and completions *)
(* ================================================================== *)

Module Exn.
Import JsString.

(** The string literals used as error codes by the three searchers. *)
Inductive ErrorCode :=
| DB_NOT_INITIALIZED | INVALID_QUERY | QUERY_ERROR
| EMBEDDER_NOT_AVAILABLE | INVALID_EMBEDDING | DIMENSION_MISMATCH
| SEARCHER_NOT_INITIALIZED | ALL_SEARCHES_FAILED | INVALID_OPTIONS
| NO_RESULTS.

(** What a [throw] can carry: an [Error] of the engine, an instance of one of
    the error classes of the sources, or a value that is no [Error] at all. *)
Inductive exn :=
| Error (message : jsstring)
| SearchError (message : jsstring) (code : ErrorCode)
| VectorSearchError (message : jsstring) (code : ErrorCode)
| HybridSearchError (message : jsstring) (code : ErrorCode)
| EmbeddingError (message : jsstring)
| NonError.

(** [error instanceof Error] *)
Definition instanceof_Error (e : exn) : bool :=
  match e with NonError => false | _ => true end.

(** [error.message] of an instance of [Error]. *)
Definition message_of (e : exn) : jsstring :=
  match e with
  | Error m | SearchError m _ | VectorSearchError m _
  | HybridSearchError m _ | EmbeddingError m => m
  | NonError => []
  end.

(** [error instanceof Error ? error.message : 'Unknown error'] *)
Definition message_or_unknown (e : exn) : jsstring :=
  if instanceof_Error e then message_of e else js "Unknown error".

(** The outcome of a call: a value, or a thrown value (a rejected promise
    for an [async] method). *)
Inductive completion (A : Type) :=
| Returned (a : A)
| Threw (e : exn).
Arguments Returned {A} a.
Arguments Threw {A} e.

(** [l.slice(0, n)] on an array. *)
Definition slice0 {A} (l : list A) (n : Z) : list A :=
  if n <? 0 then firstn (Z.to_nat (Z.of_nat (List.length l) + n)) l
  else firstn (Z.to_nat n) l.

(** [x || d] on numbers: [d] when [x] is zero. *)
Definition or_default (x d : Q) : Q := if Qeq_bool x 0 then d else x.

(** [l.forEach((x, index) => ...)] and [l.map((x, index) => ...)]. *)
Fixpoint foldi {A S} (f : S -> A -> Z -> S) (l : list A) (i : Z) (s : S) : S :=
  match l with
  | [] => s
  | x :: l' => foldi f l' (i + 1) (f s x i)
  end.

Fixpoint mapi {A B} (f : A -> Z -> B) (l : list A) (i : Z) : list B :=
  match l with
  | [] => []
  | x :: l' => f x i :: mapi f l' (i + 1)
  end.

End Exn.

(* ================================================================== *)
(** * The lexical searcher ([search/fts-search.ts]) *)
(* ================================================================== *)

Module FtsSearch.
Import JsString Exn.

Record SearchResult := mkSearchResult {
  hash : jsstring;
  title : jsstring;
  content : jsstring;
  path : jsstring;
  score : Q;
  snippet : jsstring;
  rank : Z
}.

Record SearchOptions := mkSearchOptions {
  collectionFilter : option jsstring;
  minScore : option Q;
  limit : option Z
}.

(** A number of the source that may be [Infinity]. *)
Inductive threshold :=
| Infinity
| Finite (q : Q).

(** The statement the searcher prepares and the parameters it binds: the
    [MATCH] operand, the collection name when the query joins [collections],
    the bound on [abs(bm25(documents_fts))] when the query has one, the
    [LIMIT], and whether the [snippet(...)] column is selected. *)
Record FtsRequest := mkFtsRequest {
  rq_match : jsstring;
  rq_collection : option jsstring;
  rq_threshold : option threshold;
  rq_limit : Z;
  rq_snippet : bool
}.

(** A row of the result: [hash], [title], [content], [path], [bm25_score]
    and, when selected, [snippet] ([None] is SQL [NULL]). *)
Record FtsRow := mkFtsRow {
  row_hash : jsstring;
  row_title : jsstring;
  row_content : jsstring;
  row_path : jsstring;
  row_bm25 : Q;
  row_snippet : option jsstring
}.

(** The engine: [prepare], [bind], the [step]/[get] loop and [free] either
    deliver the rows or throw. *)
Definition Database := FtsRequest -> completion (list FtsRow).

Record FTSSearcher := mkFTSSearcher {
  db : Database;
  initialized : bool
}.

Definition DEFAULT_LIMIT : Z := 20.

(** [constructor(db)] with [validateDatabase()]; a missing database is
    [None]. *)
Definition new_FTSSearcher (d : option Database) : completion FTSSearcher :=
  match d with
  | None => Threw (SearchError (js "Database not initialized")
                     DB_NOT_INITIALIZED)
  | Some d => Returned (mkFTSSearcher d true)
  end.

(** [normalizeBM25Score(bm25Score)] *)
Definition normalizeBM25Score (bm25Score : Q) : Q :=
  let absScore := Qabs bm25Score in
  ((1 / (1 + absScore)) * 100)%Q.

(** [denormalizeToBM25(normalizedScore)] *)
Definition denormalizeToBM25 (normalizedScore : Q) : threshold :=
  if Qle_bool normalizedScore 0 then Infinity
  else if Qle_bool 100 normalizedScore then Finite 0
  else Finite ((100 / normalizedScore) - 1)%Q.

(** Case folding of [/i] on the ASCII letters of the patterns. *)
Definition upper (c : N) : N :=
  if in_range 97 122 c then (c - 32)%N else c.

Definition starts_with_ci (pat s : jsstring) : bool :=
  starts_with (map upper pat) (map upper s).

Definition end_or_space (s : jsstring) : bool :=
  match s with [] => true | c :: _ => is_s c end.

(** [(?:^|\s)(AND|OR|NOT)(?:\s|$)] somewhere in [s]; [boundary] says that the
    position is the start of the string or follows white space. *)
Fixpoint has_operator (boundary : bool) (s : jsstring) : bool :=
  match s with
  | [] => false
  | c :: s' =>
      (boundary
       && existsb
            (fun kw =>
               starts_with_ci kw s
               && end_or_space (skipn (List.length kw) s))
            (map js ["AND"; "OR"; "NOT"]%string))
      || has_operator (is_s c) s'
  end.

(** [FTS5_EXPLICIT_SYNTAX.test(s)] : a double quote, a star or a question
    mark; a boolean operator as a whole word; or a [title:] or [content:]
    prefix. *)
Definition FTS5_EXPLICIT_SYNTAX (s : jsstring) : bool :=
  existsb (fun c => (c =? 34)%N || (c =? 42)%N || (c =? 63)%N) s
  || has_operator true s
  || existsb (fun i => starts_with_ci (js "title:") (skipn i s)
                       || starts_with_ci (js "content:") (skipn i s))
       (List.seq 0 (List.length s)).

(** [[(){}^:\-]] *)
Definition FTS5_SPECIAL_CHARS (c : N) : bool :=
  (c =? 40)%N || (c =? 41)%N || (c =? 123)%N || (c =? 125)%N
  || (c =? 94)%N || (c =? 58)%N || (c =? 45)%N.

(** [s.replace(/\s+/g, ' ')] *)
Fixpoint collapse_spaces (in_run : bool) (s : jsstring) : jsstring :=
  match s with
  | [] => []
  | c :: s' =>
      if is_s c then
        if in_run then collapse_spaces true s'
        else 32%N :: collapse_spaces true s'
      else c :: collapse_spaces false s'
  end.

(** [sanitizeFTS5Query(query)] *)
Definition sanitizeFTS5Query (query : jsstring) : jsstring :=
  match query with
  | [] => []
  | _ =>
      let sanitized := trim query in
      if negb (nonempty sanitized) then []
      else if FTS5_EXPLICIT_SYNTAX sanitized then sanitized
      else
        trim
          (collapse_spaces false
             (map (fun c => if FTS5_SPECIAL_CHARS c then 32%N else c)
                (flat_map
                   (fun c => if (c =? 34)%N then [34%N; 34%N] else [c])
                   sanitized)))
  end.

(** The [catch] clause shared by [search] and [searchWithSnippets]. *)
Definition on_engine_error (e : exn) : completion (list SearchResult) :=
  if instanceof_Error e && includes (message_of e) (js "fts5")
  then Returned []
  else Threw (SearchError
                (js "Search query failed: " ++ message_or_unknown e)
                QUERY_ERROR).

(** The statement [search] or [searchWithSnippets] prepares for a sanitized
    query; they differ in the [snippet(...)] column only. *)
Definition build_request (with_snippets : bool) (sanitizedQuery : jsstring)
  (options : option SearchOptions) : FtsRequest :=
  let get {A} (f : SearchOptions -> option A) : option A :=
    match options with Some o => f o | None => None end in
  let lim := match get limit with Some l => l | None => DEFAULT_LIMIT end in
  let coll := match get collectionFilter with
              | Some c => if nonempty c then Some c else None
              | None => None
              end in
  let bm25Threshold := option_map denormalizeToBM25 (get minScore) in
  mkFtsRequest sanitizedQuery coll bm25Threshold lim with_snippets.

(** The row loop: one result per row, ranked from 1. *)
Definition results_of_rows (with_snippets : bool) (rows : list FtsRow)
  : list SearchResult :=
  mapi
    (fun row i =>
       mkSearchResult (row_hash row) (row_title row)
         (row_content row) (row_path row)
         (normalizeBM25Score (row_bm25 row))
         (if with_snippets
          then match row_snippet row with
               | Some sn => sn
               | None => []
               end
          else [])
         (i + 1))
    rows 0.

(** The body shared by [search] and [searchWithSnippets]. *)
Definition run_search (with_snippets : bool) (s : FTSSearcher)
  (query : jsstring) (options : option SearchOptions)
  : completion (list SearchResult) :=
  if negb (initialized s) then
    Threw (SearchError (js "Database not initialized") DB_NOT_INITIALIZED)
  else
    let sanitizedQuery := sanitizeFTS5Query query in
    if negb (nonempty sanitizedQuery) then Returned []
    else
      match db s (build_request with_snippets sanitizedQuery options) with
      | Returned rows => Returned (results_of_rows with_snippets rows)
      | Threw e => on_engine_error e
      end.

(** [search(query, options)] *)
Definition search := run_search false.

(** [searchWithSnippets(query, options)] *)
Definition searchWithSnippets := run_search true.

End FtsSearch.

(* ================================================================== *)
(** * The vector searcher ([search/vector-search.ts]) *)
(* ================================================================== *)

Module VectorSearch.
Import JsString Exn.

Record VectorSearchResult := mkVectorSearchResult {
  hash : jsstring;
  title : jsstring;
  content : jsstring;
  path : jsstring;
  similarity : Q;
  distance : Q;
  rank : Z
}.

Record VectorSearchOptions := mkVectorSearchOptions {
  collectionFilter : option jsstring;
  limit : option Z;
  minSimilarity : option Q
}.

(** A [Float32Array]. *)
Definition embedding := list Q.

(** The embedding service as the searcher uses it.  [isAvailable] catches
    every failure of its own and answers [false]. *)
Record OllamaEmbedder := mkEmbedder {
  isAvailable : bool;
  getInstallInstructions : jsstring;
  generateEmbedding : jsstring -> completion embedding
}.

(** The calls made to the embedding service, in order. *)
Inductive EmbedderCall :=
| CallIsAvailable
| CallGetInstallInstructions
| CallGenerateEmbedding (text : jsstring).

(** A computation that logs its calls to the embedding service. *)
Definition Logged (A : Type) : Type := completion A * list EmbedderCall.

Definition ret {A} (a : A) : Logged A := (Returned a, []).
Definition throw {A} (e : exn) : Logged A := (Threw e, []).
Definition call {A} (c : EmbedderCall) (r : completion A) : Logged A :=
  (r, [c]).
Definition bind {A B} (m : Logged A) (f : A -> Logged B) : Logged B :=
  match m with
  | (Returned a, log) => let '(r, log') := f a in (r, log ++ log')
  | (Threw e, log) => (Threw e, log)
  end.

Notation "x <- m ;; k" := (bind m (fun x => k))
  (at level 61, m at next level, right associativity).

(** The KNN statement and its parameters: the embedding, [k], and the
    collection name when the query joins [collections]. *)
Record KnnRequest := mkKnnRequest {
  rq_embedding : embedding;
  rq_k : Z;
  rq_collection : option jsstring
}.

(** A row of the result, as far as the searcher reads it. *)
Record KnnRow := mkKnnRow {
  row_distance : Q;
  row_hash : jsstring;
  row_title : jsstring;
  row_content : jsstring;
  row_path : jsstring
}.

Definition Database := KnnRequest -> completion (list KnnRow).

Record VectorSearcher := mkVectorSearcher {
  db : Database;
  embedder : OllamaEmbedder;
  initialized : bool
}.

Definition DEFAULT_LIMIT : Z := 20.
Definition EXPECTED_DIMENSIONS : Z := 768.

(** [constructor(db, embedder)] with [validateDatabase()]. *)
Definition new_VectorSearcher (d : option Database) (e : OllamaEmbedder)
  : completion VectorSearcher :=
  match d with
  | None => Threw (VectorSearchError (js "Database not initialized")
                     DB_NOT_INITIALIZED)
  | Some d => Returned (mkVectorSearcher d e true)
  end.

(** [distanceToSimilarity(distance)] *)
Definition distanceToSimilarity (distance : Q) : Q :=
  let clampedDistance := Qmax 0 (Qmin 2 distance) in
  ((1 - clampedDistance / 2) * 100)%Q.

(** [similarityToDistance(similarity)] *)
Definition similarityToDistance (similarity : Q) : Q :=
  let clampedSimilarity := Qmax 0 (Qmin 100 similarity) in
  (2 * (1 - clampedSimilarity / 100))%Q.

(** The row loop of [searchWithEmbedding]: rows beyond [maxDistance] are
    skipped without using up a rank. *)
Fixpoint collect_rows (maxDistance : option Q) (rows : list KnnRow)
  (rank : Z) : list VectorSearchResult :=
  match rows with
  | [] => []
  | row :: rows' =>
      let d := row_distance row in
      let skip := match maxDistance with
                  | Some m => negb (Qle_bool d m)
                  | None => false
                  end in
      if skip then collect_rows maxDistance rows' rank
      else mkVectorSearchResult (row_hash row) (row_title row)
             (row_content row) (row_path row) (distanceToSimilarity d) d rank
           :: collect_rows maxDistance rows' (rank + 1)
  end.

(** [searchWithEmbedding(embedding, options)] *)
Definition searchWithEmbedding (s : VectorSearcher) (emb : embedding)
  (options : option VectorSearchOptions)
  : completion (list VectorSearchResult) :=
  if negb (initialized s) then
    Threw (VectorSearchError (js "Database not initialized")
             DB_NOT_INITIALIZED)
  else if negb (Z.of_nat (List.length emb) =? EXPECTED_DIMENSIONS) then
    (* [validateEmbedding]; the two numbers of the message are left out *)
    Threw (VectorSearchError (js "Invalid embedding dimensions")
             DIMENSION_MISMATCH)
  else
    let get {A} (f : VectorSearchOptions -> option A) : option A :=
      match options with Some o => f o | None => None end in
    let lim := match get limit with Some l => l | None => DEFAULT_LIMIT end in
    let coll := match get collectionFilter with
                | Some c => if nonempty c then Some c else None
                | None => None
                end in
    let maxDistance := option_map similarityToDistance (get minSimilarity) in
    match db s (mkKnnRequest emb lim coll) with
    | Returned rows => Returned (collect_rows maxDistance rows 1)
    | Threw e =>
        if instanceof_Error e
           && includes (message_of e) (js "no such table: vectors_vec")
        then Threw (VectorSearchError
                      (js "Vector search table not initialized. Run embedding generation first.")
                      DB_NOT_INITIALIZED)
        else if instanceof_Error e && includes (message_of e) (js "vec0")
        then Threw (VectorSearchError
                      (js "Vector search query failed: " ++ message_of e)
                      QUERY_ERROR)
        else Threw (VectorSearchError
                      (js "Search query failed: " ++ message_or_unknown e)
                      QUERY_ERROR)
    end.

(** [search(query, options)] *)
Definition search (s : VectorSearcher) (query : jsstring)
  (options : option VectorSearchOptions)
  : Logged (list VectorSearchResult) :=
  if negb (initialized s) then
    throw (VectorSearchError (js "Database not initialized")
             DB_NOT_INITIALIZED)
  else if negb (nonempty query) || (jslength (trim query) =? 0) then ret []
  else
    available <- call CallIsAvailable (Returned (isAvailable (embedder s))) ;;
    if negb available then
      instr <- call CallGetInstallInstructions
                 (Returned (getInstallInstructions (embedder s))) ;;
      throw (VectorSearchError
               (js "Ollama embedding service not available. " ++ instr)
               EMBEDDER_NOT_AVAILABLE)
    else
      match call (CallGenerateEmbedding (trim query))
              (generateEmbedding (embedder s) (trim query)) with
      | (Returned emb, log) => (searchWithEmbedding s emb options, log)
      | (Threw e, log) =>
          (Threw
             match e with
             | EmbeddingError m =>
                 VectorSearchError
                   (js "Failed to generate query embedding: " ++ m)
                   EMBEDDER_NOT_AVAILABLE
             | VectorSearchError _ _ => e
             | _ => VectorSearchError
                      (js "Search failed: " ++ message_or_unknown e)
                      QUERY_ERROR
             end,
           log)
      end.

End VectorSearch.

(* ================================================================== *)
(** * Hybrid search with Reciprocal Rank Fusion
      ([src/search/hybrid-search.ts]) *)
(* ================================================================== *)

Module HybridSearch.
Import JsString Exn.

Record HybridSearchResult := mkHybridSearchResult {
  hash : jsstring;
  title : jsstring;
  content : jsstring;
  path : jsstring;
  rrfScore : Q;
  normalizedScore : Q;
  bm25Score : option Q;
  similarity : option Q;
  bm25Rank : option Z;
  vectorRank : option Z;
  rank : Z;
  snippet : jsstring
}.

Record HybridSearchOptions := mkHybridSearchOptions {
  collectionFilter : option jsstring;
  limit : option Z;
  minScore : option Q;
  rrfK : option Q;
  candidateLimit : option Z;
  enableBM25 : option bool;
  enableVector : option bool
}.

Inductive FallbackStrategy := fail | graceful.

(** The values of [scoreMap]: a fused record before normalisation. *)
Record ScoreEntry := mkScoreEntry {
  e_hash : jsstring;
  e_title : jsstring;
  e_content : jsstring;
  e_path : jsstring;
  e_rrfScore : Q;
  e_bm25Score : option Q;
  e_similarity : option Q;
  e_bm25Rank : option Z;
  e_vectorRank : option Z;
  e_snippet : jsstring
}.

(** [Map<string, ...>] : the entries in insertion order, one per key. *)
Definition ScoreMap := list (jsstring * ScoreEntry).

(** [scoreMap.get(key)] *)
Fixpoint map_get (key : jsstring) (m : ScoreMap) : option ScoreEntry :=
  match m with
  | [] => None
  | (k, v) :: m' => if jseqb key k then Some v else map_get key m'
  end.

(** [scoreMap.set(key, value)] : a key already present keeps its place. *)
Fixpoint map_set (key : jsstring) (value : ScoreEntry) (m : ScoreMap)
  : ScoreMap :=
  match m with
  | [] => [(key, value)]
  | (k, v) :: m' =>
      if jseqb key k then (k, value) :: m' else (k, v) :: map_set key value m'
  end.

(** [Array.from(scoreMap.values())] *)
Definition map_values (m : ScoreMap) : list ScoreEntry := map snd m.

Definition DEFAULT_LIMIT : Z := 10.
Definition DEFAULT_CANDIDATE_LIMIT : Z := 20.
Definition DEFAULT_RRF_K : Q := 60%Q.

(** [createSnippet(content)] with [maxLength = 200]. *)
Definition createSnippet (content : jsstring) : jsstring :=
  if jslength content <=? 200 then content
  else slice_to content 200 ++ js "...".

(** [1 / (k + rank)] *)
Definition rrfContribution (k : Q) (rank : Z) : Q :=
  (1 / (k + inject_Z rank))%Q.

(** The callback of [bm25Results.forEach]. *)
Definition add_bm25 (k : Q) (m : ScoreMap) (result : FtsSearch.SearchResult)
  (index : Z) : ScoreMap :=
  let rank := index + 1 in
  map_set (FtsSearch.hash result)
    (mkScoreEntry (FtsSearch.hash result) (FtsSearch.title result)
       (FtsSearch.content result) (FtsSearch.path result)
       (rrfContribution k rank)
       (Some (FtsSearch.score result)) None (Some rank) None
       (if nonempty (FtsSearch.snippet result)
        then FtsSearch.snippet result
        else createSnippet (FtsSearch.content result)))
    m.

(** The callback of [vectorResults.forEach]; [existing] is updated in
    place. *)
Definition add_vector (k : Q) (m : ScoreMap)
  (result : VectorSearch.VectorSearchResult) (index : Z) : ScoreMap :=
  let rank := index + 1 in
  match map_get (VectorSearch.hash result) m with
  | Some existing =>
      map_set (VectorSearch.hash result)
        (mkScoreEntry (e_hash existing) (e_title existing)
           (e_content existing) (e_path existing)
           (e_rrfScore existing + rrfContribution k rank)%Q
           (e_bm25Score existing)
           (Some (VectorSearch.similarity result))
           (e_bm25Rank existing) (Some rank) (e_snippet existing))
        m
  | None =>
      map_set (VectorSearch.hash result)
        (mkScoreEntry (VectorSearch.hash result) (VectorSearch.title result)
           (VectorSearch.content result) (VectorSearch.path result)
           (rrfContribution k rank)
           None (Some (VectorSearch.similarity result)) None (Some rank)
           (createSnippet (VectorSearch.content result)))
        m
  end.

(** [.sort((a, b) => b.rrfScore - a.rrfScore)] : the sort is stable; an
    entry is put in front of the first one that does not beat it. *)
Fixpoint insert_desc (x : ScoreEntry) (l : list ScoreEntry)
  : list ScoreEntry :=
  match l with
  | [] => [x]
  | y :: l' =>
      if Qle_bool (e_rrfScore y) (e_rrfScore x) then x :: l
      else y :: insert_desc x l'
  end.

Definition sort_desc (l : list ScoreEntry) : list ScoreEntry :=
  fold_right insert_desc [] l.

(** The accumulation of [rrfFusion], before sorting. *)
Definition accumulate (bm25Results : list FtsSearch.SearchResult)
  (vectorResults : list VectorSearch.VectorSearchResult) (k : Q) : ScoreMap :=
  foldi (add_vector k) vectorResults 0 (foldi (add_bm25 k) bm25Results 0 []).

(** [rrfFusion(bm25Results, vectorResults, k)] *)
Definition rrfFusion (bm25Results : list FtsSearch.SearchResult)
  (vectorResults : list VectorSearch.VectorSearchResult) (k : Q)
  : list HybridSearchResult :=
  let scoreMap := accumulate bm25Results vectorResults k in
  let fusedResults := sort_desc (map_values scoreMap) in
  let maxScore :=
    match fusedResults with
    | x :: _ => or_default (e_rrfScore x) 1
    | [] => 1%Q
    end in
  let minScore :=
    match rev fusedResults with
    | x :: _ => or_default (e_rrfScore x) 0
    | [] => 0%Q
    end in
  let scoreRange := or_default (maxScore - minScore)%Q 1 in
  mapi
    (fun result index =>
       mkHybridSearchResult (e_hash result) (e_title result)
         (e_content result) (e_path result) (e_rrfScore result)
         (((e_rrfScore result - minScore) / scoreRange) * 100)%Q
         (e_bm25Score result) (e_similarity result)
         (e_bm25Rank result) (e_vectorRank result)
         (index + 1) (e_snippet result))
    fusedResults 0.

Record HybridSearcher := mkHybridSearcher {
  ftsSearcher : FtsSearch.FTSSearcher;
  vectorSearcher : VectorSearch.VectorSearcher;
  fallbackStrategy : FallbackStrategy
}.

(** [constructor(db, embedder, fallbackStrategy = 'graceful')] ; the one
    database serves both statements. *)
Definition new_HybridSearcher
  (d : option (FtsSearch.Database * VectorSearch.Database))
  (e : VectorSearch.OllamaEmbedder) (strategy : option FallbackStrategy)
  : completion HybridSearcher :=
  match FtsSearch.new_FTSSearcher (option_map fst d) with
  | Threw x => Threw x
  | Returned f =>
      match VectorSearch.new_VectorSearcher (option_map snd d) e with
      | Threw x => Threw x
      | Returned v =>
          Returned (mkHybridSearcher f v
                      match strategy with Some s => s | None => graceful end)
      end
  end.

Definition is_fail (s : FallbackStrategy) : bool :=
  match s with fail => true | graceful => false end.

(** [executeBM25Search(query, options)] ; [None] is [null]. *)
Definition executeBM25Search (s : HybridSearcher) (query : jsstring)
  (options : FtsSearch.SearchOptions)
  : completion (option (list FtsSearch.SearchResult)) :=
  match FtsSearch.search (ftsSearcher s) query (Some options) with
  | Returned r => Returned (Some r)
  | Threw error =>
      if is_fail (fallbackStrategy s) then Threw error else Returned None
  end.

(** [executeVectorSearch(query, options)] *)
Definition executeVectorSearch (s : HybridSearcher) (query : jsstring)
  (options : VectorSearch.VectorSearchOptions)
  : VectorSearch.Logged (option (list VectorSearch.VectorSearchResult)) :=
  match VectorSearch.search (vectorSearcher s) query (Some options) with
  | (Returned r, log) => (Returned (Some r), log)
  | (Threw error, log) =>
      if is_fail (fallbackStrategy s) then (Threw error, log)
      else (Returned None, log)
  end.

(** The two promises handed to [Promise.all]. *)
Inductive Branch := BM25 | Vector.

(** [await Promise.all([p1, p2])] : both promises have been started; the
    result is the pair of values, or the reason of the promise that rejects
    first.  When both reject, [first] says which one did so first. *)
Definition promise_all {A B} (first : Branch) (p1 : completion A)
  (p2 : completion B) : completion (A * B) :=
  match p1, p2 with
  | Returned a, Returned b => Returned (a, b)
  | Threw e, Returned _ => Threw e
  | Returned _, Threw e => Threw e
  | Threw e1, Threw e2 =>
      Threw match first with BM25 => e1 | Vector => e2 end
  end.

Definition has_results {A} (r : option (list A)) : bool :=
  match r with
  | Some (_ :: _) => true
  | _ => false
  end.

Definition or_empty {A} (r : option (list A)) : list A :=
  match r with Some l => l | None => [] end.

(** The options after destructuring with their defaults. *)
Definition dflt {A} (o : option A) (d : A) : A :=
  match o with Some v => v | None => d end.

Definition limit_of (o : HybridSearchOptions) : Z :=
  dflt (limit o) DEFAULT_LIMIT.
Definition rrfK_of (o : HybridSearchOptions) : Q :=
  dflt (rrfK o) DEFAULT_RRF_K.
Definition candidateLimit_of (o : HybridSearchOptions) : Z :=
  dflt (candidateLimit o) DEFAULT_CANDIDATE_LIMIT.
Definition enableBM25_of (o : HybridSearchOptions) : bool :=
  dflt (enableBM25 o) true.
Definition enableVector_of (o : HybridSearchOptions) : bool :=
  dflt (enableVector o) true.

(** [{ collectionFilter, limit: candidateLimit }] for either searcher. *)
Definition bm25_options (o : HybridSearchOptions) : FtsSearch.SearchOptions :=
  FtsSearch.mkSearchOptions (collectionFilter o) None
    (Some (candidateLimit_of o)).

Definition vector_options (o : HybridSearchOptions)
  : VectorSearch.VectorSearchOptions :=
  VectorSearch.mkVectorSearchOptions (collectionFilter o)
    (Some (candidateLimit_of o)) None.

(** What follows [await Promise.all(...)] in [search]. *)
Definition fuse_and_filter (strategy : FallbackStrategy)
  (options : HybridSearchOptions)
  (bm25Results : option (list FtsSearch.SearchResult))
  (vectorResults : option (list VectorSearch.VectorSearchResult))
  : completion (list HybridSearchResult) :=
  if negb (has_results bm25Results) && negb (has_results vectorResults)
  then
    if is_fail strategy then
      Threw (HybridSearchError
               (js "Both BM25 and vector searches returned no results")
               NO_RESULTS)
    else Returned []
  else
    let hybridResults :=
      rrfFusion (or_empty bm25Results) (or_empty vectorResults)
        (rrfK_of options) in
    let filteredResults :=
      match minScore options with
      | Some ms =>
          filter (fun r => Qle_bool ms (normalizedScore r)) hybridResults
      | None => hybridResults
      end in
    Returned (slice0 filteredResults (limit_of options)).

(** [search(query, options = {})] ; the log holds the calls made to the
    embedding service. *)
Definition search (s : HybridSearcher) (first : Branch) (query : jsstring)
  (options : HybridSearchOptions)
  : VectorSearch.Logged (list HybridSearchResult) :=
  if negb (enableBM25_of options) && negb (enableVector_of options) then
    VectorSearch.throw
      (HybridSearchError (js "At least one search method must be enabled")
         INVALID_OPTIONS)
  else if Qle_bool (rrfK_of options) 0 then
    VectorSearch.throw
      (HybridSearchError (js "RRF constant k must be positive")
         INVALID_OPTIONS)
  else
    let p1 :=
      if enableBM25_of options
      then executeBM25Search s query (bm25_options options)
      else Returned None in
    let '(p2, log) :=
      if enableVector_of options
      then executeVectorSearch s query (vector_options options)
      else VectorSearch.ret None in
    match promise_all first p1 p2 with
    | Threw e => (Threw e, log)
    | Returned (bm25Results, vectorResults) =>
        (fuse_and_filter (fallbackStrategy s) options bm25Results
           vectorResults,
         log)
    end.

End HybridSearch.

(* ================================================================== *)
(** * Notions used to state the properties *)
(* ================================================================== *)

Module Props.
Import JsString Exn.

(** ** Token estimation *)

(** The number of maximal runs of characters of a class: the positions at
    which a character of the class does not follow another one. *)
Fixpoint count_run_starts (cls : N -> bool) (inside : bool) (s : jsstring)
  : nat :=
  match s with
  | [] => O
  | c :: s' =>
      if cls c
      then (if inside then O else 1%nat) + count_run_starts cls true s'
      else count_run_starts cls false s'
  end.

(** Word-like runs of a text, CJK runs included. *)
Definition word_runs (t : jsstring) : Z :=
  Z.of_nat (count_run_starts is_wordchar false t).

Definition cjk_chars (t : jsstring) : Z :=
  Z.of_nat (List.length (filter is_cjk t)).

Definition punctuation_chars (t : jsstring) : Z :=
  Z.of_nat (List.length (filter is_punct t)).

(** The estimate as the specification words it: the word multiplier is
    applied to the word-like runs that are not CJK (runs with no CJK
    character), and every CJK character counts one token. *)
Definition words_non_cjk (t : jsstring) : Z :=
  Z.of_nat
    (List.length
       (filter (fun run => negb (existsb is_cjk run))
          (match_runs is_wordchar t))).

Definition estimate_as_specified (t : jsstring) : Z :=
  Qceiling (inject_Z (words_non_cjk t) * (13 # 10))%Q
  + cjk_chars t
  + Qceiling (inject_Z (punctuation_chars t) * (1 # 2))%Q.

(** The adjustment the code makes to the word count instead. *)
Definition cjk_adjustment (t : jsstring) : Q :=
  if 0 <? cjk_chars t
  then Qmin (inject_Z (word_runs t)) (inject_Z (cjk_chars t) / 2)%Q
  else 0%Q.

(** ** Chunk positions *)

(** A document of eleven paragraphs, each an abbreviation wrapped onto the
    next line: nine times [Dr.\nA], then [Dr.\nA-], then [Dr.\nA] followed by
    twenty-three more one-letter words. *)
Definition wrapped (w : string) : jsstring := js "Dr." ++ 10%N :: js w.

Definition blank_line : jsstring := [10%N; 10%N].

Definition wrapped_abbreviations : jsstring :=
  List.concat (repeat (wrapped "A" ++ blank_line) 9)
  ++ wrapped "A-" ++ blank_line
  ++ wrapped "A a a a a a a a a a a a a a a a a a a a a a a a".

(** [new DocumentChunker({ maxTokens: 36, overlapPercent: 0.0625 })] *)
Definition small_chunker : Chunker.DocumentChunker :=
  Chunker.new_DocumentChunker
    (Some (Chunker.mkOptions (Some 36%Q) (Some (1 # 16)%Q))).

(** ** Reciprocal rank fusion *)

(** The 1-based position of the first occurrence of [h] in a list of
    hashes. *)
Fixpoint rank_from (hashes : list jsstring) (h : jsstring) (r : Z)
  : option Z :=
  match hashes with
  | [] => None
  | x :: rest => if jseqb h x then Some r else rank_from rest h (r + 1)
  end.

Definition rank_in (hashes : list jsstring) (h : jsstring) : option Z :=
  rank_from hashes h 1.

(** [1 / (k + rank)] for a list the document appears in, nothing for a list
    it does not appear in. *)
Definition contribution (k : Q) (rank : option Z) : Q :=
  match rank with
  | Some r => (1 / (k + inject_Z r))%Q
  | None => 0%Q
  end.

Definition bm25_hashes (l : list FtsSearch.SearchResult) : list jsstring :=
  map FtsSearch.hash l.

Definition vector_hashes (l : list VectorSearch.VectorSearchResult)
  : list jsstring :=
  map VectorSearch.hash l.

(** The sum of [1 / (k + rank)] over every position of [h] in a list of
    hashes, [r] being the rank of the first element. *)
Fixpoint contributions_from (k : Q) (hashes : list jsstring) (h : jsstring)
  (r : Z) : Q :=
  match hashes with
  | [] => 0%Q
  | x :: rest =>
      ((if jseqb h x then 1 / (k + inject_Z r) else 0)
       + contributions_from k rest h (r + 1))%Q
  end.

(** Results are in descending order of [rrfScore]. *)
Definition by_score_desc (a b : HybridSearch.HybridSearchResult) : Prop :=
  (HybridSearch.rrfScore b <= HybridSearch.rrfScore a)%Q.

(** ** Engine failures of the lexical searcher *)

(** SQLite reports a table that does not exist as [no such table: <name>]
    (the vector searcher and the migration code recognise the missing
    [vectors_vec] and [schema_migrations] tables by this text); the
    full-text index queried here is the table [documents_fts]. *)
Definition reports_missing_index (e : exn) : bool :=
  instanceof_Error e
  && includes (message_of e) (js "no such table: documents_fts").

(** The test the [catch] clause makes. *)
Definition mentions_fts5 (e : exn) : bool :=
  instanceof_Error e && includes (message_of e) (js "fts5").

(** ** Inputs used in examples *)

Definition lexical_hit (h : string) (normalized : Q)
  : FtsSearch.SearchResult :=
  FtsSearch.mkSearchResult (js h) (js "title") (js "content") (js "note.md")
    normalized [] 0.

Definition vector_hit (h : string) (dist : Q)
  : VectorSearch.VectorSearchResult :=
  VectorSearch.mkVectorSearchResult (js h) (js "title") (js "content")
    (js "note.md") (VectorSearch.distanceToSimilarity dist) dist 0.

(** Document [c] is third in both lists. *)
Definition demo_bm25 : list FtsSearch.SearchResult :=
  [lexical_hit "a" 50; lexical_hit "b" 40; lexical_hit "c" 25].

Definition demo_vector : list VectorSearch.VectorSearchResult :=
  [vector_hit "d" (1 # 10); vector_hit "e" (2 # 10); vector_hit "c" (3 # 10)].

(** Two chunks of one document among the nearest neighbours. *)
Definition two_chunks_of_a : list VectorSearch.VectorSearchResult :=
  [vector_hit "a" (1 # 10); vector_hit "a" (2 # 10)].

(** An engine that throws on every statement. *)
Definition failing_engine (e : exn) : FtsSearch.Database :=
  fun _ => Threw e.

Definition offline_embedder : VectorSearch.OllamaEmbedder :=
  VectorSearch.mkEmbedder false (js "ollama pull nomic-embed-text")
    (fun _ => Threw (EmbeddingError (js "connection refused"))).

Definition online_embedder : VectorSearch.OllamaEmbedder :=
  VectorSearch.mkEmbedder true (js "ollama pull nomic-embed-text")
    (fun _ => Returned (repeat 0%Q 768)).

Definition no_rows : VectorSearch.Database := fun _ => Returned [].

Definition knn_row (h : string) (dist : Q) : VectorSearch.KnnRow :=
  VectorSearch.mkKnnRow dist (js h) (js "title") (js "content")
    (js "note.md").

Definition three_rows : VectorSearch.Database :=
  fun _ => Returned [knn_row "d" (1 # 10); knn_row "e" (2 # 10);
                     knn_row "c" (3 # 10)].

(** A searcher in the default (graceful) mode whose lexical engine fails
    and whose vector index returns three rows. *)
Definition lexical_down : HybridSearch.HybridSearcher :=
  HybridSearch.mkHybridSearcher
    (FtsSearch.mkFTSSearcher (failing_engine (Error (js "disk I/O error")))
       true)
    (VectorSearch.mkVectorSearcher three_rows online_embedder true)
    HybridSearch.graceful.

(** [{}] *)
Definition no_options : HybridSearch.HybridSearchOptions :=
  HybridSearch.mkHybridSearchOptions None None None None None None None.

(** ** Notions used in the proofs *)

Section FusionNotions.
Import HybridSearch.

(** The entry the lexical loop sets for a result, and the entry the vector
    loop sets from the entry the hash had. *)
Definition entry_b (k : Q) (x : FtsSearch.SearchResult) (i : Z) : ScoreEntry :=
  mkScoreEntry (FtsSearch.hash x) (FtsSearch.title x)
    (FtsSearch.content x) (FtsSearch.path x)
    (rrfContribution k (i + 1))
    (Some (FtsSearch.score x)) None (Some (i + 1)) None
    (if nonempty (FtsSearch.snippet x)
     then FtsSearch.snippet x
     else createSnippet (FtsSearch.content x)).

Definition entry_v (k : Q) (o : option ScoreEntry)
  (x : VectorSearch.VectorSearchResult) (i : Z) : ScoreEntry :=
  match o with
  | Some existing =>
      mkScoreEntry (e_hash existing) (e_title existing)
        (e_content existing) (e_path existing)
        (e_rrfScore existing + rrfContribution k (i + 1))%Q
        (e_bm25Score existing)
        (Some (VectorSearch.similarity x))
        (e_bm25Rank existing) (Some (i + 1)) (e_snippet existing)
  | None =>
      mkScoreEntry (VectorSearch.hash x) (VectorSearch.title x)
        (VectorSearch.content x) (VectorSearch.path x)
        (rrfContribution k (i + 1))
        None (Some (VectorSearch.similarity x)) None (Some (i + 1))
        (createSnippet (VectorSearch.content x))
  end.

(** What the two loops leave under one hash. *)
Definition under (h : jsstring) (b : list FtsSearch.SearchResult)
  (v : list VectorSearch.VectorSearchResult) (k : Q) : option ScoreEntry :=
  foldi (fun o x i => if jseqb h (VectorSearch.hash x)
                      then Some (entry_v k o x i) else o)
    v 0
    (foldi (fun o x i => if jseqb h (FtsSearch.hash x)
                         then Some (entry_b k x i) else o)
       b 0 None).

Definition ge_score (a b : ScoreEntry) : Prop :=
  (e_rrfScore b <= e_rrfScore a)%Q.

(** The callback of the final [map] of [rrfFusion]. *)
Definition finish (minScore scoreRange : Q) (result : ScoreEntry) (index : Z)
  : HybridSearchResult :=
  mkHybridSearchResult (e_hash result) (e_title result)
    (e_content result) (e_path result) (e_rrfScore result)
    (((e_rrfScore result - minScore) / scoreRange) * 100)%Q
    (e_bm25Score result) (e_similarity result)
    (e_bm25Rank result) (e_vectorRank result)
    (index + 1) (e_snippet result).

Definition fused_of (b : list FtsSearch.SearchResult)
  (v : list VectorSearch.VectorSearchResult) (k : Q) : list ScoreEntry :=
  sort_desc (map_values (accumulate b v k)).

Definition max_of (fused : list ScoreEntry) : Q :=
  match fused with
  | x :: _ => or_default (e_rrfScore x) 1
  | [] => 1%Q
  end.

Definition min_of (fused : list ScoreEntry) : Q :=
  match rev fused with
  | x :: _ => or_default (e_rrfScore x) 0
  | [] => 0%Q
  end.

Definition rank3_in_both (r : HybridSearchResult) : Prop :=
  bm25Rank r = Some 3 /\ vectorRank r = Some 3.

Definition rank3_in_one (r : HybridSearchResult) : Prop :=
  (bm25Rank r = Some 3 /\ vectorRank r = None)
  \/ (bm25Rank r = None /\ vectorRank r = Some 3).

(** The minimum-score filter and the final [slice(0, limit)] of [search]. *)
Definition filtered_and_limited (options : HybridSearchOptions)
  (results : list HybridSearchResult) : list HybridSearchResult :=
  slice0
    match minScore options with
    | Some ms => filter (fun r => Qle_bool ms (normalizedScore r)) results
    | None => results
    end
    (limit_of options).

(** A result that carries the score and rank of one method only. *)
Definition vector_only (r : HybridSearchResult) : Prop :=
  bm25Score r = None /\ bm25Rank r = None
  /\ similarity r <> None /\ vectorRank r <> None.

Definition lexical_only (r : HybridSearchResult) : Prop :=
  bm25Score r <> None /\ bm25Rank r <> None
  /\ similarity r = None /\ vectorRank r = None.

(** The 1-based position of the last occurrence of [h]. *)
Fixpoint last_rank_from (hashes : list jsstring) (h : jsstring) (r : Z)
  : option Z :=
  match hashes with
  | [] => None
  | x :: rest =>
      match last_rank_from rest h (r + 1) with
      | Some q => Some q
      | None => if jseqb h x then Some r else None
      end
  end.

Definition score_of (o : option ScoreEntry) : Q :=
  match o with Some e => e_rrfScore e | None => 0%Q end.

Definition hash_is (h : jsstring) (o : option ScoreEntry) : Prop :=
  match o with Some e => e_hash e = h | None => True end.

End FusionNotions.

(** The invariant of the loop of [chunkDocument]: the chunks pushed so far
    are numbered from 0 and [seq] is the next number. *)
Definition seq_ok (st : Chunker.ChunkLoop) : Prop :=
  map Chunker.seq (Chunker.chunks st)
  = map Z.of_nat (List.seq 0 (List.length (Chunker.chunks st)))
  /\ Chunker.st_seq st = Z.of_nat (List.length (Chunker.chunks st)).

End Props.

(* ================================================================== *)
(** * The chunker on several documents, and its statistics
      ([src/embeddings/chunker.ts]) *)
(* ================================================================== *)

Module ChunkerBatch.
Import JsString Chunker.

(** An element of the argument of [chunkDocuments]. *)
Record Doc := mkDoc {
  doc_hash : jsstring;
  doc_content : jsstring
}.

(** [Map<string, DocumentChunk[]>] : the entries in insertion order, one per
    key. *)
Definition ChunkMap := list (jsstring * list DocumentChunk).

(** [results.get(key)] *)
Fixpoint results_get (key : jsstring) (m : ChunkMap)
  : option (list DocumentChunk) :=
  match m with
  | [] => None
  | (k, v) :: m' => if jseqb key k then Some v else results_get key m'
  end.

(** [results.set(key, value)] : a key already present keeps its place. *)
Fixpoint results_set (key : jsstring) (value : list DocumentChunk)
  (m : ChunkMap) : ChunkMap :=
  match m with
  | [] => [(key, value)]
  | (k, v) :: m' =>
      if jseqb key k then (k, value) :: m'
      else (k, v) :: results_set key value m'
  end.

(** [chunkDocuments(docs)] *)
Definition chunkDocuments (c : DocumentChunker) (docs : list Doc) : ChunkMap :=
  fold_left
    (fun results doc =>
       results_set (doc_hash doc)
         (chunkDocument c (doc_hash doc) (doc_content doc)) results)
    docs [].

Record ChunkingStats := mkChunkingStats {
  totalChunks : Z;
  avgTokensPerChunk : Z;
  maxTokensInChunk : Z;
  minTokensInChunk : Z
}.

(** [Math.round(x)] : the nearest integer, a half going up. *)
Definition Math_round (x : Q) : Z := Qfloor (x + (1 # 2))%Q.

(** [getChunkingStats(chunks)] ; [Math.max(...l)] and [Math.min(...l)] are
    taken of a list that is not empty here. *)
Definition getChunkingStats (chunks : list DocumentChunk) : ChunkingStats :=
  match map tokenCount chunks with
  | [] => mkChunkingStats 0 0 0 0
  | t :: rest =>
      let sum := fold_left Z.add (t :: rest) 0 in
      mkChunkingStats
        (Z.of_nat (List.length chunks))
        (Math_round (inject_Z sum / inject_Z (Z.of_nat (List.length chunks)))%Q)
        (fold_left Z.max rest t)
        (fold_left Z.min rest t)
  end.

End ChunkerBatch.

(* ================================================================== *)
(** * Column searches of the lexical searcher ([search/fts-search.ts]) *)
(* ================================================================== *)

Module FtsColumns.
Import JsString Exn FtsSearch.

(** [searchTitles(query, options)] *)
Definition searchTitles (s : FTSSearcher) (query : jsstring)
  (options : option SearchOptions) : completion (list SearchResult) :=
  let titleQuery := js "title:" ++ sanitizeFTS5Query query in
  searchWithSnippets s titleQuery options.

(** [searchContent(query, options)] *)
Definition searchContent (s : FTSSearcher) (query : jsstring)
  (options : option SearchOptions) : completion (list SearchResult) :=
  let contentQuery := js "content:" ++ sanitizeFTS5Query query in
  searchWithSnippets s contentQuery options.

End FtsColumns.

(* ================================================================== *)
(** * Statistics of a hybrid result list ([src/search/hybrid-search.ts]) *)
(* ================================================================== *)

Module HybridStats.
Import JsString Exn HybridSearch.

Record SearchStats := mkSearchStats {
  total : Z;
  inBothSets : Z;
  bm25Only : Z;
  vectorOnly : Z;
  avgRRFScore : Q;
  maxRRFScore : Q;
  minRRFScore : Q
}.

(** A rank in a condition: [undefined] and [0] count as false. *)
Definition truthy (r : option Z) : bool :=
  match r with
  | Some z => negb (z =? 0)
  | None => false
  end.

(** [results.filter(f).length] *)
Definition count {A} (f : A -> bool) (l : list A) : Z :=
  Z.of_nat (List.length (filter f l)).

(** [getSearchStats(results)] *)
Definition getSearchStats (results : list HybridSearchResult) : SearchStats :=
  let inBothSets :=
    count (fun r => truthy (bm25Rank r) && truthy (vectorRank r)) results in
  let bm25Only :=
    count (fun r => truthy (bm25Rank r) && negb (truthy (vectorRank r)))
      results in
  let vectorOnly :=
    count (fun r => negb (truthy (bm25Rank r)) && truthy (vectorRank r))
      results in
  let rrfScores := map rrfScore results in
  let n := Z.of_nat (List.length rrfScores) in
  let avgRRFScore :=
    (fold_left Qplus rrfScores 0 / inject_Z (if n =? 0 then 1 else n))%Q in
  let maxRRFScore := fold_right Qmax 0%Q rrfScores in
  let minRRFScore := fold_right Qmin 0%Q rrfScores in
  mkSearchStats (Z.of_nat (List.length results)) inBothSets bm25Only
    vectorOnly avgRRFScore maxRRFScore minRRFScore.

End HybridStats.

(* ================================================================== *)
(** * The batch embedding processor ([src/embeddings/batch-processor.ts])
      and [embedChunk] of the embedder *)
(* ================================================================== *)

Module BatchProcessor.
Import JsString Exn Chunker.

(** [EmbeddingResult] *)
Record EmbeddingResult := mkEmbeddingResult {
  hashSeq : jsstring;
  embedding : list Q;
  model : jsstring
}.

(** The decimal digits of [n], put in front of [acc]; [fuel] bounds the
    number of digits. *)
Fixpoint digits (fuel : nat) (n : N) (acc : jsstring) : jsstring :=
  match fuel with
  | O => acc
  | S f =>
      let acc' := (48 + n mod 10)%N :: acc in
      if (n / 10 =? 0)%N then acc' else digits f (n / 10)%N acc'
  end.

(** [`${n}`] for an integer [n] (below 10^21 in absolute value, where
    JavaScript changes to the exponent notation). *)
Definition String_of_int (z : Z) : jsstring :=
  (if z <? 0 then [45%N] else [])
  ++ digits (S (N.to_nat (N.size (Z.abs_N z)))) (Z.abs_N z) [].

(** [embedChunk(chunk)] of the embedder, over its [generateEmbedding] and
    [actualModel]. *)
Definition embedChunk (generateEmbedding : jsstring -> completion (list Q))
  (actualModel : jsstring) (chunk : DocumentChunk)
  : completion EmbeddingResult :=
  match generateEmbedding (text chunk) with
  | Returned e =>
      Returned (mkEmbeddingResult
                  (hash chunk ++ 95%N :: String_of_int (seq chunk))
                  e actualModel)
  | Threw x => Threw x
  end.

(** The separator ['_'] of [split]. *)
Definition re_underscore : matcher := fun _ s =>
  match s with
  | 95%N :: _ => Some 1%nat
  | _ => None
  end.

Definition is_digit (c : N) : bool := in_range 48 57 c.

(** The value of the leading decimal digits of [s] after [acc]. *)
Fixpoint parse_digits (acc : N) (s : jsstring) : N :=
  match s with
  | c :: s' =>
      if is_digit c then parse_digits (acc * 10 + (c - 48))%N s' else acc
  | [] => acc
  end.

(** [parseInt(s, 10)] ; [None] is [NaN], which is also the result for
    [undefined]. *)
Definition parseInt10 (s : option jsstring) : option Z :=
  match s with
  | None => None
  | Some s =>
      let t := dropWhile is_s s in
      let '(sign, t') :=
        match t with
        | 45%N :: r => (-1, r)
        | 43%N :: r => (1, r)
        | _ => (1, t)
        end in
      match t' with
      | c :: _ =>
          if is_digit c then Some (sign * Z.of_N (parse_digits 0 t'))
          else None
      | [] => None
      end
  end.

(** The statements the processor runs, with their parameters (the time of
    insertion is left out). *)
Inductive DbCall :=
| BeginTransaction
| Commit
| Rollback
| InsertContentVector (hash_seq hash : jsstring) (seq : option Z)
    (chunk_text : jsstring) (token_count : Z)
| InsertVector (hash_seq : jsstring) (embedding : list Q).

(** The collaborators: the outcome of the n-th call of [embedChunk] and of
    the n-th call of [db.run] (counted from 0). *)
Record Services := mkServices {
  embed : nat -> DocumentChunk -> completion EmbeddingResult;
  run : nat -> DbCall -> completion unit
}.

(** The calls made so far: the number of calls of [embedChunk], and the
    statements run, in order. *)
Record Calls := mkCalls {
  embed_calls : nat;
  db_calls : list DbCall
}.

Definition db_run (w : Services) (c : DbCall) (st : Calls)
  : completion unit * Calls :=
  (run w (List.length (db_calls st)) c,
   mkCalls (embed_calls st) (db_calls st ++ [c])).

(** The messages pushed to [errors]:
    [`${chunk.hash}_${chunk.seq}: ${error}`] and
    [`Batch ${batchIndex + 1} failed: ${error}`], by their parts. *)
Inductive ErrorEntry :=
| ChunkFailed (hash : jsstring) (seq : Z) (e : exn)
| BatchFailed (batch : Z) (e : exn).

(** An element of the result of [processBatchWithRetry]. *)
Record BatchItem := mkBatchItem {
  success : bool;
  item_embedding : option EmbeddingResult;
  item_chunk : DocumentChunk;
  item_error : option ErrorEntry
}.

(** The loop [for (attempt = 0; attempt <= maxRetries && !success; ...)] for
    one chunk, [n] attempts being left. *)
Fixpoint attempts (w : Services) (chunk : DocumentChunk) (n : nat)
  (lastError : option ErrorEntry) (st : Calls) : BatchItem * Calls :=
  match n with
  | O => (mkBatchItem false None chunk lastError, st)
  | S n' =>
      let st' := mkCalls (S (embed_calls st)) (db_calls st) in
      match embed w (embed_calls st) chunk with
      | Returned e => (mkBatchItem true (Some e) chunk lastError, st')
      | Threw x =>
          attempts w chunk n'
            (Some (ChunkFailed (hash chunk) (seq chunk) x)) st'
      end
  end.

(** [processBatchWithRetry(chunks, maxRetries)] *)
Fixpoint processBatchWithRetry (w : Services) (chunks : list DocumentChunk)
  (maxRetries : Z) (st : Calls) : list BatchItem * Calls :=
  match chunks with
  | [] => ([], st)
  | chunk :: rest =>
      let '(item, st1) :=
        attempts w chunk (Z.to_nat (maxRetries + 1)) None st in
      let '(items, st2) := processBatchWithRetry w rest maxRetries st1 in
      (item :: items, st2)
  end.

(** [const [hash, seqStr] = hashSeq.split('_'); parseInt(seqStr, 10)] : what
    [insertEmbedding] stores as [hash] and [seq]. *)
Definition split_hashSeq (hashSeq : jsstring) : jsstring * option Z :=
  let pieces := split re_underscore false hashSeq in
  let h := nth 0 pieces [] in
  let seqStr := nth_error pieces 1 in
  (h, parseInt10 seqStr).

(** [insertEmbedding(result, chunk)] *)
Definition insertEmbedding (w : Services) (result : EmbeddingResult)
  (chunk : DocumentChunk) (st : Calls) : completion unit * Calls :=
  let '(h, sq) := split_hashSeq (hashSeq result) in
  match db_run w (InsertContentVector (hashSeq result) h sq (text chunk)
                    (tokenCount chunk)) st with
  | (Threw x, st1) => (Threw x, st1)
  | (Returned _, st1) =>
      db_run w (InsertVector (hashSeq result) (embedding result)) st1
  end.

(** The counters and messages of [processChunks]. *)
Record Tally := mkTally {
  completed : Z;
  failed : Z;
  errors : list ErrorEntry
}.

(** The loop over the results of a batch inside the transaction; it stops
    at the first statement that throws, the counters staying as they were
    at that point. *)
Fixpoint store_results (w : Services) (results : list BatchItem) (t : Tally)
  (st : Calls) : option exn * Tally * Calls :=
  match results with
  | [] => (None, t, st)
  | r :: rest =>
      match success r, item_embedding r with
      | true, Some e =>
          match insertEmbedding w e (item_chunk r) st with
          | (Returned _, st') =>
              store_results w rest
                (mkTally (completed t + 1) (failed t) (errors t)) st'
          | (Threw x, st') => (Some x, t, st')
          end
      | _, _ =>
          store_results w rest
            (mkTally (completed t) (failed t + 1)
               match item_error r with
               | Some m => errors t ++ [m]
               | None => errors t
               end)
            st
      end
  end.

(** [db.run('ROLLBACK'); throw dbError] *)
Definition rollback (w : Services) (dbError : exn) (t : Tally) (st : Calls)
  : option exn * Tally * Calls :=
  match db_run w Rollback st with
  | (Threw y, st') => (Some y, t, st')
  | (Returned _, st') => (Some dbError, t, st')
  end.

(** One turn of the loop over the batches; the first component says
    whether the loop is left by [break]. *)
Definition process_batch (w : Services) (batchIndex : Z)
  (batchChunks : list DocumentChunk) (maxRetries : Z) (continueOnError : bool)
  (t : Tally) (st : Calls) : bool * Tally * Calls :=
  let '(results, st1) := processBatchWithRetry w batchChunks maxRetries st in
  let '(thrown, t2, st2) :=
    match db_run w BeginTransaction st1 with
    | (Threw x, st') => (Some x, t, st')
    | (Returned _, st') =>
        match store_results w results t st' with
        | (Some dbError, t', st'') => rollback w dbError t' st''
        | (None, t', st'') =>
            match db_run w Commit st'' with
            | (Threw dbError, st3) => rollback w dbError t' st3
            | (Returned _, st3) => (None, t', st3)
            end
        end
    end in
  match thrown with
  | None => (false, t2, st2)
  | Some error =>
      let errors' := errors t2 ++ [BatchFailed (batchIndex + 1) error] in
      if negb continueOnError
      then (true, mkTally (completed t2) (failed t2) errors', st2)
      else (false,
            mkTally (completed t2)
              (failed t2 + Z.of_nat (List.length batchChunks)) errors',
            st2)
  end.

(** [Math.ceil(length / batchSize)] for a length that is not negative:
    a number, [Infinity] or [NaN]. *)
Inductive Count :=
| Finite (n : Z)
| PlusInfinity
| NaN.

Definition totalBatches_of (length batchSize : Z) : Count :=
  if batchSize =? 0 then (if length =? 0 then NaN else PlusInfinity)
  else Finite (Qceiling (inject_Z length / inject_Z batchSize)%Q).

(** [batchIndex < totalBatches] *)
Definition below (i : Z) (c : Count) : bool :=
  match c with
  | Finite n => i <? n
  | PlusInfinity => true
  | NaN => false
  end.

(** [l.slice(start, end)] *)
Definition slice {A} (l : list A) (s e : Z) : list A :=
  let len := Z.of_nat (List.length l) in
  let k := if s <? 0 then Z.max (len + s) 0 else Z.min s len in
  let final := if e <? 0 then Z.max (len + e) 0 else Z.min e len in
  firstn (Z.to_nat (final - k)) (skipn (Z.to_nat k) l).

(** The loop over the batches.  It need not end: [fuel] bounds the number of
    turns, and the result is [None] when the bound is reached. *)
Fixpoint batches (fuel : nat) (w : Services) (chunks : list DocumentChunk)
  (batchSize maxRetries : Z) (continueOnError : bool) (totalBatches : Count)
  (batchIndex : Z) (t : Tally) (st : Calls) : option (Tally * Calls) :=
  match fuel with
  | O => None
  | S f =>
      if below batchIndex totalBatches then
        let batchStart := batchIndex * batchSize in
        let batchEnd :=
          Z.min (batchStart + batchSize) (Z.of_nat (List.length chunks)) in
        let batchChunks := slice chunks batchStart batchEnd in
        let '(brk, t', st') :=
          process_batch w batchIndex batchChunks maxRetries continueOnError
            t st in
        if brk then Some (t', st')
        else batches f w chunks batchSize maxRetries continueOnError
               totalBatches (batchIndex + 1) t' st'
      else Some (t, st)
  end.

Record BatchProcessingOptions := mkBatchOptions {
  batchSize : option Z;
  continueOnError : option bool;
  maxRetries : option Z
}.

(** [BatchProcessingResult], without [durationMs]. *)
Record BatchProcessingResult := mkBatchResult {
  totalChunks : Z;
  successfulEmbeddings : Z;
  failedEmbeddings : Z;
  result_errors : list ErrorEntry
}.

Definition DEFAULT_BATCH_SIZE : Z := 10.
Definition DEFAULT_MAX_RETRIES : Z := 1.

Definition batchSize_of (o : option BatchProcessingOptions) : Z :=
  match o with
  | Some o => match batchSize o with Some b => b | None => DEFAULT_BATCH_SIZE end
  | None => DEFAULT_BATCH_SIZE
  end.

Definition continueOnError_of (o : option BatchProcessingOptions) : bool :=
  match o with
  | Some o => match continueOnError o with Some b => b | None => true end
  | None => true
  end.

Definition maxRetries_of (o : option BatchProcessingOptions) : Z :=
  match o with
  | Some o =>
      match maxRetries o with Some b => b | None => DEFAULT_MAX_RETRIES end
  | None => DEFAULT_MAX_RETRIES
  end.

(** [processChunks(chunks, undefined, options)] : no progress callback; a
    whole number for [batchSize]. *)
Definition processChunks (fuel : nat) (w : Services)
  (chunks : list DocumentChunk) (options : option BatchProcessingOptions)
  (st : Calls) : option (BatchProcessingResult * Calls) :=
  let len := Z.of_nat (List.length chunks) in
  let totalBatches := totalBatches_of len (batchSize_of options) in
  match batches fuel w chunks (batchSize_of options) (maxRetries_of options)
          (continueOnError_of options) totalBatches 0 (mkTally 0 0 []) st with
  | Some (t, st') =>
      Some (mkBatchResult len (completed t) (failed t) (errors t), st')
  | None => None
  end.

(** [processDocuments(documents, undefined, options)] *)
Definition processDocuments (fuel : nat) (w : Services)
  (chunker : DocumentChunker) (documents : list ChunkerBatch.Doc)
  (options : option BatchProcessingOptions) (st : Calls)
  : option (BatchProcessingResult * Calls) :=
  let allChunks :=
    flat_map
      (fun doc =>
         chunkDocument chunker (ChunkerBatch.doc_hash doc)
           (ChunkerBatch.doc_content doc))
      documents in
  match allChunks with
  | [] => Some (mkBatchResult 0 0 0 [], st)
  | _ => processChunks fuel w allChunks options st
  end.

End BatchProcessor.

(* ================================================================== *)
(** * Further notions used to state the properties *)
(* ================================================================== *)

Module MoreProps.
Import JsString Exn.

(** The values of a field are 1, 2, 3, ... in list order. *)
Definition ranked_from_one {A} (rank : A -> Z) (l : list A) : Prop :=
  map rank l = map Z.of_nat (List.seq 1 (List.length l)).

(** The condition [abs(bm25(documents_fts)) <= ?] of the lexical statement
    for a row of raw score [raw] and the bound parameter. *)
Definition within_threshold (raw : Q) (t : FtsSearch.threshold) : Prop :=
  match t with
  | FtsSearch.Infinity => True
  | FtsSearch.Finite q => (Qabs raw <= q)%Q
  end.

(** A string that does not start with white space, and one with white
    space at neither end (what [trim] leaves). *)
Definition no_lead (s : jsstring) : Prop :=
  match s with
  | [] => True
  | c :: _ => is_s c = false
  end.

Definition trimmed (s : jsstring) : Prop := no_lead s /\ no_lead (rev s).

(** A piece of [splitIntoWords]: a run of white space, or a word with no
    white space in it. *)
Definition space_or_word (w : jsstring) : Prop :=
  forallb is_s w = true \/ existsb is_s w = false.

(** The estimated tokens of a list of words, word by word. *)
Definition word_tokens (ws : list jsstring) : Z :=
  fold_right (fun w a => Chunker.estimateTokenCount w + a) 0 ws.

(** What [chunkDocument] keeps for every chunk. *)
Definition chunk_ok (h : jsstring) (ch : Chunker.DocumentChunk) : Prop :=
  Chunker.hash ch = h
  /\ Chunker.tokenCount ch = Chunker.estimateTokenCount (Chunker.text ch).

(** The last document of a list with a given hash. *)
Definition last_with_hash (h : jsstring) (docs : list ChunkerBatch.Doc)
  : option ChunkerBatch.Doc :=
  fold_left
    (fun o d => if jseqb h (ChunkerBatch.doc_hash d) then Some d else o)
    docs None.

(** No two white-space characters next to each other. *)
Fixpoint no_double_space (s : jsstring) : bool :=
  match s with
  | c1 :: (c2 :: _) as s' => negb (is_s c1 && is_s c2) && no_double_space s'
  | _ => true
  end.

(** A character that [sanitizeFTS5Query] leaves in a query without explicit
    syntax: no special character of FTS5, no double quote (34), and no
    white space but the space. *)
Definition plain_char (c : N) : Prop :=
  FtsSearch.FTS5_SPECIAL_CHARS c = false
  /\ c <> 34%N
  /\ (is_s c = true -> c = 32%N).

(** What [search] does with the outcome of the engine. *)
Definition engine_outcome (with_snippets : bool)
  (r : completion (list FtsSearch.FtsRow))
  : completion (list FtsSearch.SearchResult) :=
  match r with
  | Returned rows => Returned (FtsSearch.results_of_rows with_snippets rows)
  | Threw e => FtsSearch.on_engine_error e
  end.

(** A database whose statements all succeed. *)
Definition db_never_throws (w : BatchProcessor.Services) : Prop :=
  forall n c, BatchProcessor.run w n c = Returned tt.

(** The chunks [processDocuments] collects. *)
Definition all_chunks (chunker : Chunker.DocumentChunker)
  (documents : list ChunkerBatch.Doc) : list Chunker.DocumentChunk :=
  flat_map
    (fun doc =>
       Chunker.chunkDocument chunker (ChunkerBatch.doc_hash doc)
         (ChunkerBatch.doc_content doc))
    documents.

(** The error classes of the three searchers. *)
Definition is_SearchError (e : exn) : Prop :=
  match e with SearchError _ _ => True | _ => False end.

Definition is_VectorSearchError (e : exn) : Prop :=
  match e with VectorSearchError _ _ => True | _ => False end.

Definition is_HybridSearchError (e : exn) : Prop :=
  match e with HybridSearchError _ _ => True | _ => False end.

(** The statement [searchWithEmbedding] runs for an embedding and
    options. *)
Definition knn_request (emb : VectorSearch.embedding)
  (options : option VectorSearch.VectorSearchOptions)
  : VectorSearch.KnnRequest :=
  let get {A} (f : VectorSearch.VectorSearchOptions -> option A) : option A :=
    match options with Some o => f o | None => None end in
  VectorSearch.mkKnnRequest emb
    match get VectorSearch.limit with
    | Some l => l
    | None => VectorSearch.DEFAULT_LIMIT
    end
    match get VectorSearch.collectionFilter with
    | Some c => if nonempty c then Some c else None
    | None => None
    end.

(** Every entry of the score map sits under its own hash. *)
Definition keyed (m : HybridSearch.ScoreMap) : Prop :=
  Forall (fun p => HybridSearch.e_hash (snd p) = fst p) m.

Definition code_of (e : exn) : option ErrorCode :=
  match e with
  | SearchError _ c | VectorSearchError _ c | HybridSearchError _ c => Some c
  | _ => None
  end.

End MoreProps.

(* ================================================================== *)
(** * Notions and inputs for the fallback of the hybrid search *)
(* ================================================================== *)

Module HybridCases.
Import JsString Exn HybridSearch Props MoreProps.

(** ** What the fusion makes of a single list *)

(** [x] is the element of [l] at index [i] (from 0), and the last, or the
    first, element of [l] whose key is [h]. *)
Definition last_at {A} (key : A -> jsstring) (l : list A) (h : jsstring)
  (i : nat) (x : A) : Prop :=
  nth_error l i = Some x /\ key x = h
  /\ forall j y, (i < j)%nat -> nth_error l j = Some y -> key y <> h.

Definition first_at {A} (key : A -> jsstring) (l : list A) (h : jsstring)
  (i : nat) (x : A) : Prop :=
  nth_error l i = Some x /\ key x = h
  /\ forall j y, (j < i)%nat -> nth_error l j = Some y -> key y <> h.

(** One result per hash of [hashes], and no other. *)
Definition one_per_hash (hashes : list jsstring)
  (fused : list HybridSearchResult) : Prop :=
  NoDup (map hash fused)
  /\ forall h, In h (map hash fused) <-> In h hashes.

(** A fused result made from the lexical list alone: the document, score
    and rank of the lexical result with its hash (the last one, should the
    list repeat the hash), [1 / (k + rank)] as fused score, and no vector
    field. *)
Definition from_lexical (k : Q) (br : list FtsSearch.SearchResult)
  (r : HybridSearchResult) : Prop :=
  exists i x,
    last_at FtsSearch.hash br (hash r) i x
    /\ title r = FtsSearch.title x /\ content r = FtsSearch.content x
    /\ path r = FtsSearch.path x
    /\ bm25Score r = Some (FtsSearch.score x)
    /\ bm25Rank r = Some (Z.of_nat i + 1)
    /\ (rrfScore r == 1 / (k + inject_Z (Z.of_nat i + 1)))%Q
    /\ similarity r = None /\ vectorRank r = None.

(** A fused result made from the vector list alone: the similarity and rank
    of the vector result with its hash (the last one, should the list repeat
    the hash), the document of the first one, [1 / (k + rank)] as fused
    score when the list has the hash once, and no lexical field. *)
Definition from_vector (k : Q) (vr : list VectorSearch.VectorSearchResult)
  (r : HybridSearchResult) : Prop :=
  (exists i x,
     last_at VectorSearch.hash vr (hash r) i x
     /\ similarity r = Some (VectorSearch.similarity x)
     /\ vectorRank r = Some (Z.of_nat i + 1)
     /\ (NoDup (vector_hashes vr) ->
         (rrfScore r == 1 / (k + inject_Z (Z.of_nat i + 1)))%Q))
  /\ (exists j y,
        first_at VectorSearch.hash vr (hash r) j y
        /\ title r = VectorSearch.title y
        /\ content r = VectorSearch.content y
        /\ path r = VectorSearch.path y)
  /\ bm25Score r = None /\ bm25Rank r = None.

(** The results of one list have gone through fusion: one result per
    document of the list, best fused score first, each made from that list
    alone. *)
Definition lexical_flow (k : Q) (br : list FtsSearch.SearchResult)
  (fused : list HybridSearchResult) : Prop :=
  one_per_hash (bm25_hashes br) fused
  /\ StronglySorted by_score_desc fused
  /\ forall r, In r fused -> from_lexical k br r.

Definition vector_flow (k : Q) (vr : list VectorSearch.VectorSearchResult)
  (fused : list HybridSearchResult) : Prop :=
  one_per_hash (vector_hashes vr) fused
  /\ StronglySorted by_score_desc fused
  /\ forall r, In r fused -> from_vector k vr r.

(** An entry that keeps the document and the lexical fields of [ex], and an
    entry made of the first result of the vector list with hash [h]. *)
Definition same_origin (e ex : ScoreEntry) : Prop :=
  e_hash e = e_hash ex /\ e_title e = e_title ex
  /\ e_content e = e_content ex /\ e_path e = e_path ex
  /\ e_bm25Score e = e_bm25Score ex /\ e_bm25Rank e = e_bm25Rank ex.

Definition vector_origin (vr : list VectorSearch.VectorSearchResult)
  (h : jsstring) (e : ScoreEntry) : Prop :=
  exists j y,
    first_at VectorSearch.hash vr h j y
    /\ e_hash e = VectorSearch.hash y /\ e_title e = VectorSearch.title y
    /\ e_content e = VectorSearch.content y /\ e_path e = VectorSearch.path y
    /\ e_bm25Score e = None /\ e_bm25Rank e = None.

(** Three rows of the full-text index, best match first. *)
Definition fts_row (h : string) (bm25 : Q) : FtsSearch.FtsRow :=
  FtsSearch.mkFtsRow (js h) (js "title") (js "content") (js "note.md") bm25
    None.

Definition three_fts_rows : FtsSearch.Database :=
  fun _ => Returned [fts_row "a" (-3); fts_row "b" (-2); fts_row "c" (-1)].

(** A searcher in the default (graceful) mode whose embedding service is
    down and whose full-text index returns three rows. *)
Definition vector_down : HybridSearcher :=
  mkHybridSearcher
    (FtsSearch.mkFTSSearcher three_fts_rows true)
    (VectorSearch.mkVectorSearcher three_rows offline_embedder true)
    graceful.

(** The same two engines behind a searcher in fail mode. *)
Definition vector_down_strict : HybridSearcher :=
  mkHybridSearcher
    (FtsSearch.mkFTSSearcher three_fts_rows true)
    (VectorSearch.mkVectorSearcher three_rows offline_embedder true)
    fail.

(** An index in which the two nearest chunks belong to one document, and
    which has no lexical match. *)
Definition two_chunk_rows : VectorSearch.Database :=
  fun _ => Returned [knn_row "a" (1 # 10); knn_row "a" (2 # 10)].

Definition no_fts_rows : FtsSearch.Database := fun _ => Returned [].

Definition two_chunks_index : HybridSearcher :=
  mkHybridSearcher
    (FtsSearch.mkFTSSearcher no_fts_rows true)
    (VectorSearch.mkVectorSearcher two_chunk_rows online_embedder true)
    graceful.

End HybridCases.

(* ================================================================== *)
(** * The score conversions with rounding *)
(* ================================================================== *)

(** The numbers of the source are IEEE doubles: each arithmetic operation
    on finite numbers gives the exact result rounded to a double.  The searchers above compute
    over exact rationals.  [Rounded] writes the three conversions with every
    operation rounded by [rnd]; [Math.abs], [Math.max] and [Math.min] do not
    round, and the constants are doubles.  [Doubles] writes them on the
    binary64 numbers themselves. *)
Module Rounded.
Local Open Scope Q_scope.

Definition normalizeBM25Score (rnd : Q -> Q) (bm25Score : Q) : Q :=
  let absScore := Qabs bm25Score in
  rnd (rnd (1 / rnd (1 + absScore)) * 100).

Definition distanceToSimilarity (rnd : Q -> Q) (distance : Q) : Q :=
  let clampedDistance := Qmax 0 (Qmin 2 distance) in
  rnd (rnd (1 - rnd (clampedDistance / 2)) * 100).

Definition similarityToDistance (rnd : Q -> Q) (similarity : Q) : Q :=
  let clampedSimilarity := Qmax 0 (Qmin 100 similarity) in
  rnd (2 * rnd (1 - rnd (clampedSimilarity / 100))).

(** Rounding keeps the order of numbers, as every rounding mode of IEEE 754
    does. *)
Definition monotone (rnd : Q -> Q) : Prop :=
  forall x y, x <= y -> rnd x <= rnd y.

(** No rounding at all. *)
Definition exact (x : Q) : Q := x.

(** Rounding down to a multiple of [1 / 8]. *)
Definition eighths (x : Q) : Q := inject_Z (Qfloor (x * 8)) / 8.

End Rounded.

Module Doubles.
Import PrimFloat.
Local Open Scope float_scope.

(** [Math.min(a, b)] and [Math.max(a, b)]: [NaN] when an argument is [NaN];
    [-0] is below [+0]. *)
Definition Math_min (a b : float) : float :=
  if is_nan a || is_nan b then nan
  else if a <? b then a
  else if b <? a then b
  else if get_sign a then a else b.

Definition Math_max (a b : float) : float :=
  if is_nan a || is_nan b then nan
  else if a <? b then b
  else if b <? a then a
  else if get_sign a then b else a.

Definition normalizeBM25Score (bm25Score : float) : float :=
  let absScore := abs bm25Score in
  (1 / (1 + absScore)) * 100.

Definition distanceToSimilarity (distance : float) : float :=
  let clampedDistance := Math_max 0 (Math_min 2 distance) in
  (1 - clampedDistance / 2) * 100.

Definition similarityToDistance (similarity : float) : float :=
  let clampedSimilarity := Math_max 0 (Math_min 100 similarity) in
  2 * (1 - clampedSimilarity / 100).

End Doubles.

(* ================================================================== *)
(** * The chunker: token estimate, small documents, chunk order *)
(* ================================================================== *)

Section ChunkerFacts.
Import JsString Chunker Props.

Lemma match_runs_from_length (cls : N -> bool) (s run : jsstring) :
  List.length (match_runs_from cls run s)
  = (count_run_starts cls (nonempty run) s
     + (if nonempty run then 1 else 0))%nat.
Proof.
  revert run.
  induction s as [|c s IH]; intros run; simpl.
  - destruct run; reflexivity.
  - destruct (cls c).
    + rewrite IH. simpl. destruct run; simpl; lia.
    + destruct run; simpl; rewrite IH; simpl; lia.
Qed.

Lemma match_runs_count (cls : N -> bool) (s : jsstring) :
  Z.of_nat (List.length (match_runs cls s))
  = Z.of_nat (count_run_starts cls false s).
Proof.
  unfold match_runs. rewrite match_runs_from_length. simpl. f_equal. lia.
Qed.

Lemma match_chars_count (cls : N -> bool) (s : jsstring) :
  List.length (match_chars cls s) = List.length (filter cls s).
Proof. unfold match_chars. apply length_map. Qed.

Lemma existsb_none (p : N -> bool) (l : jsstring) :
  (forall c, In c l -> p c = false) -> existsb p l = false.
Proof.
  induction l as [|c l IH]; intros H; simpl; [reflexivity|].
  rewrite (H c (or_introl eq_refl)), IH; [reflexivity|].
  intros d Hd. apply H. right. exact Hd.
Qed.

(** No run holds a character that the text does not hold. *)
Lemma runs_without (cls p : N -> bool) (s : jsstring) : forall run,
  (forall c, In c run \/ In c s -> p c = false) ->
  Forall (fun r => existsb p r = false) (match_runs_from cls run s).
Proof.
  induction s as [|c s IH]; intros run H; simpl.
  - destruct run as [|d run]; constructor; [|constructor].
    apply existsb_none. intros x Hx. apply H. left.
    apply in_rev. exact Hx.
  - destruct (cls c).
    + apply IH. intros x [[<-|Hx]|Hx]; apply H; simpl; auto.
    + assert (Hrest : Forall (fun r => existsb p r = false)
                        (match_runs_from cls [] s)).
      { apply IH. intros x [[]|Hx]. apply H. simpl. auto. }
      destruct run as [|d run]; [exact Hrest|].
      constructor; [|exact Hrest].
      apply existsb_none. intros x Hx. apply H. left.
      apply in_rev. exact Hx.
Qed.

Lemma filter_all {A} (f : A -> bool) (l : list A) :
  Forall (fun x => f x = true) l -> filter f l = l.
Proof.
  induction 1 as [|x l Hx _ IH]; simpl; [reflexivity|].
  rewrite Hx, IH. reflexivity.
Qed.

Lemma words_non_cjk_all (t : jsstring) :
  cjk_chars t = 0 -> words_non_cjk t = word_runs t.
Proof.
  intros H. unfold words_non_cjk, word_runs.
  rewrite filter_all; [apply match_runs_count|].
  assert (Hno : forall c, In c t -> is_cjk c = false).
  { intros c Hc. destruct (is_cjk c) eqn:E; [|reflexivity].
    assert (Hin : In c (filter is_cjk t)) by (apply filter_In; auto).
    unfold cjk_chars in H. destruct (filter is_cjk t); [destruct Hin|].
    simpl in H. lia. }
  pose proof (runs_without is_wordchar is_cjk t []) as R.
  eapply Forall_impl; [|apply R].
  - intros r Hr. simpl in Hr. rewrite Hr. reflexivity.
  - intros c [[]|Hc]. auto.
Qed.

(** C3 (amended): for every text, [estimateTokenCount] returns
    [ceil((W - a) * 1.3) + C + ceil(P * 0.5)], where [W] counts all the
    word-like runs of the text (CJK runs included), [C] its CJK characters,
    [P] its punctuation characters, and [a] is [min(W, C / 2)] when the text
    has a CJK character and [0] otherwise.  CJK characters are not taken out
    run by run: half their number is taken off the word count.  For a text
    with no CJK character this is the formula as stated. *)
Theorem estimateTokenCount_formula (t : jsstring) :
  estimateTokenCount t
  = Qceiling ((inject_Z (word_runs t) - cjk_adjustment t) * (13 # 10))%Q
    + cjk_chars t
    + Qceiling (inject_Z (punctuation_chars t) * (1 # 2))%Q
  /\ (cjk_chars t = 0 -> estimateTokenCount t = estimate_as_specified t).
Proof.
  assert (F : estimateTokenCount t
              = Qceiling ((inject_Z (word_runs t) - cjk_adjustment t)
                          * (13 # 10))%Q
                + cjk_chars t
                + Qceiling (inject_Z (punctuation_chars t) * (1 # 2))%Q).
  { destruct t as [|c t]; [reflexivity|].
    unfold estimateTokenCount, cjk_adjustment, word_runs, cjk_chars,
      punctuation_chars.
    rewrite match_runs_count, !match_chars_count.
    reflexivity. }
  split; [exact F|].
  intros H. rewrite F. unfold estimate_as_specified.
  rewrite (words_non_cjk_all t H). unfold cjk_adjustment. rewrite H. simpl.
  f_equal. f_equal. apply Qceiling_comp. ring.
Qed.

Lemma estimateTokenCount_formula_witness :
  estimateTokenCount (js "Hello, world!")
  = estimate_as_specified (js "Hello, world!").
Proof.
  apply (proj2 (estimateTokenCount_formula (js "Hello, world!"))).
  reflexivity.
Defined.

(** C3 as stated fails on the one-character text U+65E5: it has no
    word-like run that is not CJK and one CJK character, so the stated
    formula gives [1], while the code counts the character as half a word
    as well and returns [2]. *)
Lemma estimate_double_charges_cjk :
  estimateTokenCount [0x65E5%N] = 2 /\ estimate_as_specified [0x65E5%N] = 1.
Proof. split; vm_compute; reflexivity. Qed.

(** C6: [chunkDocument] returns no chunk for empty or white-space-only
    content; for any other content whose trimmed text is estimated at or
    below [maxTokens] it returns exactly one chunk, with [seq] 0, [pos] 0,
    the trimmed content as text and that estimate as [tokenCount]. *)
Theorem chunkDocument_small (c : DocumentChunker) (h content : jsstring) :
  (trim content = [] -> chunkDocument c h content = [])
  /\ (trim content <> [] ->
      (inject_Z (estimateTokenCount (trim content)) <= maxTokens c)%Q ->
      chunkDocument c h content
      = [mkChunk h 0 0 (trim content) (estimateTokenCount (trim content))]).
Proof.
  unfold chunkDocument. split.
  - intros E. rewrite E. simpl. rewrite orb_true_r. reflexivity.
  - intros NE Hle.
    assert (Hc : nonempty content = true).
    { destruct content; [exfalso; apply NE; reflexivity | reflexivity]. }
    assert (Hl : (jslength (trim content) =? 0) = false).
    { apply Z.eqb_neq. unfold jslength.
      destruct (trim content); [congruence | simpl; lia]. }
    rewrite Hc, Hl. simpl.
    apply Qle_bool_iff in Hle. rewrite Hle. reflexivity.
Qed.

Lemma chunkDocument_small_witness :
  chunkDocument (new_DocumentChunker None) (js "h") (js "   ") = []
  /\ chunkDocument (new_DocumentChunker None) (js "h")
       (js " Dr. Smith arrived. ")
     = [mkChunk (js "h") 0 0 (js "Dr. Smith arrived.") 5].
Proof.
  split.
  - exact (proj1 (chunkDocument_small (new_DocumentChunker None) (js "h")
                    (js "   ")) eq_refl).
  - refine (proj2 (chunkDocument_small (new_DocumentChunker None) (js "h")
                     (js " Dr. Smith arrived. ")) _ _).
    + discriminate.
    + vm_compute. discriminate.
Defined.

(** C9, the code at an input on which the recorded positions decrease:
    with [maxTokens = 36] and [overlapPercent = 0.0625] the chunks of
    [wrapped_abbreviations] start at 0, 52 and 51, while their [seq] values
    are 0, 1, 2. *)
Theorem chunk_positions_can_decrease :
  map pos (chunkDocument small_chunker (js "doc") wrapped_abbreviations)
  = [0; 52; 51]
  /\ map seq (chunkDocument small_chunker (js "doc") wrapped_abbreviations)
     = [0; 1; 2].
Proof. split; vm_compute; reflexivity. Qed.

Lemma seq_snoc (l : list DocumentChunk) (ch : DocumentChunk) :
  map seq l = map Z.of_nat (List.seq 0 (List.length l)) ->
  seq ch = Z.of_nat (List.length l) ->
  map seq (l ++ [ch])
  = map Z.of_nat (List.seq 0 (List.length (l ++ [ch]))).
Proof.
  intros Hl Hc.
  rewrite map_app, length_app. simpl.
  rewrite Nat.add_1_r, seq_S, map_app, <- Hl. simpl. rewrite Hc. reflexivity.
Qed.

Lemma flushChunk_seq_ok c h st : seq_ok st -> seq_ok (flushChunk c h st).
Proof.
  intros [H1 H2]. unfold flushChunk.
  destruct (currentChunkSegments st) eqn:E; [split; assumption|].
  split; simpl.
  - apply seq_snoc; [assumption|]. unfold chunk_of. simpl. exact H2.
  - rewrite length_app. simpl. lia.
Qed.

Lemma segment_step_seq_ok c h st sg : seq_ok st -> seq_ok (segment_step c h st sg).
Proof.
  intros H. unfold segment_step.
  destruct (Qgtb _ _).
  - pose proof (flushChunk_seq_ok c h st H) as [F1 F2].
    destruct (nonempty (overlapText (flushChunk c h st))); split; simpl; assumption.
  - destruct H; split; simpl; assumption.
Qed.

Lemma fold_segment_step_seq_ok c h segs st :
  seq_ok st -> seq_ok (fold_left (segment_step c h) segs st).
Proof.
  revert st. induction segs as [|sg segs IH]; intros st H; simpl; [exact H|].
  apply IH, segment_step_seq_ok, H.
Qed.

(** X1: the [seq] values of the chunks of any document are 0, 1, 2, ...
    in order. *)
Theorem chunkDocument_seq (c : DocumentChunker) (h content : jsstring) :
  map seq (chunkDocument c h content)
  = map Z.of_nat (List.seq 0 (List.length (chunkDocument c h content))).
Proof.
  unfold chunkDocument.
  destruct (negb (nonempty content) || (jslength (trim content) =? 0)); [reflexivity|].
  destruct (Qle_bool _ _); [reflexivity|].
  set (st := fold_left _ _ _).
  assert (H : seq_ok st).
  { apply fold_segment_step_seq_ok. split; reflexivity. }
  destruct H as [H1 H2].
  destruct (currentChunkSegments st) eqn:E; [exact H1|].
  apply seq_snoc; [exact H1|]. unfold chunk_of. simpl. exact H2.
Qed.

End ChunkerFacts.


(* ================================================================== *)
(** * Score conversions *)
(* ================================================================== *)

Section ScoreConversions.
Import JsString Exn FtsSearch VectorSearch Props.
Local Open Scope Q_scope.





Lemma clamp_id (lo hi x : Q) : lo <= x -> x <= hi -> Qmax lo (Qmin hi x) == x.
Proof.
  intros H1 H2. rewrite (Q.min_r hi x H2). apply Q.max_r, H1.
Qed.

(** C5: for [0 < s < 100], [denormalizeToBM25 s] is a finite raw magnitude
    that [normalizeBM25Score] maps back to [s]; for [0 <= s <= 100],
    [distanceToSimilarity (similarityToDistance s)] is [s].  Numbers are
    exact rationals here, so the round trips are exact. *)
Theorem score_round_trips (s : Q) :
  (0 < s -> s < 100 ->
   exists raw, denormalizeToBM25 s = Finite raw /\ normalizeBM25Score raw == s)
  /\ (0 <= s -> s <= 100 ->
      distanceToSimilarity (similarityToDistance s) == s).
Proof.
  split.
  - intros H0 H100.
    exists (100 / s - 1). split.
    + unfold denormalizeToBM25.
      destruct (Qle_bool s 0) eqn:E1.
      { apply Qle_bool_iff in E1. lra. }
      destruct (Qle_bool 100 s) eqn:E2.
      { apply Qle_bool_iff in E2. lra. }
      reflexivity.
    + unfold normalizeBM25Score.
      assert (Hp : 0 <= 100 / s - 1).
      { assert (1 <= 100 / s); [|lra].
        apply Qle_shift_div_l; lra. }
      rewrite (Qabs_pos _ Hp). field. lra.
  - intros H0 H100.
    unfold distanceToSimilarity, similarityToDistance.
    rewrite (clamp_id 0 100 s H0 H100).
    rewrite clamp_id.
    + field.
    + assert (s / 100 <= 1); [|lra]. apply Qle_shift_div_r; lra.
    + assert (0 <= s / 100); [|lra]. apply Qle_shift_div_l; lra.
Qed.

Lemma score_round_trips_witness :
  (exists raw, denormalizeToBM25 25 = Finite raw /\ normalizeBM25Score raw == 25)
  /\ distanceToSimilarity (similarityToDistance 40) == 40.
Proof.
  split.
  - apply (proj1 (score_round_trips 25)); reflexivity.
  - apply (proj2 (score_round_trips 40)); discriminate.
Defined.

Lemma clamp_monotone (lo hi x y : Q) :
  x <= y -> Qmax lo (Qmin hi x) <= Qmax lo (Qmin hi y).
Proof.
  intros H. apply Q.max_le_compat_l, Q.min_le_compat_l, H.
Qed.

Lemma distanceToSimilarity_linear (d : Q) :
  distanceToSimilarity d == 100 - 50 * Qmax 0 (Qmin 2 d).
Proof. unfold distanceToSimilarity. field. Qed.

(** X5: [distanceToSimilarity] never increases with the distance, whatever
    the two distances; it is 100 for a distance of at most 0 and 0 for a
    distance of at least 2. *)
Theorem distanceToSimilarity_monotone (d1 d2 : Q) :
  d1 <= d2 ->
  distanceToSimilarity d2 <= distanceToSimilarity d1
  /\ (d1 <= 0 -> distanceToSimilarity d1 == 100)
  /\ (2 <= d2 -> distanceToSimilarity d2 == 0).
Proof.
  intros H. rewrite !distanceToSimilarity_linear. split; [|split].
  - pose proof (clamp_monotone 0 2 d1 d2 H). lra.
  - intros H0. rewrite (Q.min_r 2 d1) by lra. rewrite (Q.max_l 0 d1 H0). lra.
  - intros H2. rewrite (Q.min_l 2 d2 H2). rewrite (Q.max_r 0 2) by lra. lra.
Qed.

Lemma distanceToSimilarity_monotone_witness :
  distanceToSimilarity 3 <= distanceToSimilarity (1 # 2)
  /\ distanceToSimilarity 3 == 0.
Proof.
  destruct (distanceToSimilarity_monotone (1 # 2) 3) as (H & _ & H2);
    [discriminate | split; [exact H | apply H2; discriminate]].
Defined.

(** ** With rounding *)

(** The two orders hold of the rounded conversions too, for every rounding
    that keeps the order of numbers and does not make 1 vanish. *)
Lemma rounded_normalizeBM25Score_monotone (rnd : Q -> Q) (r1 r2 : Q) :
  Rounded.monotone rnd -> 0 < rnd 1 ->
  r1 <= r2 -> r2 <= 0 ->
  Rounded.normalizeBM25Score rnd r1 <= Rounded.normalizeBM25Score rnd r2.
Proof.
  intros Hm H1 H12 H2. unfold Rounded.normalizeBM25Score.
  assert (E1 : Qabs r1 == - r1) by (apply Qabs_neg; lra).
  assert (E2 : Qabs r2 == - r2) by (apply Qabs_neg; lra).
  set (a1 := rnd (1 + Qabs r1)). set (a2 := rnd (1 + Qabs r2)).
  assert (Ha : a2 <= a1) by (apply Hm; lra).
  assert (Hp : 0 < a2).
  { apply Qlt_le_trans with (rnd 1); [exact H1 | apply Hm; lra]. }
  apply Hm. apply Qmult_le_compat_r; [|discriminate].
  apply Hm.
  apply Qle_shift_div_l; [exact Hp|].
  unfold Qdiv. rewrite <- Qmult_assoc, (Qmult_comm (/ _)).
  rewrite Qmult_assoc. apply Qle_shift_div_r; [lra|]. lra.
Qed.

Lemma rounded_distanceToSimilarity_monotone (rnd : Q -> Q) (d1 d2 : Q) :
  Rounded.monotone rnd -> d1 <= d2 ->
  Rounded.distanceToSimilarity rnd d2 <= Rounded.distanceToSimilarity rnd d1.
Proof.
  intros Hm H. unfold Rounded.distanceToSimilarity.
  pose proof (clamp_monotone 0 2 d1 d2 H) as Hc.
  set (c1 := Qmax 0 (Qmin 2 d1)) in *. set (c2 := Qmax 0 (Qmin 2 d2)) in *.
  assert (Hh : rnd (c1 / 2) <= rnd (c2 / 2)).
  { apply Hm. unfold Qdiv. apply Qmult_le_compat_r; [exact Hc | discriminate]. }
  apply Hm. apply Qmult_le_compat_r; [|discriminate].
  apply Hm. lra.
Qed.

(** Without rounding they are the conversions of the searchers. *)
Lemma rounded_exact (x : Q) :
  Rounded.normalizeBM25Score Rounded.exact x = normalizeBM25Score x
  /\ Rounded.distanceToSimilarity Rounded.exact x = distanceToSimilarity x
  /\ Rounded.similarityToDistance Rounded.exact x = similarityToDistance x.
Proof. repeat split. Qed.

Lemma eighths_monotone : Rounded.monotone Rounded.eighths.
Proof.
  intros x y H. unfold Rounded.eighths, Qdiv.
  apply Qmult_le_compat_r; [|discriminate].
  rewrite <- Zle_Qle. apply Qfloor_resp_le. lra.
Qed.

(** Neither order is strict once results are rounded: a coarse rounding
    gives two raw scores, and two distances, the same score. *)
Lemma rounded_ties :
  Rounded.normalizeBM25Score Rounded.eighths (-3)
  == Rounded.normalizeBM25Score Rounded.eighths (-(30 # 10) - (1 # 100))
  /\ Rounded.distanceToSimilarity Rounded.eighths 1
     == Rounded.distanceToSimilarity Rounded.eighths (1 + (1 # 100)).
Proof. split; vm_compute; reflexivity. Qed.

End ScoreConversions.

(* ================================================================== *)
(** * The score conversions on doubles *)
(* ================================================================== *)

Section OnDoubles.
Import PrimFloat Doubles.
Local Open Scope float_scope.

(** On doubles the lexical conversion gives 25 for the raw score [-3] and
    for the next double below it, [-3.0000000000000004]. *)
Lemma doubles_normalizeBM25Score_tie :
  (-0x1.8000000000001p+1 <? -3) = true
  /\ normalizeBM25Score (-0x1.8000000000001p+1) = 25
  /\ normalizeBM25Score (-3) = 25.
Proof. repeat split; vm_compute; reflexivity. Qed.

(** On doubles the vector conversion gives 100 for the distance 0 and for
    the distance [1e-17]. *)
Lemma doubles_distanceToSimilarity_tie :
  (0 <? 0x1.70ef54646d497p-57) = true
  /\ distanceToSimilarity 0x1.70ef54646d497p-57 = 100
  /\ distanceToSimilarity 0 = 100.
Proof. repeat split; vm_compute; reflexivity. Qed.

(** On doubles the minimum similarity 10 stands for the distance [1.8]; a
    row at that distance passes the test of the row loop, which skips a row
    when [distance > maxDistance], and its similarity is below 10. *)
Lemma doubles_threshold_falls_short :
  similarityToDistance 10 = 0x1.ccccccccccccdp+0
  /\ (similarityToDistance 10 <? 0x1.ccccccccccccdp+0) = false
  /\ (distanceToSimilarity 0x1.ccccccccccccdp+0 <? 10) = true.
Proof. repeat split; vm_compute; reflexivity. Qed.

End OnDoubles.


(* ================================================================== *)
(** * Engine failures of the lexical searcher *)
(* ================================================================== *)

Section LexicalFailures.
Import JsString Exn FtsSearch Props.

Lemma run_search_engine_failure (with_snippets : bool) (s : FTSSearcher)
  (query : jsstring) (options : option SearchOptions) (e : exn) :
  initialized s = true ->
  nonempty (sanitizeFTS5Query query) = true ->
  db s (build_request with_snippets (sanitizeFTS5Query query) options)
  = Threw e ->
  run_search with_snippets s query options
  = (if mentions_fts5 e then Returned []
     else Threw (SearchError
                   (js "Search query failed: " ++ message_or_unknown e)
                   QUERY_ERROR))
  /\ (run_search with_snippets s query options = Returned []
      <-> mentions_fts5 e = true).
Proof.
  intros Hi Hq He. unfold run_search.
  rewrite Hi, Hq, He. simpl. unfold on_engine_error.
  fold (mentions_fts5 e).
  destruct (mentions_fts5 e); split; try reflexivity;
    split; congruence.
Qed.

(** C8 (amended): when the engine throws while [search] or
    [searchWithSnippets] runs its statement, the method returns the empty
    list exactly when the thrown value is an [Error] whose message contains
    [fts5], and otherwise throws a [SearchError] with code [QUERY_ERROR];
    [DB_NOT_INITIALIZED] is thrown only by a searcher that is not
    initialized, which no searcher built by the constructor is. *)
Theorem fts_engine_failure (s : FTSSearcher) (query : jsstring)
  (options : option SearchOptions) :
  nonempty (sanitizeFTS5Query query) = true ->
  (forall e,
     initialized s = true ->
     db s (build_request false (sanitizeFTS5Query query) options) = Threw e ->
     search s query options
     = (if mentions_fts5 e then Returned []
        else Threw (SearchError
                      (js "Search query failed: " ++ message_or_unknown e)
                      QUERY_ERROR))
     /\ (search s query options = Returned [] <-> mentions_fts5 e = true))
  /\ (forall e,
       initialized s = true ->
       db s (build_request true (sanitizeFTS5Query query) options) = Threw e ->
       searchWithSnippets s query options
       = (if mentions_fts5 e then Returned []
          else Threw (SearchError
                        (js "Search query failed: " ++ message_or_unknown e)
                        QUERY_ERROR))
       /\ (searchWithSnippets s query options = Returned []
           <-> mentions_fts5 e = true))
  /\ (initialized s = false ->
      search s query options
      = Threw (SearchError (js "Database not initialized") DB_NOT_INITIALIZED)
      /\ searchWithSnippets s query options
         = Threw (SearchError (js "Database not initialized")
                    DB_NOT_INITIALIZED))
  /\ (forall d, new_FTSSearcher (Some d) = Returned s -> initialized s = true).
Proof.
  intros Hq. split; [|split; [|split]].
  - intros e Hi He. apply run_search_engine_failure; assumption.
  - intros e Hi He. apply run_search_engine_failure; assumption.
  - intros Hi. unfold search, searchWithSnippets, run_search.
    rewrite Hi. split; reflexivity.
  - intros d H. injection H as <-. reflexivity.
Qed.

Lemma fts_engine_failure_witness :
  search
    (mkFTSSearcher (failing_engine (Error (js "fts5: syntax error near x")))
       true)
    (js "cats") None = Returned []
  /\ searchWithSnippets (mkFTSSearcher (failing_engine NonError) true)
       (js "cats") None
     = Threw (SearchError (js "Search query failed: Unknown error")
                QUERY_ERROR).
Proof.
  split.
  - exact (proj1
             (proj1
                (fts_engine_failure
                   (mkFTSSearcher
                      (failing_engine
                         (Error (js "fts5: syntax error near x"))) true)
                   (js "cats") None eq_refl)
                (Error (js "fts5: syntax error near x")) eq_refl eq_refl)).
  - exact (proj1
             (proj1
                (proj2
                   (fts_engine_failure
                      (mkFTSSearcher (failing_engine NonError) true)
                      (js "cats") None eq_refl))
                NonError eq_refl eq_refl)).
Defined.

(** C8 as stated fails both ways: when SQLite reports that the full-text
    index does not exist ([no such table: documents_fts]) both methods throw
    [QUERY_ERROR] instead of returning the empty list, and when it reports a
    malformed query ([fts5: syntax error ...]) they return the empty list. *)
Lemma missing_index_is_a_query_error :
  reports_missing_index (Error (js "no such table: documents_fts")) = true
  /\ search
       (mkFTSSearcher
          (failing_engine (Error (js "no such table: documents_fts"))) true)
       (js "cats") None
     = Threw (SearchError
                (js "Search query failed: no such table: documents_fts")
                QUERY_ERROR)
  /\ searchWithSnippets
       (mkFTSSearcher
          (failing_engine (Error (js "no such table: documents_fts"))) true)
       (js "cats") None
     = Threw (SearchError
                (js "Search query failed: no such table: documents_fts")
                QUERY_ERROR)
  /\ reports_missing_index (Error (js "fts5: syntax error near x")) = false
  /\ search
       (mkFTSSearcher
          (failing_engine (Error (js "fts5: syntax error near x"))) true)
       (js "cats") None
     = Returned [].
Proof. repeat split; vm_compute; reflexivity. Qed.

End LexicalFailures.

(* ================================================================== *)
(** * Blank queries of the vector searcher *)
(* ================================================================== *)

Section VectorBlankQuery.
Import JsString Exn VectorSearch Props.

(** C10: for a searcher built by the constructor, [search] on an empty or
    white-space-only query returns the empty list and makes no call to the
    embedding service: no availability check (so no
    [EMBEDDER_NOT_AVAILABLE]) and no embedding generation, whatever the
    state of the service. *)
Theorem vector_search_blank_query (d : Database) (e : OllamaEmbedder)
  (s : VectorSearcher) (query : jsstring)
  (options : option VectorSearchOptions) :
  new_VectorSearcher (Some d) e = Returned s ->
  trim query = [] ->
  search s query options = (Returned [], []).
Proof.
  intros Hs Hq. injection Hs as <-. unfold search. simpl.
  rewrite Hq. simpl. rewrite orb_true_r. reflexivity.
Qed.

Lemma vector_search_blank_query_witness :
  search (mkVectorSearcher no_rows offline_embedder true) (js "  ") None
  = (Returned [], []).
Proof.
  exact (vector_search_blank_query no_rows offline_embedder
           (mkVectorSearcher no_rows offline_embedder true) (js "  ") None
           eq_refl eq_refl).
Defined.

End VectorBlankQuery.


(* ================================================================== *)
(** * Reciprocal rank fusion *)
(* ================================================================== *)

Section Fusion.
Import JsString Exn HybridSearch Props.

Lemma jseqb_eq (a b : jsstring) : jseqb a b = true <-> a = b.
Proof.
  revert b. induction a as [|x a IH]; intros [|y b]; simpl.
  - tauto.
  - split; discriminate.
  - split; discriminate.
  - rewrite andb_true_iff, N.eqb_eq, IH.
    split; [intros [-> ->]; reflexivity | intros H; injection H; auto].
Qed.

Lemma jseqb_refl (a : jsstring) : jseqb a a = true.
Proof. apply jseqb_eq. reflexivity. Qed.

Lemma jseqb_neq (a b : jsstring) : jseqb a b = false <-> a <> b.
Proof.
  rewrite <- jseqb_eq. destruct (jseqb a b); split; congruence.
Qed.

(** ** The score map *)

Lemma map_get_set_same key value m :
  map_get key (map_set key value m) = Some value.
Proof.
  induction m as [|[k v] m IH]; simpl.
  - rewrite jseqb_refl. reflexivity.
  - destruct (jseqb key k) eqn:E; simpl; rewrite ?E; auto.
Qed.

Lemma map_get_set_other h key value m :
  jseqb h key = false -> map_get h (map_set key value m) = map_get h m.
Proof.
  intros Hne. induction m as [|[k v] m IH]; simpl.
  - rewrite Hne. reflexivity.
  - destruct (jseqb key k) eqn:E; simpl.
    + apply jseqb_eq in E. subst k. rewrite Hne. reflexivity.
    + rewrite IH. reflexivity.
Qed.

Lemma map_set_keys key value m :
  map fst (map_set key value m)
  = if existsb (jseqb key) (map fst m) then map fst m
    else map fst m ++ [key].
Proof.
  induction m as [|[k v] m IH]; simpl; [reflexivity|].
  destruct (jseqb key k) eqn:E; simpl; [reflexivity|].
  rewrite IH. destruct (existsb _ _); reflexivity.
Qed.

Lemma map_set_keys_nodup key value m :
  NoDup (map fst m) -> NoDup (map fst (map_set key value m)).
Proof.
  intros H. rewrite map_set_keys.
  destruct (existsb (jseqb key) (map fst m)) eqn:E; [exact H|].
  apply NoDup_app; [exact H | repeat constructor; intros [] |].
  intros a Ha [<-|[]].
  assert (existsb (jseqb key) (map fst m) = true); [|congruence].
  apply existsb_exists. exists key. split; [exact Ha | apply jseqb_refl].
Qed.

Lemma map_get_of_in key e m :
  NoDup (map fst m) -> In (key, e) m -> map_get key m = Some e.
Proof.
  induction m as [|[k v] m IH]; simpl; [tauto|].
  intros Hnd [H|H].
  - injection H as -> ->. rewrite jseqb_refl. reflexivity.
  - inversion Hnd as [|? ? Hnot Hnd']; subst.
    destruct (jseqb key k) eqn:E.
    + apply jseqb_eq in E. subst k. exfalso. apply Hnot.
      apply in_map_iff. exists (key, e). auto.
    + apply IH; assumption.
Qed.

Lemma map_get_in key e m : map_get key m = Some e -> In e (map_values m).
Proof.
  induction m as [|[k v] m IH]; simpl; [discriminate|].
  destruct (jseqb key k); [intros H; injection H; auto | auto].
Qed.

(** Both loops of [rrfFusion] set the entry of the hash of the result they
    visit from the entry that hash had. *)
Lemma add_bm25_set k m x i :
  add_bm25 k m x i = map_set (FtsSearch.hash x) (entry_b k x i) m.
Proof. reflexivity. Qed.

Lemma add_vector_set k m x i :
  add_vector k m x i
  = map_set (VectorSearch.hash x)
      (entry_v k (map_get (VectorSearch.hash x) m) x i) m.
Proof.
  unfold add_vector, entry_v.
  destruct (map_get (VectorSearch.hash x) m); reflexivity.
Qed.

(** What a loop leaves under one hash. *)
Lemma get_foldi_set {A} (key : A -> jsstring)
  (entry : option ScoreEntry -> A -> Z -> ScoreEntry) (l : list A) :
  forall i m h,
    map_get h
      (foldi (fun m x i => map_set (key x) (entry (map_get (key x) m) x i) m)
         l i m)
    = foldi (fun o x i => if jseqb h (key x) then Some (entry o x i) else o)
        l i (map_get h m).
Proof.
  induction l as [|x l IH]; intros i m h; simpl; [reflexivity|].
  rewrite IH. f_equal.
  destruct (jseqb h (key x)) eqn:E.
  - apply jseqb_eq in E. subst h. apply map_get_set_same.
  - apply map_get_set_other, E.
Qed.

Lemma foldi_ext {A S} (f g : S -> A -> Z -> S) l :
  (forall s x i, f s x i = g s x i) ->
  forall i s, foldi f l i s = foldi g l i s.
Proof.
  intros H. induction l as [|x l IH]; intros i s; simpl; [reflexivity|].
  rewrite H. apply IH.
Qed.

Lemma keys_foldi_nodup {A} (f : ScoreMap -> A -> Z -> ScoreMap) l :
  (forall m x i, NoDup (map fst m) -> NoDup (map fst (f m x i))) ->
  forall i m, NoDup (map fst m) -> NoDup (map fst (foldi f l i m)).
Proof.
  intros H. induction l as [|x l IH]; intros i m Hm; simpl; auto.
Qed.

Lemma accumulate_keys_nodup b v k : NoDup (map fst (accumulate b v k)).
Proof.
  unfold accumulate.
  apply keys_foldi_nodup.
  - intros m x i Hm. rewrite add_vector_set. apply map_set_keys_nodup, Hm.
  - apply keys_foldi_nodup.
    + intros m x i Hm. rewrite add_bm25_set. apply map_set_keys_nodup, Hm.
    + constructor.
Qed.

Lemma map_get_accumulate h b v k :
  map_get h (accumulate b v k) = under h b v k.
Proof.
  unfold accumulate, under.
  rewrite (foldi_ext (add_vector k) _ v (add_vector_set k)).
  rewrite (get_foldi_set VectorSearch.hash (entry_v k)).
  f_equal.
  rewrite (foldi_ext (add_bm25 k) _ b (add_bm25_set k)).
  rewrite (get_foldi_set FtsSearch.hash (fun _ => entry_b k)).
  reflexivity.
Qed.


(** A loop over results with distinct hashes touches a hash at most once,
    at the position [rank_from] reports. *)
Lemma foldi_absent {A} (key : A -> jsstring)
  (entry : option ScoreEntry -> A -> Z -> ScoreEntry) h (l : list A) :
  ~ In h (map key l) ->
  forall i o,
    foldi (fun o x i => if jseqb h (key x) then Some (entry o x i) else o)
      l i o = o.
Proof.
  induction l as [|x l IH]; intros Hn i o; simpl; [reflexivity|].
  simpl in Hn.
  destruct (jseqb h (key x)) eqn:E.
  - apply jseqb_eq in E. exfalso. apply Hn. left. congruence.
  - apply IH. tauto.
Qed.

Lemma rank_from_none hashes h r :
  rank_from hashes h r = None <-> ~ In h hashes.
Proof.
  revert r. induction hashes as [|x l IH]; intros r; simpl; [tauto|].
  destruct (jseqb h x) eqn:E.
  - apply jseqb_eq in E. subst. split; [discriminate | tauto].
  - apply jseqb_neq in E. rewrite IH. split; [intros H [H'|H']|]; try tauto.
    congruence.
Qed.

Lemma foldi_once {A} (key : A -> jsstring)
  (entry : option ScoreEntry -> A -> Z -> ScoreEntry) h (l : list A) :
  NoDup (map key l) ->
  forall i o,
    match rank_from (map key l) h (i + 1) with
    | None =>
        foldi (fun o x i => if jseqb h (key x) then Some (entry o x i) else o)
          l i o = o
    | Some r =>
        exists x, In x l /\ key x = h
          /\ foldi (fun o x i =>
                      if jseqb h (key x) then Some (entry o x i) else o)
               l i o = Some (entry o x (r - 1))
    end.
Proof.
  induction l as [|x l IH]; intros Hnd i o; simpl; [reflexivity|].
  inversion Hnd as [|? ? Hnot Hnd']; subst.
  destruct (jseqb h (key x)) eqn:E.
  - apply jseqb_eq in E. subst h.
    exists x. split; [auto|]. split; [reflexivity|].
    rewrite foldi_absent by exact Hnot.
    do 2 f_equal. lia.
  - specialize (IH Hnd' (i + 1) o).
    destruct (rank_from (map key l) h (i + 1 + 1)) as [r|]; [|exact IH].
    destruct IH as (y & Hy & Hk & Hf). exists y. auto.
Qed.

(** The fused record of a hash when no list repeats a hash. *)
Lemma under_nodup h b v k :
  NoDup (bm25_hashes b) -> NoDup (vector_hashes v) ->
  match rank_in (bm25_hashes b) h, rank_in (vector_hashes v) h with
  | None, None => under h b v k = None
  | rb, rv =>
      exists e, under h b v k = Some e
        /\ e_hash e = h
        /\ (e_rrfScore e == contribution k rb + contribution k rv)%Q
        /\ e_bm25Rank e = rb /\ e_vectorRank e = rv
  end.
Proof.
  intros Hb Hv. unfold under, rank_in.
  pose proof (foldi_once FtsSearch.hash (fun _ => entry_b k) h b Hb 0 None)
    as Pb.
  unfold bm25_hashes, vector_hashes in *. simpl in Pb.
  set (ob := foldi _ b 0 None) in *.
  pose proof (foldi_once VectorSearch.hash (entry_v k) h v Hv 0 ob) as Pv.
  simpl in Pv.
  destruct (rank_from (map FtsSearch.hash b) h 1) as [rb|].
  - destruct Pb as (x & _ & Hx & ->).
    destruct (rank_from (map VectorSearch.hash v) h 1) as [rv|].
    + destruct Pv as (y & _ & Hy & ->).
      eexists. split; [reflexivity|]. simpl.
      replace (rb - 1 + 1) with rb by lia.
      replace (rv - 1 + 1) with rv by lia.
      repeat split; auto; unfold rrfContribution; try reflexivity; try ring.
    + rewrite Pv. eexists. split; [reflexivity|]. simpl.
      replace (rb - 1 + 1) with rb by lia.
      repeat split; auto; unfold rrfContribution; try reflexivity; try ring.
  - rewrite Pb in *.
    destruct (rank_from (map VectorSearch.hash v) h 1) as [rv|].
    + destruct Pv as (y & _ & Hy & ->).
      eexists. split; [reflexivity|]. simpl.
      replace (rv - 1 + 1) with rv by lia.
      repeat split; auto; unfold rrfContribution; try reflexivity; try ring.
    + exact Pv.
Qed.


(** ** Sorting *)

Lemma insert_desc_in x l y : In y (insert_desc x l) <-> y = x \/ In y l.
Proof.
  induction l as [|z l IH]; simpl; [intuition congruence|].
  destruct (Qle_bool (e_rrfScore z) (e_rrfScore x)); simpl.
  - intuition congruence.
  - rewrite IH. intuition congruence.
Qed.

Lemma sort_desc_in l y : In y (sort_desc l) <-> In y l.
Proof.
  induction l as [|x l IH]; simpl; [tauto|].
  rewrite insert_desc_in, IH. intuition congruence.
Qed.

Lemma insert_desc_sorted x l :
  StronglySorted ge_score l -> StronglySorted ge_score (insert_desc x l).
Proof.
  induction l as [|y l IH]; intros Hs; simpl.
  - repeat constructor.
  - inversion Hs as [|? ? Hs' Hall]; subst.
    destruct (Qle_bool (e_rrfScore y) (e_rrfScore x)) eqn:E.
    + apply Qle_bool_iff in E.
      constructor; [exact Hs|]. constructor; [exact E|].
      rewrite Forall_forall in *. intros z Hz. unfold ge_score in *.
      apply Qle_trans with (e_rrfScore y); auto.
    + assert (Hlt : (e_rrfScore x < e_rrfScore y)%Q).
      { apply Qnot_le_lt. intros H. apply Qle_bool_iff in H. congruence. }
      constructor; [apply IH, Hs'|].
      rewrite Forall_forall in *. intros z Hz.
      apply insert_desc_in in Hz. destruct Hz as [->|Hz]; [|auto].
      unfold ge_score. apply Qlt_le_weak, Hlt.
Qed.

Lemma sort_desc_sorted l : StronglySorted ge_score (sort_desc l).
Proof.
  induction l as [|x l IH]; simpl; [constructor|].
  apply insert_desc_sorted, IH.
Qed.

Lemma sorted_head_max x l :
  StronglySorted ge_score (x :: l) ->
  forall y, In y (x :: l) -> (e_rrfScore y <= e_rrfScore x)%Q.
Proof.
  intros Hs y [<-|Hy]; [apply Qle_refl|].
  inversion Hs as [|? ? _ Hall]; subst.
  rewrite Forall_forall in Hall. apply Hall, Hy.
Qed.

Lemma last_cons {A} (l : list A) : forall x d, last (x :: l) d = last l x.
Proof.
  induction l as [|y l IH]; intros x d; [reflexivity|].
  transitivity (last (y :: l) d); [reflexivity|].
  rewrite !IH. reflexivity.
Qed.

Lemma last_in {A} (l : list A) : forall x, In (last l x) (x :: l).
Proof.
  induction l as [|y l IH]; intros x; [left; reflexivity|].
  right. rewrite (last_cons l y x). apply IH.
Qed.

Lemma sorted_last_min l : forall x,
  StronglySorted ge_score (x :: l) ->
  forall y, In y (x :: l) -> (e_rrfScore (last l x) <= e_rrfScore y)%Q.
Proof.
  induction l as [|z l IH]; intros x Hs y Hy.
  - destruct Hy as [<-|[]]. apply Qle_refl.
  - inversion Hs as [|? ? Hs' Hall]; subst.
    destruct Hy as [<-|Hy].
    + rewrite Forall_forall in Hall. apply (Hall (last (z :: l) x)).
      rewrite last_cons. apply last_in.
    + rewrite last_cons. apply IH; assumption.
Qed.

Lemma hd_rev_last {A} (l : list A) d : hd d (rev l) = last l d.
Proof.
  induction l as [|a l _] using rev_ind; [reflexivity|].
  rewrite rev_app_distr, last_last. reflexivity.
Qed.

(** ** [map] with an index *)

Lemma mapi_in {A B} (f : A -> Z -> B) l :
  forall i r, In r (mapi f l i) -> exists e j, In e l /\ r = f e j.
Proof.
  induction l as [|x l IH]; intros i r; simpl; [tauto|].
  intros [<-|H].
  - exists x, i. auto.
  - destruct (IH _ _ H) as (e & j & He & ->). exists e, j. auto.
Qed.

Lemma in_mapi {A B} (f : A -> Z -> B) l :
  forall i e, In e l -> exists j, In (f e j) (mapi f l i).
Proof.
  induction l as [|x l IH]; intros i e; simpl; [tauto|].
  intros [<-|H].
  - exists i. auto.
  - destruct (IH (i + 1) _ H) as (j & Hj). exists j. auto.
Qed.

Lemma mapi_sorted {A B} (R : A -> A -> Prop) (R' : B -> B -> Prop)
  (f : A -> Z -> B) :
  (forall a b i j, R a b -> R' (f a i) (f b j)) ->
  forall l i, StronglySorted R l -> StronglySorted R' (mapi f l i).
Proof.
  intros H. induction l as [|x l IH]; intros i Hs; simpl; [constructor|].
  inversion Hs as [|? ? Hs' Hall]; subst.
  constructor; [apply IH, Hs'|].
  rewrite Forall_forall in *. intros r Hr.
  destruct (mapi_in _ _ _ _ Hr) as (e & j & He & ->). auto.
Qed.

Lemma mapi_last {A B} (f : A -> Z -> B) l :
  forall i x j0, exists j, last (mapi f l i) (f x j0) = f (last l x) j.
Proof.
  induction l as [|y l IH]; intros i x j0; simpl mapi.
  - exists j0. reflexivity.
  - destruct (IH (i + 1) y i) as (j & Hj).
    exists j. rewrite !last_cons. exact Hj.
Qed.

(** ** Scores are positive *)

Lemma values_map_set (P : ScoreEntry -> Prop) key value m :
  P value -> Forall P (map_values m) ->
  Forall P (map_values (map_set key value m)).
Proof.
  intros Hv. induction m as [|[k v] m IH]; simpl; intros H.
  - repeat constructor. exact Hv.
  - inversion H; subst. destruct (jseqb key k); simpl; constructor; auto.
Qed.

Lemma values_map_get (P : ScoreEntry -> Prop) key m e :
  Forall P (map_values m) -> map_get key m = Some e -> P e.
Proof.
  intros H G. apply map_get_in in G. rewrite Forall_forall in H. auto.
Qed.

Lemma values_foldi {A} (P : ScoreEntry -> Prop)
  (f : ScoreMap -> A -> Z -> ScoreMap) l :
  (forall m x i, 0 <= i -> Forall P (map_values m) ->
                 Forall P (map_values (f m x i))) ->
  forall i m, 0 <= i -> Forall P (map_values m) ->
              Forall P (map_values (foldi f l i m)).
Proof.
  intros H. induction l as [|x l IH]; intros i m Hi Hm; simpl; [exact Hm|].
  apply IH; [lia|]. apply H; assumption.
Qed.

Lemma rrfContribution_pos k i :
  (0 < k)%Q -> 0 <= i -> (0 < rrfContribution k (i + 1))%Q.
Proof.
  intros Hk Hi. unfold rrfContribution.
  assert (H : (0 < k + inject_Z (i + 1))%Q).
  { assert ((0 <= inject_Z (i + 1))%Q).
    { change 0%Q with (inject_Z 0). rewrite <- Zle_Qle. lia. }
    lra. }
  apply Qlt_shift_div_l; [exact H | lra].
Qed.

Lemma accumulate_positive b v k :
  (0 < k)%Q ->
  Forall (fun e => (0 < e_rrfScore e)%Q) (map_values (accumulate b v k)).
Proof.
  intros Hk. unfold accumulate.
  apply values_foldi; [| lia |].
  - intros m x i Hi Hm. rewrite add_vector_set.
    apply values_map_set; [|exact Hm].
    pose proof (rrfContribution_pos k i Hk Hi) as Hc.
    destruct (map_get (VectorSearch.hash x) m) as [ex|] eqn:G; simpl.
    + pose proof (values_map_get _ _ _ _ Hm G) as Hex. simpl in Hex. lra.
    + exact Hc.
  - apply values_foldi; [| lia | constructor].
    intros m x i Hi Hm. rewrite add_bm25_set.
    apply values_map_set; [|exact Hm].
    simpl. apply rrfContribution_pos; assumption.
Qed.


(** ** The result of [rrfFusion] *)

Lemma rrfFusion_finish b v k :
  rrfFusion b v k
  = mapi (finish (min_of (fused_of b v k))
            (or_default (max_of (fused_of b v k) - min_of (fused_of b v k))%Q
               1))
      (fused_of b v k) 0.
Proof. reflexivity. Qed.

Lemma rrfFusion_in b v k r :
  In r (rrfFusion b v k) ->
  exists e, In e (map_values (accumulate b v k))
    /\ hash r = e_hash e /\ rrfScore r = e_rrfScore e
    /\ bm25Rank r = e_bm25Rank e /\ vectorRank r = e_vectorRank e
    /\ bm25Score r = e_bm25Score e /\ similarity r = e_similarity e.
Proof.
  rewrite rrfFusion_finish. intros H.
  destruct (mapi_in _ _ _ _ H) as (e & j & He & ->).
  exists e. apply (proj1 (sort_desc_in _ _)) in He. simpl. repeat split; auto.
Qed.

Lemma in_rrfFusion b v k e :
  In e (map_values (accumulate b v k)) ->
  exists r, In r (rrfFusion b v k) /\ hash r = e_hash e.
Proof.
  intros He. rewrite rrfFusion_finish.
  apply (proj2 (sort_desc_in _ _)) in He.
  destruct (in_mapi (finish (min_of (fused_of b v k))
            (or_default (max_of (fused_of b v k) - min_of (fused_of b v k))%Q
               1)) _ 0 e He) as (j & Hj).
  eexists. split; [exact Hj | reflexivity].
Qed.

Lemma rrfFusion_sorted b v k : StronglySorted by_score_desc (rrfFusion b v k).
Proof.
  rewrite rrfFusion_finish.
  apply (mapi_sorted ge_score); [auto | apply sort_desc_sorted].
Qed.

Lemma value_under b v k e :
  In e (map_values (accumulate b v k)) ->
  exists key, under key b v k = Some e.
Proof.
  intros He. apply in_map_iff in He. destruct He as ([key e'] & <- & Hin).
  exists key. rewrite <- map_get_accumulate.
  apply map_get_of_in; [apply accumulate_keys_nodup | exact Hin].
Qed.

Lemma rrfFusion_score_nodup b v k r :
  NoDup (bm25_hashes b) -> NoDup (vector_hashes v) ->
  In r (rrfFusion b v k) ->
  (rrfScore r == contribution k (rank_in (bm25_hashes b) (hash r))
                 + contribution k (rank_in (vector_hashes v) (hash r)))%Q
  /\ bm25Rank r = rank_in (bm25_hashes b) (hash r)
  /\ vectorRank r = rank_in (vector_hashes v) (hash r).
Proof.
  intros Hb Hv Hr.
  destruct (rrfFusion_in _ _ _ _ Hr) as (e & He & -> & -> & -> & -> & _).
  destruct (value_under _ _ _ _ He) as (key & Hu).
  pose proof (under_nodup key b v k Hb Hv) as P.
  destruct (rank_in (bm25_hashes b) key) as [rb|] eqn:Eb;
    destruct (rank_in (vector_hashes v) key) as [rv|] eqn:Ev;
    try (destruct P as (e' & He' & Hh & Hs & Hrb & Hrv);
         rewrite Hu in He'; injection He' as <-; subst key;
         rewrite Eb, Ev; auto).
  congruence.
Qed.

(** The scores where no list names a document twice: for every positive
    [k] and every pair of candidate lists
    in which no document hash occurs twice within a list, each fused result
    has [rrfScore] equal to the sum of [1 / (k + rank)] over the lists its
    document appears in, [rank] being its 1-based position there (recorded
    as [bm25Rank] and [vectorRank]); every document of either list gets a
    fused result; the results are in descending order of [rrfScore]; and a
    document third in both lists scores strictly higher than one that is
    third in one list and absent from the other. *)
Theorem rrfFusion_scores (b : list FtsSearch.SearchResult)
  (v : list VectorSearch.VectorSearchResult) (k : Q) :
  (0 < k)%Q -> NoDup (bm25_hashes b) -> NoDup (vector_hashes v) ->
  (forall r, In r (rrfFusion b v k) ->
     (rrfScore r == contribution k (rank_in (bm25_hashes b) (hash r))
                    + contribution k (rank_in (vector_hashes v) (hash r)))%Q
     /\ bm25Rank r = rank_in (bm25_hashes b) (hash r)
     /\ vectorRank r = rank_in (vector_hashes v) (hash r))
  /\ (forall h, In h (bm25_hashes b) \/ In h (vector_hashes v) ->
       exists r, In r (rrfFusion b v k) /\ hash r = h)
  /\ StronglySorted by_score_desc (rrfFusion b v k)
  /\ (forall b' v' r1 r2,
        NoDup (bm25_hashes b') -> NoDup (vector_hashes v') ->
        In r1 (rrfFusion b v k) -> In r2 (rrfFusion b' v' k) ->
        rank3_in_both r1 -> rank3_in_one r2 ->
        (rrfScore r2 < rrfScore r1)%Q).
Proof.
  intros Hk Hb Hv. split; [|split; [|split]].
  - intros r Hr. apply rrfFusion_score_nodup; assumption.
  - intros h Hh.
    pose proof (under_nodup h b v k Hb Hv) as P.
    assert (Hsome : exists e, under h b v k = Some e /\ e_hash e = h).
    { destruct (rank_in (bm25_hashes b) h) eqn:Eb;
        destruct (rank_in (vector_hashes v) h) eqn:Ev;
        try (destruct P as (e & He & Hh' & _); exists e; auto).
      exfalso. apply rank_from_none in Eb, Ev. tauto. }
    destruct Hsome as (e & He & <-).
    apply in_rrfFusion. rewrite <- map_get_accumulate in He.
    eapply map_get_in, He.
  - apply rrfFusion_sorted.
  - intros b' v' r1 r2 Hb' Hv' H1 H2 [B1 V1] H3.
    destruct (rrfFusion_score_nodup b v k r1 Hb Hv H1) as (S1 & R1 & R1').
    destruct (rrfFusion_score_nodup b' v' k r2 Hb' Hv' H2) as (S2 & R2 & R2').
    rewrite S1, S2, <- R1, <- R1', <- R2, <- R2', B1, V1.
    assert (Hc : (0 < 1 / (k + inject_Z 3))%Q).
    { apply (rrfContribution_pos k 2 Hk). lia. }
    destruct H3 as [[-> ->]|[-> ->]]; simpl; lra.
Qed.


(** ** Normalisation *)

Lemma or_default_pos x d : (0 < x)%Q -> or_default x d = x.
Proof.
  intros H. unfold or_default.
  destruct (Qeq_bool x 0) eqn:E; [|reflexivity].
  apply Qeq_bool_iff in E. lra.
Qed.

Lemma rev_cons_last {A} (x : A) l : exists t, rev (x :: l) = last l x :: t.
Proof.
  pose proof (hd_rev_last (x :: l) x) as H. rewrite last_cons in H.
  destruct (rev (x :: l)) as [|y t] eqn:E.
  - apply (f_equal (@List.length A)) in E. rewrite length_rev in E.
    discriminate.
  - simpl in H. subst y. exists t. reflexivity.
Qed.

Lemma fused_positive b v k e :
  (0 < k)%Q -> In e (fused_of b v k) -> (0 < e_rrfScore e)%Q.
Proof.
  intros Hk He. apply (proj1 (sort_desc_in _ _)) in He.
  pose proof (accumulate_positive b v k Hk) as H.
  rewrite Forall_forall in H. auto.
Qed.

(** C2: for positive [k] and a non-empty result of [rrfFusion] with first
    (best) and last (worst) results: when their raw scores differ the best
    has [normalizedScore] 100 and the worst 0; when they are equal, which
    happens exactly when all raw scores are equal (a single result
    included), every [normalizedScore] is 0. *)
Theorem rrfFusion_normalization (b : list FtsSearch.SearchResult)
  (v : list VectorSearch.VectorSearchResult) (k : Q)
  (best : HybridSearchResult) (rest : list HybridSearchResult) :
  (0 < k)%Q ->
  rrfFusion b v k = best :: rest ->
  let worst := last rest best in
  ((rrfScore worst < rrfScore best)%Q ->
   (normalizedScore best == 100)%Q /\ (normalizedScore worst == 0)%Q)
  /\ ((rrfScore worst == rrfScore best)%Q ->
      forall r, In r (best :: rest) -> (normalizedScore r == 0)%Q)
  /\ ((rrfScore worst == rrfScore best)%Q <->
      forall r r', In r (best :: rest) -> In r' (best :: rest) ->
                   (rrfScore r == rrfScore r')%Q).
Proof.
  intros Hk Hout worst.
  pose proof (rrfFusion_sorted b v k) as Hsorted.
  rewrite rrfFusion_finish in Hout.
  pose proof (sort_desc_sorted (map_values (accumulate b v k))) as Hs.
  pose proof (fused_positive b v k) as Hpos.
  fold (fused_of b v k) in Hs.
  destruct (fused_of b v k) as [|x frest] eqn:Ef; [discriminate|].
  set (mn := min_of (x :: frest)) in *.
  set (mx := max_of (x :: frest)) in *.
  assert (Emx : mx = e_rrfScore x).
  { unfold mx, max_of. apply or_default_pos, Hpos; [exact Hk | left; reflexivity]. }
  assert (Emn : mn = e_rrfScore (last frest x)).
  { unfold mn, min_of. destruct (rev_cons_last x frest) as (t' & ->).
    apply or_default_pos, Hpos; [exact Hk | apply last_in]. }
  simpl mapi in Hout. injection Hout as Hbest Hrest.
  assert (Hworst : exists j, worst = finish mn (or_default (mx - mn) 1)
                                       (last frest x) j).
  { unfold worst. rewrite <- Hbest, <- Hrest. apply mapi_last. }
  destruct Hworst as (j & Hworst).
  assert (Sb : rrfScore best = mx) by (rewrite <- Hbest, Emx; reflexivity).
  assert (Sw : rrfScore worst = mn) by (rewrite Hworst, Emn; reflexivity).
  assert (Hbetween : forall r, In r (best :: rest) ->
            exists e i, r = finish mn (or_default (mx - mn) 1) e i
                        /\ (mn <= e_rrfScore e <= mx)%Q).
  { intros r Hr.
    assert (Hr' : In r (mapi (finish mn (or_default (mx - mn) 1))
                          (x :: frest) 0)).
    { simpl mapi. rewrite Hbest, Hrest. exact Hr. }
    destruct (mapi_in _ _ _ _ Hr') as (e & i & He & ->).
    exists e, i. split; [reflexivity|]. rewrite Emn, Emx. split.
    - apply sorted_last_min; assumption.
    - apply (sorted_head_max x frest); assumption. }
  rewrite Sb, Sw. split; [|split].
  - intros Hlt.
    assert (Er : or_default (mx - mn) 1 = (mx - mn)%Q).
    { apply or_default_pos. lra. }
    split.
    + rewrite <- Hbest. simpl. rewrite Er, <- Emx. field. lra.
    + rewrite Hworst. simpl. rewrite Er, <- Emn. field. lra.
  - intros Heq r Hr.
    destruct (Hbetween r Hr) as (e & i & -> & Hlo & Hhi). simpl.
    assert (Er : or_default (mx - mn) 1 = 1%Q).
    { unfold or_default.
      destruct (Qeq_bool (mx - mn) 0) eqn:E; [reflexivity|].
      exfalso. apply Qeq_bool_neq in E. apply E. lra. }
    rewrite Er.
    assert (H0 : (e_rrfScore e - mn == 0)%Q) by lra.
    rewrite H0. reflexivity.
  - split.
    + intros Heq r r' Hr Hr'.
      destruct (Hbetween r Hr) as (e & i & -> & Hlo & Hhi).
      destruct (Hbetween r' Hr') as (e' & i' & -> & Hlo' & Hhi').
      simpl. lra.
    + intros Hall. rewrite <- Sb, <- Sw. apply Hall.
      * unfold worst. apply last_in.
      * left; reflexivity.
Qed.


(** ** Fallback *)

Lemma in_firstn {A} (x : A) n l : In x (firstn n l) -> In x l.
Proof.
  revert l. induction n as [|n IH]; intros [|y l]; simpl; try tauto.
  intros [H|H]; auto.
Qed.

Lemma in_filtered_and_limited options results r :
  In r (filtered_and_limited options results) -> In r results.
Proof.
  unfold filtered_and_limited, slice0. intros H.
  destruct (limit_of options <? 0); apply in_firstn in H;
    destruct (minScore options); try exact H;
    apply filter_In in H; tauto.
Qed.

Lemma filtered_and_limited_nil options : filtered_and_limited options [] = [].
Proof.
  unfold filtered_and_limited, slice0.
  destruct (minScore options); simpl; destruct (_ <? _); apply firstn_nil.
Qed.

Lemma rrfFusion_vector_only v k r :
  In r (rrfFusion [] v k) -> vector_only r.
Proof.
  intros Hr. unfold vector_only.
  destruct (rrfFusion_in _ _ _ _ Hr) as (e & He & _ & _ & E1 & E2 & E3 & E4).
  rewrite E1, E2, E3, E4. clear E1 E2 E3 E4.
  revert e He. apply Forall_forall.
  unfold accumulate. simpl foldi at 2.
  apply values_foldi; [| lia | constructor].
  intros m x i _ Hm. rewrite add_vector_set.
  apply values_map_set; [|exact Hm].
  destruct (map_get (VectorSearch.hash x) m) as [ex|] eqn:G; simpl.
  - destruct (values_map_get _ _ _ _ Hm G) as (A1 & A2 & _).
    repeat split; auto; discriminate.
  - repeat split; auto; discriminate.
Qed.

Lemma rrfFusion_lexical_only b k r :
  In r (rrfFusion b [] k) -> lexical_only r.
Proof.
  intros Hr. unfold lexical_only.
  destruct (rrfFusion_in _ _ _ _ Hr) as (e & He & _ & _ & E1 & E2 & E3 & E4).
  rewrite E1, E2, E3, E4. clear E1 E2 E3 E4.
  revert e He. apply Forall_forall.
  unfold accumulate. simpl foldi at 1.
  apply values_foldi; [| lia | constructor].
  intros m x i _ Hm. rewrite add_bm25_set.
  apply values_map_set; [|exact Hm].
  simpl. repeat split; auto; discriminate.
Qed.

Lemma fuse_and_filter_graceful options bm25Results vectorResults :
  fuse_and_filter graceful options bm25Results vectorResults
  = Returned
      (filtered_and_limited options
         (rrfFusion (or_empty bm25Results) (or_empty vectorResults)
            (rrfK_of options))).
Proof.
  unfold fuse_and_filter.
  destruct (negb (has_results bm25Results) && negb (has_results vectorResults))
    eqn:E; [|reflexivity].
  simpl. apply andb_true_iff in E. destruct E as [E1 E2].
  assert (or_empty bm25Results = []) as ->.
  { destruct bm25Results as [[|]|]; try reflexivity; discriminate. }
  assert (or_empty vectorResults = []) as ->.
  { destruct vectorResults as [[|]|]; try reflexivity; discriminate. }
  change (rrfFusion [] [] (rrfK_of options)) with (@nil HybridSearchResult).
  rewrite filtered_and_limited_nil. reflexivity.
Qed.

(** ** Repeated hashes *)

Lemma foldi_bm25_last k h b : forall i o,
  hash_is h o ->
  let res := foldi (fun o x i => if jseqb h (FtsSearch.hash x)
                                 then Some (entry_b k x i) else o) b i o in
  hash_is h res
  /\ match last_rank_from (bm25_hashes b) h (i + 1) with
     | Some r => (score_of res == contribution k (Some r))%Q
     | None => res = o
     end.
Proof.
  induction b as [|x b IH]; intros i o Ho; simpl; [auto|].
  set (o' := if jseqb h (FtsSearch.hash x) then Some (entry_b k x i) else o).
  assert (Ho' : hash_is h o').
  { unfold o'. destruct (jseqb h (FtsSearch.hash x)) eqn:E; [|exact Ho].
    apply jseqb_eq in E. simpl. auto. }
  destruct (IH (i + 1) o' Ho') as [H1 H2]. split; [exact H1|].
  fold (bm25_hashes b).
  destruct (last_rank_from (bm25_hashes b) h (i + 1 + 1)); [exact H2|].
  rewrite H2. unfold o'.
  destruct (jseqb h (FtsSearch.hash x)); reflexivity.
Qed.

Lemma foldi_vector_sum k h v : forall i o,
  hash_is h o ->
  let res := foldi (fun o x i => if jseqb h (VectorSearch.hash x)
                                 then Some (entry_v k o x i) else o) v i o in
  hash_is h res
  /\ (score_of res == score_of o + contributions_from k (vector_hashes v) h (i + 1))%Q.
Proof.
  induction v as [|x v IH]; intros i o Ho; simpl.
  - split; [exact Ho | ring].
  - set (o' := if jseqb h (VectorSearch.hash x)
               then Some (entry_v k o x i) else o).
    assert (Ho' : hash_is h o'
                  /\ (score_of o' == score_of o
                       + (if jseqb h (VectorSearch.hash x)
                          then 1 / (k + inject_Z (i + 1)) else 0))%Q).
    { unfold o'. destruct (jseqb h (VectorSearch.hash x)) eqn:E.
      - apply jseqb_eq in E.
        destruct o as [ex|]; simpl in *; split; auto;
          unfold rrfContribution; ring.
      - split; [exact Ho | ring]. }
    destruct Ho' as [Ho' Hs].
    destruct (IH (i + 1) o' Ho') as [H1 H2]. split; [exact H1|].
    fold (vector_hashes v). rewrite H2, Hs. ring.
Qed.

(** X2: the score with repeated hashes is [1 / (k + rank)] for the last
    lexical position of the hash, and for every vector position of it. *)
Theorem rrfFusion_score_general (b : list FtsSearch.SearchResult)
  (v : list VectorSearch.VectorSearchResult) (k : Q)
  (r : HybridSearchResult) :
  In r (rrfFusion b v k) ->
  (rrfScore r
   == contribution k (last_rank_from (bm25_hashes b) (hash r) 1)
      + contributions_from k (vector_hashes v) (hash r) 1)%Q.
Proof.
  intros Hr.
  destruct (rrfFusion_in _ _ _ _ Hr) as (e & He & -> & -> & _).
  destruct (value_under _ _ _ _ He) as (key & Hu).
  unfold under in Hu.
  destruct (foldi_bm25_last k key b 0 None I) as [B1 B2].
  simpl in B1, B2.
  set (ob := foldi _ b 0 None) in *.
  destruct (foldi_vector_sum k key v 0 ob B1) as [V1 V2].
  simpl in V1, V2. rewrite Hu in V1, V2. simpl in V1, V2.
  subst key. rewrite V2.
  destruct (last_rank_from (bm25_hashes b) (e_hash e) 1).
  - rewrite B2. reflexivity.
  - rewrite B2. reflexivity.
Qed.


Lemma rrfFusion_score_general_witness :
  exists r,
    In r (rrfFusion [] two_chunks_of_a 60)
    /\ (rrfScore r
        == contribution 60 (last_rank_from [] (hash r) 1)
           + contributions_from 60 (vector_hashes two_chunks_of_a)
               (hash r) 1)%Q.
Proof.
  eexists. split.
  - vm_compute. left. reflexivity.
  - apply (rrfFusion_score_general [] two_chunks_of_a 60).
    vm_compute. left. reflexivity.
Defined.

(** X3: results are in descending order of [rrfScore], whatever the lists
    and [k]. *)
Theorem fused_results_sorted (b : list FtsSearch.SearchResult)
  (v : list VectorSearch.VectorSearchResult) (k : Q) :
  StronglySorted by_score_desc (rrfFusion b v k).
Proof. apply rrfFusion_sorted. Qed.

(** ** The theorems at concrete inputs *)

Lemma demo_bm25_nodup : NoDup (bm25_hashes demo_bm25).
Proof.
  repeat constructor; simpl; intuition discriminate.
Defined.

Lemma demo_vector_nodup : NoDup (vector_hashes demo_vector).
Proof.
  repeat constructor; simpl; intuition discriminate.
Defined.

Lemma rrfFusion_scores_witness :
  (exists r, In r (rrfFusion demo_bm25 demo_vector 60) /\ hash r = js "c")
  /\ StronglySorted by_score_desc (rrfFusion demo_bm25 demo_vector 60).
Proof.
  destruct (rrfFusion_scores demo_bm25 demo_vector 60 eq_refl
              demo_bm25_nodup demo_vector_nodup) as (_ & H2 & H3 & _).
  split; [|exact H3].
  apply H2. right. simpl. auto.
Defined.

Lemma rrfFusion_normalization_witness :
  exists best rest,
    rrfFusion demo_bm25 demo_vector 60 = best :: rest
    /\ (normalizedScore best == 100)%Q
    /\ (normalizedScore (last rest best) == 0)%Q.
Proof.
  eexists. eexists. split; [vm_compute; reflexivity|].
  refine (proj1 (rrfFusion_normalization demo_bm25 demo_vector 60 _ _
                   eq_refl _) _).
  - vm_compute. reflexivity.
  - vm_compute. reflexivity.
Defined.

(** X4: invalid options are rejected whatever the searchers would do, and
    without a call to the embedding service. *)
Theorem invalid_options_rejected (s : HybridSearcher) (first : Branch)
  (query : jsstring) (options : HybridSearchOptions) :
  (enableBM25_of options = false /\ enableVector_of options = false)
  \/ (rrfK_of options <= 0)%Q ->
  exists m,
    search s first query options
    = (Threw (HybridSearchError m INVALID_OPTIONS), []).
Proof.
  intros H. unfold search.
  destruct (negb (enableBM25_of options) && negb (enableVector_of options))
    eqn:E; [eexists; reflexivity|].
  destruct H as [[H1 H2]|H].
  - rewrite H1, H2 in E. discriminate.
  - apply Qle_bool_iff in H. rewrite H. eexists. reflexivity.
Qed.

Lemma invalid_options_rejected_witness :
  exists m,
    search lexical_down BM25 (js "cats")
      (mkHybridSearchOptions None None None None None (Some false)
         (Some false))
    = (Threw (HybridSearchError m INVALID_OPTIONS), []).
Proof.
  apply invalid_options_rejected. left. split; reflexivity.
Defined.

End Fusion.

(* ================================================================== *)
(** * Lists with an index *)
(* ================================================================== *)

Section IndexedLists.
Import Exn.

Lemma mapi_length {A B} (f : A -> Z -> B) l : forall i,
  List.length (mapi f l i) = List.length l.
Proof.
  induction l as [|x l IH]; intros i; simpl; [reflexivity|].
  rewrite IH. reflexivity.
Qed.

Lemma mapi_ranked {A B} (rank : B -> Z) (f : A -> Z -> B) l :
  (forall x i, rank (f x i) = i + 1) ->
  forall i,
    map rank (mapi f l i)
    = map (fun n => i + Z.of_nat n) (List.seq 1 (List.length l)).
Proof.
  intros Hf. induction l as [|x l IH]; intros i; simpl; [reflexivity|].
  rewrite IH, Hf. f_equal.
  rewrite <- (seq_shift (List.length l) 1), map_map.
  apply map_ext. intros n. lia.
Qed.

End IndexedLists.

(* ================================================================== *)
(** * Strings: [trim] and [split] *)
(* ================================================================== *)

Section StringFacts.
Import JsString MoreProps.

Lemma dropWhile_suffix (p : N -> bool) (s : jsstring) :
  exists pre, s = pre ++ dropWhile p s /\ forallb p pre = true.
Proof.
  induction s as [|c s IH]; simpl.
  - exists []. auto.
  - destruct (p c) eqn:E.
    + destruct IH as (pre & H1 & H2). exists (c :: pre). simpl.
      rewrite E, H2. split; [congruence | reflexivity].
    + exists []. auto.
Qed.

Lemma no_lead_dropWhile (s : jsstring) : no_lead (dropWhile is_s s).
Proof.
  induction s as [|c s IH]; simpl; [exact I|].
  destruct (is_s c) eqn:E; [exact IH | exact E].
Qed.

Lemma dropWhile_id (s : jsstring) : no_lead s -> dropWhile is_s s = s.
Proof.
  destruct s as [|c s]; simpl; [reflexivity|]. intros ->. reflexivity.
Qed.

Lemma forallb_rev {A} (p : A -> bool) (l : list A) :
  forallb p (rev l) = forallb p l.
Proof.
  induction l as [|x l IH]; simpl; [reflexivity|].
  rewrite forallb_app, IH. simpl. rewrite andb_true_r. apply andb_comm.
Qed.

Lemma no_lead_blank (s : jsstring) :
  no_lead s -> forallb is_s s = true -> s = [].
Proof.
  destruct s as [|c s]; simpl; [reflexivity|].
  intros ->. discriminate.
Qed.

Lemma dropWhile_nil_iff (s : jsstring) :
  dropWhile is_s s = [] <-> forallb is_s s = true.
Proof.
  induction s as [|c s IH]; simpl; [tauto|].
  destruct (is_s c); simpl; [exact IH | split; discriminate].
Qed.

Lemma rev_nil_iff {A} (l : list A) : rev l = [] <-> l = [].
Proof.
  split; [|intros ->; reflexivity].
  intros H. apply (f_equal (@rev A)) in H. rewrite rev_involutive in H.
  exact H.
Qed.

(** [trim] gives the empty string exactly for white space only. *)
Lemma trim_nil_iff (s : jsstring) : trim s = [] <-> forallb is_s s = true.
Proof.
  unfold trim. split.
  - intros H. apply (proj1 (rev_nil_iff _)) in H.
    apply (proj1 (dropWhile_nil_iff _)) in H. rewrite forallb_rev in H.
    apply dropWhile_nil_iff.
    apply no_lead_blank; [apply no_lead_dropWhile | exact H].
  - intros H. apply (proj2 (dropWhile_nil_iff _)) in H. rewrite H.
    reflexivity.
Qed.

Lemma trim_trimmed (s : jsstring) : trimmed (trim s).
Proof.
  unfold trimmed, trim. rewrite rev_involutive.
  split; [|apply no_lead_dropWhile].
  pose proof (no_lead_dropWhile s) as Ha.
  set (a := dropWhile is_s s) in *.
  destruct (dropWhile_suffix is_s (rev a)) as (pre & Hpre & _).
  set (b := dropWhile is_s (rev a)) in *.
  assert (E : a = rev b ++ rev pre).
  { rewrite <- rev_app_distr, <- Hpre, rev_involutive. reflexivity. }
  destruct (rev b) as [|c r]; [exact I|].
  rewrite E in Ha. exact Ha.
Qed.

Lemma trim_id (s : jsstring) : trimmed s -> trim s = s.
Proof.
  intros [H1 H2]. unfold trim.
  rewrite (dropWhile_id s H1), (dropWhile_id (rev s) H2).
  apply rev_involutive.
Qed.

Lemma trim_idem (s : jsstring) : trim (trim s) = trim s.
Proof. apply trim_id, trim_trimmed. Qed.

Lemma nonempty_true (s : jsstring) : nonempty s = true <-> s <> [].
Proof. destruct s; simpl; split; congruence. Qed.

Lemma blank_app (a b : jsstring) :
  forallb is_s (a ++ b) = true ->
  forallb is_s a = true /\ forallb is_s b = true.
Proof. rewrite forallb_app. apply andb_true_iff. Qed.

(** ** [split] with a capture group keeps every character *)

Lemma split_from_keep_concat (m : matcher) (s : jsstring) :
  forall prev cur skip,
    List.concat (split_from m true prev cur skip s) = rev cur ++ skipn skip s.
Proof.
  induction s as [|c s IH]; intros prev cur skip; simpl.
  - destruct skip; simpl; rewrite app_nil_r; reflexivity.
  - destruct skip as [|k]; [|apply IH].
    destruct (m prev (c :: s)) as [[|k]|]; simpl.
    + rewrite IH. simpl. rewrite <- app_assoc. reflexivity.
    + rewrite IH. simpl. rewrite firstn_skipn. reflexivity.
    + rewrite IH. simpl. rewrite <- app_assoc. reflexivity.
Qed.

Lemma span_fst_all (p : N -> bool) (s : jsstring) :
  forallb p (fst (span p s)) = true.
Proof.
  induction s as [|c s IH]; simpl; [reflexivity|].
  destruct (p c) eqn:E; [|reflexivity].
  destruct (span p s) as [a b]. simpl in *. rewrite E, IH. reflexivity.
Qed.

Lemma span_fst_firstn (p : N -> bool) (s : jsstring) :
  firstn (List.length (fst (span p s))) s = fst (span p s).
Proof.
  induction s as [|c s IH]; simpl; [reflexivity|].
  destruct (p c) eqn:E; [|reflexivity].
  destruct (span p s) as [a b]. simpl in *. rewrite IH. reflexivity.
Qed.

Lemma span_fst_head (p : N -> bool) (c : N) (s : jsstring) :
  fst (span p (c :: s)) = [] -> p c = false.
Proof.
  simpl. destruct (p c); [|reflexivity].
  destruct (span p s). discriminate.
Qed.

Lemma re_spaces_some (prev : option N) (s : jsstring) (n : nat) :
  re_spaces prev s = Some n ->
  forallb is_s (firstn n s) = true.
Proof.
  unfold re_spaces.
  pose proof (span_fst_firstn is_s s) as F.
  pose proof (span_fst_all is_s s) as A.
  destruct (fst (span is_s s)) as [|c w]; [discriminate|].
  intros H. injection H as <-. cbn [List.length] in *. rewrite F. exact A.
Qed.

Lemma re_spaces_none (prev : option N) (c : N) (s : jsstring) :
  re_spaces prev (c :: s) = None -> is_s c = false.
Proof.
  unfold re_spaces. destruct (fst (span is_s (c :: s))) as [|c' w] eqn:E;
    [|discriminate].
  intros _. apply (span_fst_head _ _ _ E).
Qed.

Lemma existsb_rev {A} (p : A -> bool) (l : list A) :
  existsb p (rev l) = existsb p l.
Proof.
  induction l as [|x l IH]; simpl; [reflexivity|].
  rewrite existsb_app, IH. simpl. rewrite orb_false_r. apply orb_comm.
Qed.

Lemma split_spaces_pieces (s : jsstring) :
  forall prev cur skip,
    existsb is_s cur = false ->
    Forall space_or_word (split_from re_spaces true prev cur skip s).
Proof.
  induction s as [|c s IH]; intros prev cur skip Hcur; simpl.
  - constructor; [|constructor]. right. rewrite existsb_rev. exact Hcur.
  - destruct skip as [|k]; [|apply IH, Hcur].
    destruct (re_spaces prev (c :: s)) as [[|k]|] eqn:E.
    + unfold re_spaces in E.
      destruct (fst (span is_s (c :: s))); discriminate.
    + constructor; [right; rewrite existsb_rev; exact Hcur|].
      constructor; [left; apply (re_spaces_some _ _ _ E)|].
      apply IH. reflexivity.
    + apply IH. simpl. rewrite (re_spaces_none _ _ _ E). exact Hcur.
Qed.

(** ** [split] without a capture group: the pieces fit in the string *)

Lemma split_from_not_nil (m : matcher) (keep : bool) (s : jsstring) :
  forall prev cur skip, split_from m keep prev cur skip s <> [].
Proof.
  induction s as [|c s IH]; intros prev cur skip; simpl; [discriminate|].
  destruct skip as [|k]; [|apply IH].
  destruct (m prev (c :: s)) as [[|k]|]; try apply IH. discriminate.
Qed.

Lemma join_space_cons (w : jsstring) (l : list jsstring) :
  l <> [] -> join_space (w :: l) = w ++ 32%N :: join_space l.
Proof. destruct l; [congruence | reflexivity]. Qed.

Lemma jslength_app (a b : jsstring) :
  jslength (a ++ b) = jslength a + jslength b.
Proof. unfold jslength. rewrite length_app. lia. Qed.

Lemma jslength_cons (c : N) (a : jsstring) :
  jslength (c :: a) = 1 + jslength a.
Proof. unfold jslength. simpl List.length. lia. Qed.

Lemma jslength_nonneg (a : jsstring) : 0 <= jslength a.
Proof. unfold jslength. lia. Qed.

Lemma split_from_join_length (m : matcher) (s : jsstring) :
  forall prev cur skip,
    jslength (join_space (split_from m false prev cur skip s))
    <= jslength cur + jslength s.
Proof.
  induction s as [|c s IH]; intros prev cur skip.
  - cbn [split_from join_space]. unfold jslength. rewrite length_rev.
    simpl. lia.
  - rewrite jslength_cons. cbn [split_from].
    destruct skip as [|k]; [|specialize (IH (Some c) cur k); lia].
    destruct (m prev (c :: s)) as [[|k]|]; simpl app.
    + specialize (IH (Some c) (c :: cur) O). rewrite jslength_cons in IH.
      lia.
    + rewrite join_space_cons by apply split_from_not_nil.
      rewrite jslength_app, jslength_cons.
      specialize (IH (Some c) [] k).
      unfold jslength at 1. rewrite length_rev. fold (jslength cur).
      change (jslength []) with 0 in IH. lia.
    + specialize (IH (Some c) (c :: cur) O). rewrite jslength_cons in IH.
      lia.
Qed.

Lemma join_space_suffix_length (pre suf : list jsstring) :
  jslength (join_space suf) <= jslength (join_space (pre ++ suf)).
Proof.
  induction pre as [|w pre IH]; simpl app; [lia|].
  destruct (pre ++ suf) as [|x l] eqn:E.
  - destruct pre; [|discriminate]. simpl in E. subst suf. simpl.
    apply jslength_nonneg.
  - rewrite join_space_cons by discriminate.
    rewrite jslength_app.
    rewrite jslength_cons.
    pose proof (jslength_nonneg w). lia.
Qed.

(** ** [lastIndexOf] *)

Lemma starts_with_length (pat s : jsstring) :
  starts_with pat s = true -> jslength pat <= jslength s.
Proof.
  revert s. induction pat as [|p pat IH]; intros s; simpl.
  - intros _. apply jslength_nonneg.
  - destruct s as [|c s]; [discriminate|].
    intros H. apply andb_true_iff in H. destruct H as [_ H].
    apply IH in H. rewrite !jslength_cons. lia.
Qed.

Lemma last_index_from_bound (pat s : jsstring) :
  forall i best,
    let r := last_index_from pat s i best in
    r = best \/ (i <= r /\ r - i + jslength pat <= jslength s).
Proof.
  induction s as [|c s IH]; intros i best; simpl.
  - destruct (starts_with pat []) eqn:E; [|auto].
    right. apply starts_with_length in E. lia.
  - specialize (IH (i + 1) (if starts_with pat (c :: s) then i else best)).
    simpl in IH.
    pose proof (jslength_cons c s) as Hc.
    destruct IH as [IH|IH].
    + rewrite IH. destruct (starts_with pat (c :: s)) eqn:E; [|auto].
      right. apply starts_with_length in E. lia.
    + right. lia.
Qed.

End StringFacts.

(* ================================================================== *)
(** * The chunker: words, sentences, overlap, chunks and statistics *)
(* ================================================================== *)

Section ChunkerMore.
Import JsString Chunker ChunkerBatch Props MoreProps.

(** ** Words *)

Lemma concat_filter_nonempty (l : list jsstring) :
  List.concat (filter nonempty l) = List.concat l.
Proof.
  induction l as [|w l IH]; simpl; [reflexivity|].
  destruct w as [|c w]; simpl; [exact IH|]. rewrite IH. reflexivity.
Qed.

Lemma splitIntoWords_concat_eq (text : jsstring) :
  List.concat (splitIntoWords text) = text.
Proof.
  unfold splitIntoWords, split.
  rewrite concat_filter_nonempty, split_from_keep_concat. reflexivity.
Qed.

(** X6: [splitIntoWords] loses nothing: its pieces, put together again,
    are the text; no piece is empty, and each is either a run of white
    space or a word with no white space in it. *)
Theorem splitIntoWords_pieces (text : jsstring) :
  List.concat (splitIntoWords text) = text
  /\ Forall (fun w => w <> [] /\ space_or_word w) (splitIntoWords text).
Proof.
  split; [apply splitIntoWords_concat_eq|]. unfold splitIntoWords, split.
  - apply Forall_forall. intros w Hw. apply filter_In in Hw.
    destruct Hw as [Hin Hne]. split; [apply nonempty_true, Hne|].
    pose proof (split_spaces_pieces text None [] O eq_refl) as H.
    rewrite Forall_forall in H. apply H, Hin.
Qed.

Lemma trim_not_nil_iff (s : jsstring) :
  trim s <> [] <-> forallb is_s s = false.
Proof.
  pose proof (trim_nil_iff s) as H.
  destruct (forallb is_s s); split; intros G; try congruence.
  - exfalso. apply G, H. reflexivity.
  - intros E. apply H in E. discriminate.
Qed.

Lemma exists_nonblank (l : list jsstring) :
  forallb is_s (List.concat l) = false ->
  exists w, In w l /\ trim w <> [].
Proof.
  induction l as [|w l IH]; simpl; [discriminate|].
  rewrite forallb_app. destruct (forallb is_s w) eqn:E; simpl.
  - intros H. destruct (IH H) as (x & Hx & Hn). exists x. auto.
  - intros _. exists w. split; [auto | apply trim_not_nil_iff, E].
Qed.

(** ** Sentences *)

Lemma sentences_of_parts_trimmed (parts : list jsstring) :
  forall carry,
    Forall (fun s => s <> [] /\ trimmed s) (sentences_of_parts carry parts).
Proof.
  induction parts as [|p rest IH]; intros carry; simpl; [constructor|].
  set (part := match carry with Some pre => pre ++ 32%N :: p | None => p end).
  destruct (nonempty (lastWord part) && is_abbreviation (lastWord part)
            && match rest with [] => false | _ :: _ => true end);
    [apply IH|].
  apply Forall_app. split; [|apply IH].
  destruct (nonempty (trim part)) eqn:E; constructor; [|constructor].
  split; [apply nonempty_true, E | apply trim_trimmed].
Qed.

Lemma splitIntoSentences_nonblank (text : jsstring) :
  trim text <> [] ->
  splitIntoSentences text <> []
  /\ Forall (fun s => s <> [] /\ trimmed s) (splitIntoSentences text).
Proof.
  intros Ht. unfold splitIntoSentences.
  destruct text as [|c t]; [exfalso; apply Ht; reflexivity|].
  set (sentences := flat_map _ _).
  assert (Hs : Forall (fun s => s <> [] /\ trimmed s) sentences).
  { apply Forall_forall. intros s Hs. apply in_flat_map in Hs.
    destruct Hs as (para & _ & Hs).
    destruct (nonempty (trim para)); [|destruct Hs].
    pose proof (sentences_of_parts_trimmed
                  (split re_sentence_gap false para) None) as H.
    rewrite Forall_forall in H. apply H, Hs. }
  destruct sentences as [|s l].
  - split; [discriminate|]. constructor; [|constructor].
    split; [exact Ht | apply trim_trimmed].
  - split; [discriminate | exact Hs].
Qed.

(** X7: for a text that is not blank, [splitIntoSentences] returns at
    least one sentence, and every sentence is non-empty with white space at
    neither end. *)
Theorem splitIntoSentences_sentences (text : jsstring) :
  trim text <> [] ->
  splitIntoSentences text <> []
  /\ Forall (fun s => s <> [] /\ trimmed s) (splitIntoSentences text).
Proof. apply splitIntoSentences_nonblank. Qed.

Lemma splitIntoSentences_sentences_witness :
  splitIntoSentences (js "One. Two.") <> []
  /\ Forall (fun s => s <> [] /\ trimmed s)
       (splitIntoSentences (js "One. Two.")).
Proof.
  apply splitIntoSentences_sentences. vm_compute. discriminate.
Defined.

(** ** Segments *)

Lemma app_not_nil {A} (l : list A) (x : A) : l ++ [x] <> [].
Proof. destruct l; discriminate. Qed.

Lemma trim_app_not_nil (a b : jsstring) :
  trim a <> [] \/ trim b <> [] -> trim (a ++ b) <> [].
Proof.
  rewrite !trim_not_nil_iff, forallb_app.
  intros [-> | ->]; [reflexivity | apply andb_false_r].
Qed.

Lemma word_step_keeps (c : DocumentChunker) (st : WordLoop) (w : jsstring) :
  w_segments st <> [] \/ trim (wordChunk st) <> [] \/ trim w <> [] ->
  w_segments (word_step c st w) <> []
  \/ trim (wordChunk (word_step c st w)) <> [].
Proof.
  intros H. unfold word_step.
  destruct (Qgtb _ _ && nonempty (trim (wordChunk st))); simpl.
  - left. apply app_not_nil.
  - destruct H as [H|H]; [left; exact H|].
    right. apply trim_app_not_nil, H.
Qed.

Lemma fold_word_step_keeps (c : DocumentChunker) (words : list jsstring) :
  forall st,
    (w_segments st <> [] \/ trim (wordChunk st) <> [])
    \/ (exists w, In w words /\ trim w <> []) ->
    w_segments (fold_left (word_step c) words st) <> []
    \/ trim (wordChunk (fold_left (word_step c) words st)) <> [].
Proof.
  induction words as [|w words IH]; intros st H; simpl.
  - destruct H as [H|(w & [] & _)]. exact H.
  - apply IH. destruct H as [H|(x & [<-|Hx] & Hn)].
    + left. apply word_step_keeps. tauto.
    + left. apply word_step_keeps. tauto.
    + right. exists x. auto.
Qed.

Lemma sentence_step_not_nil (c : DocumentChunker) (content : jsstring)
  (st : list TextSegment * Z) (sentence : jsstring) :
  fst st <> [] \/ trim sentence <> [] ->
  fst (sentence_step c content st sentence) <> [].
Proof.
  destruct st as [segments currentPos]. simpl fst. intros H.
  unfold sentence_step. cbn [fst].
  destruct (Qgtb (inject_Z (estimateTokenCount sentence)) (maxTokens c));
    [|apply app_not_nil].
  set (w := fold_left _ _ _).
  assert (Hw : w_segments w <> [] \/ trim (wordChunk w) <> []).
  { apply fold_word_step_keeps. destruct H as [H|H].
    - left. left. exact H.
    - right. apply exists_nonblank.
      rewrite splitIntoWords_concat_eq.
      apply trim_not_nil_iff, H. }
  destruct (nonempty (trim (wordChunk w))) eqn:E; [apply app_not_nil|].
  destruct Hw as [Hw|Hw]; [exact Hw|].
  apply nonempty_true in Hw. congruence.
Qed.

Lemma fold_sentence_step_not_nil (c : DocumentChunker) (content : jsstring)
  (sentences : list jsstring) :
  forall st,
    fst st <> [] \/ (exists s, In s sentences /\ trim s <> []) ->
    fst (fold_left (sentence_step c content) sentences st) <> [].
Proof.
  induction sentences as [|s l IH]; intros st H; simpl.
  - destruct H as [H|(s & [] & _)]. exact H.
  - apply IH. destruct H as [H|(x & [<-|Hx] & Hn)].
    + left. apply sentence_step_not_nil. auto.
    + left. apply sentence_step_not_nil. auto.
    + right. exists x. auto.
Qed.

Lemma buildSegments_not_nil (c : DocumentChunker) (content : jsstring) :
  trim content <> [] -> buildSegments c content <> [].
Proof.
  intros Ht. unfold buildSegments.
  apply fold_sentence_step_not_nil. right.
  destruct (splitIntoSentences_nonblank content Ht) as [Hne Hall].
  destruct (splitIntoSentences content) as [|s l]; [congruence|].
  exists s. split; [left; reflexivity|].
  inversion Hall as [|? ? [Hs Htr] _]; subst.
  rewrite (trim_id s Htr). exact Hs.
Qed.

(** ** Chunks *)

Lemma segment_step_segments (c : DocumentChunker) (h : jsstring)
  (st : ChunkLoop) (sg : TextSegment) :
  currentChunkSegments (segment_step c h st sg) <> [].
Proof. unfold segment_step. simpl. apply app_not_nil. Qed.

Lemma fold_segment_step_segments (c : DocumentChunker) (h : jsstring)
  (segs : list TextSegment) (st : ChunkLoop) :
  segs <> [] ->
  currentChunkSegments (fold_left (segment_step c h) segs st) <> [].
Proof.
  intros H. destruct (exists_last H) as (l & x & ->).
  rewrite fold_left_app. simpl. apply segment_step_segments.
Qed.

Lemma chunkDocument_nil_blank (c : DocumentChunker) (h content : jsstring) :
  chunkDocument c h content = [] <-> trim content = [].
Proof.
  unfold chunkDocument. split.
  - intros H. destruct (trim content) as [|x t] eqn:Et; [reflexivity|].
    exfalso.
    assert (Hc : nonempty content = true).
    { destruct content; [discriminate Et | reflexivity]. }
    rewrite Hc in H. cbn [negb orb] in H.
    assert (Hl : (jslength (x :: t) =? 0) = false).
    { apply Z.eqb_neq. rewrite jslength_cons.
      pose proof (jslength_nonneg t). lia. }
    rewrite Hl in H.
    destruct (Qle_bool _ _); [discriminate|].
    assert (Hseg : buildSegments c (x :: t) <> []).
    { apply buildSegments_not_nil. rewrite <- Et, trim_idem, Et.
      discriminate. }
    pose proof (fold_segment_step_segments c h _
                  (mkLoop [] [] 0 0 0 [] 0 0) Hseg) as Hcur.
    destruct (currentChunkSegments _); [congruence|].
    apply (app_not_nil _ _ H).
  - intros ->. simpl. rewrite orb_true_r. reflexivity.
Qed.

(** X8: [chunkDocument] returns no chunk exactly for content that is empty
    or white space only; any other content gives at least one chunk. *)
Theorem chunkDocument_nil_iff (c : DocumentChunker) (h content : jsstring) :
  chunkDocument c h content = [] <-> trim content = [].
Proof. apply chunkDocument_nil_blank. Qed.

Lemma flushChunk_chunks_ok c h st :
  Forall (chunk_ok h) (chunks st) -> Forall (chunk_ok h) (chunks (flushChunk c h st)).
Proof.
  intros H. unfold flushChunk.
  destruct (currentChunkSegments st); [exact H|]. simpl.
  apply Forall_app. split; [exact H|].
  constructor; [|constructor]. split; reflexivity.
Qed.

Lemma segment_step_chunks_ok c h st sg :
  Forall (chunk_ok h) (chunks st) ->
  Forall (chunk_ok h) (chunks (segment_step c h st sg)).
Proof.
  intros H. unfold segment_step.
  destruct (Qgtb _ _); [|exact H].
  pose proof (flushChunk_chunks_ok c h st H) as Hf.
  destruct (nonempty (overlapText (flushChunk c h st))); exact Hf.
Qed.

Lemma fold_segment_step_chunks_ok c h segs : forall st,
  Forall (chunk_ok h) (chunks st) ->
  Forall (chunk_ok h) (chunks (fold_left (segment_step c h) segs st)).
Proof.
  induction segs as [|sg segs IH]; intros st H; simpl; [exact H|].
  apply IH, segment_step_chunks_ok, H.
Qed.

(** X9: every chunk [chunkDocument] returns carries the hash it was given,
    and its [tokenCount] is the token estimate of its own [text]. *)
Theorem chunkDocument_chunks (c : DocumentChunker) (h content : jsstring) :
  Forall (chunk_ok h) (chunkDocument c h content).
Proof.
  unfold chunkDocument.
  destruct (negb (nonempty content) || (jslength (trim content) =? 0));
    [constructor|].
  destruct (Qle_bool _ _).
  - constructor; [|constructor]. split; reflexivity.
  - pose proof (fold_segment_step_chunks_ok c h
                  (buildSegments c (trim content))
                  (mkLoop [] [] 0 0 0 [] 0 0) (Forall_nil _)) as H.
    destruct (currentChunkSegments _); [exact H|].
    apply Forall_app. split; [exact H|].
    constructor; [|constructor]. split; reflexivity.
Qed.

(** ** The overlap *)

Lemma take_overlap_suffix (target : Z) (rwords : list jsstring) :
  forall cur acc,
    exists taken rest,
      rwords = taken ++ rest
      /\ take_overlap target rwords cur acc = rev taken ++ acc.
Proof.
  induction rwords as [|w rwords IH]; intros cur acc; simpl.
  - exists [], []. auto.
  - destruct (cur + estimateTokenCount w >? target).
    + exists [], (w :: rwords). auto.
    + destruct (IH (cur + estimateTokenCount w) (w :: acc))
        as (taken & rest & -> & ->).
      exists (w :: taken), rest. simpl. rewrite <- app_assoc. auto.
Qed.

Lemma take_overlap_budget (target : Z) (rwords : list jsstring) :
  forall cur acc,
    cur = word_tokens acc -> cur <= target ->
    word_tokens (take_overlap target rwords cur acc) <= target.
Proof.
  induction rwords as [|w rwords IH]; intros cur acc Hc Ht; simpl.
  - lia.
  - destruct (cur + estimateTokenCount w >? target) eqn:E; [lia|].
    rewrite Z.gtb_ltb in E. apply Z.ltb_ge in E.
    apply IH; [simpl; lia | lia].
Qed.

(** X10: the overlap [extractOverlapText] returns consists of the last
    words of the text (as [split(/\s+/)] gives them) whose token estimates
    add up to at most [targetTokens], joined by single spaces; the position
    it returns lies inside the text, and the overlap fits between it and
    the end of the text. *)
Theorem extractOverlapText_bounds (text : jsstring) (targetTokens : Z) :
  let overlap := fst (extractOverlapText text targetTokens) in
  let p := snd (extractOverlapText text targetTokens) in
  (exists before ws,
     split re_spaces false text = before ++ ws
     /\ overlap = join_space ws
     /\ word_tokens ws <= Z.max 0 targetTokens)
  /\ 0 <= p
  /\ p + jslength overlap <= jslength text.
Proof.
  unfold extractOverlapText.
  destruct (targetTokens <=? 0) eqn:Et; cbn [fst snd].
  - apply Z.leb_le in Et. split.
    + exists (split re_spaces false text), [].
      rewrite app_nil_r. simpl. repeat split; lia.
    + change (jslength []) with 0. pose proof (jslength_nonneg text). lia.
  - apply Z.leb_gt in Et.
    set (words := split re_spaces false text).
    destruct (take_overlap_suffix targetTokens (rev words) 0 [])
      as (taken & rest & Hw & Ho).
    rewrite app_nil_r in Ho.
    assert (Hwords : words = rev rest ++ rev taken).
    { rewrite <- rev_app_distr, <- Hw, rev_involutive. reflexivity. }
    pose proof (take_overlap_budget targetTokens (rev words) 0 []
                  eq_refl ltac:(lia)) as Hb.
    rewrite Ho in *.
    set (ot := join_space (rev taken)) in *.
    assert (Hlen : jslength ot <= jslength text).
    { pose proof (join_space_suffix_length (rev rest) (rev taken)) as H1.
      rewrite <- Hwords in H1.
      pose proof (split_from_join_length re_spaces text None [] O) as H2.
      fold (split re_spaces false text) in H2. fold words in H2.
      change (jslength []) with 0 in H2. unfold ot. lia. }
    split.
    + exists (rev rest), (rev taken). repeat split; [exact Hwords | lia].
    + unfold lastIndexOf.
      pose proof (last_index_from_bound ot text 0 (-1)) as Hr.
      simpl in Hr.
      destruct (0 <=? last_index_from ot text 0 (-1)) eqn:E.
      * apply Z.leb_le in E. lia.
      * lia.
Qed.

(** ** Statistics *)

Lemma fold_max_bounds (l : list Z) : forall t,
  t <= fold_left Z.max l t
  /\ Forall (fun x => x <= fold_left Z.max l t) l.
Proof.
  induction l as [|x l IH]; intros t; simpl; [split; [lia | constructor]|].
  destruct (IH (Z.max t x)) as [H1 H2]. split; [lia|].
  constructor; [lia | exact H2].
Qed.

Lemma fold_min_bounds (l : list Z) : forall t,
  fold_left Z.min l t <= t
  /\ Forall (fun x => fold_left Z.min l t <= x) l.
Proof.
  induction l as [|x l IH]; intros t; simpl; [split; [lia | constructor]|].
  destruct (IH (Z.min t x)) as [H1 H2]. split; [lia|].
  constructor; [lia | exact H2].
Qed.

Lemma fold_add_bounds (lo hi : Z) (l : list Z) : forall a,
  Forall (fun x => lo <= x <= hi) l ->
  a + Z.of_nat (List.length l) * lo <= fold_left Z.add l a
  <= a + Z.of_nat (List.length l) * hi.
Proof.
  induction l as [|x l IH]; intros a H; simpl fold_left.
  - simpl. lia.
  - inversion H as [|? ? Hx Hl]; subst.
    specialize (IH (a + x) Hl).
    rewrite length_cons, Nat2Z.inj_succ. nia.
Qed.

Lemma round_between (lo hi s n : Z) :
  0 < n -> n * lo <= s <= n * hi ->
  lo <= Math_round (inject_Z s / inject_Z n)%Q <= hi.
Proof.
  intros Hn [Hlo Hhi]. unfold Math_round.
  assert (Hq : (0 < inject_Z n)%Q).
  { change 0%Q with (inject_Z 0). rewrite <- Zlt_Qlt. exact Hn. }
  assert (H1 : (inject_Z lo <= inject_Z s / inject_Z n)%Q).
  { apply Qle_shift_div_l; [exact Hq|].
    rewrite <- inject_Z_mult, <- Zle_Qle. lia. }
  assert (H2 : (inject_Z s / inject_Z n <= inject_Z hi)%Q).
  { apply Qle_shift_div_r; [exact Hq|].
    rewrite <- inject_Z_mult, <- Zle_Qle. lia. }
  set (x := (inject_Z s / inject_Z n)%Q) in *.
  split.
  - rewrite <- (Qfloor_Z lo). apply Qfloor_resp_le. lra.
  - pose proof (Qfloor_le (x + (1 # 2))) as Hf.
    assert (Hlt : (inject_Z (Qfloor (x + (1 # 2))) < inject_Z (hi + 1))%Q).
    { rewrite inject_Z_plus. change (inject_Z 1) with 1%Q. lra. }
    rewrite <- Zlt_Qlt in Hlt. lia.
Qed.

(** X11: for a list of chunks that is not empty, [getChunkingStats] counts
    the chunks, every [tokenCount] lies between the minimum and the maximum
    it reports, and so does the rounded average. *)
Theorem getChunkingStats_bounds (chunks : list DocumentChunk) :
  chunks <> [] ->
  let st := getChunkingStats chunks in
  totalChunks st = Z.of_nat (List.length chunks)
  /\ Forall (fun ch => minTokensInChunk st <= tokenCount ch
                       <= maxTokensInChunk st) chunks
  /\ minTokensInChunk st <= avgTokensPerChunk st <= maxTokensInChunk st.
Proof.
  intros Hne. unfold getChunkingStats.
  destruct chunks as [|c0 rest]; [congruence|].
  cbn [map]. set (t := tokenCount c0). set (l := map tokenCount rest).
  cbn [totalChunks minTokensInChunk maxTokensInChunk avgTokensPerChunk].
  destruct (fold_max_bounds l t) as [M1 M2].
  destruct (fold_min_bounds l t) as [N1 N2].
  set (mx := fold_left Z.max l t) in *.
  set (mn := fold_left Z.min l t) in *.
  assert (Hall : Forall (fun x => mn <= x <= mx) (t :: l)).
  { constructor; [lia|]. rewrite Forall_forall in *. intros x Hx.
    specialize (M2 x Hx). specialize (N2 x Hx). simpl in *. lia. }
  split; [reflexivity|]. split.
  - assert (Hmap : Forall (fun x => mn <= x <= mx)
                     (map tokenCount (c0 :: rest))) by exact Hall.
    rewrite Forall_map in Hmap. exact Hmap.
  - apply round_between.
    + rewrite length_cons. lia.
    + pose proof (fold_add_bounds mn mx (t :: l) 0 Hall) as H.
      assert (El : List.length (t :: l) = List.length (c0 :: rest)).
      { unfold l. simpl. rewrite length_map. reflexivity. }
      rewrite El in H. lia.
Qed.

Lemma getChunkingStats_bounds_witness :
  let st := getChunkingStats [mkChunk [] 0 0 [] 3; mkChunk [] 1 0 [] 4] in
  totalChunks st = 2
  /\ Forall (fun ch => minTokensInChunk st <= tokenCount ch
                       <= maxTokensInChunk st)
       [mkChunk [] 0 0 [] 3; mkChunk [] 1 0 [] 4]
  /\ minTokensInChunk st <= avgTokensPerChunk st <= maxTokensInChunk st.
Proof.
  apply (getChunkingStats_bounds [mkChunk [] 0 0 [] 3; mkChunk [] 1 0 [] 4]).
  discriminate.
Defined.

(** ** Several documents *)

Lemma results_get_set_same key value m :
  results_get key (results_set key value m) = Some value.
Proof.
  induction m as [|[k v] m IH]; simpl.
  - rewrite jseqb_refl. reflexivity.
  - destruct (jseqb key k) eqn:E; simpl; rewrite ?E; auto.
Qed.

Lemma results_get_set_other h key value m :
  jseqb h key = false ->
  results_get h (results_set key value m) = results_get h m.
Proof.
  intros Hne. induction m as [|[k v] m IH]; simpl.
  - rewrite Hne. reflexivity.
  - destruct (jseqb key k) eqn:E; simpl.
    + apply jseqb_eq in E. subst k. rewrite Hne. reflexivity.
    + rewrite IH. reflexivity.
Qed.

Lemma results_set_keys_nodup key value m :
  NoDup (map fst m) -> NoDup (map fst (results_set key value m)).
Proof.
  induction m as [|[k v] m IH]; simpl; intros H.
  - constructor; [tauto | constructor].
  - destruct (jseqb key k) eqn:E; simpl; [exact H|].
    inversion H as [|? ? Hk Hm]; subst.
    constructor; [|apply IH, Hm].
    intros Hin. apply Hk. clear IH H Hk Hm.
    induction m as [|[k' v'] m IH]; simpl in *.
    + destruct Hin as [Hin|[]]. subst. rewrite jseqb_refl in E. discriminate.
    + destruct (jseqb key k'); simpl in Hin; tauto.
Qed.

(** X12: [chunkDocuments] maps each hash among the documents to the chunks
    of the last document given with that hash, has no entry for any other
    hash, and holds one entry per hash. *)
Theorem chunkDocuments_lookup (c : DocumentChunker) (docs : list Doc)
  (h : jsstring) :
  results_get h (chunkDocuments c docs)
  = option_map (fun d => chunkDocument c h (doc_content d))
      (last_with_hash h docs)
  /\ NoDup (map fst (chunkDocuments c docs)).
Proof.
  unfold chunkDocuments, last_with_hash.
  assert (G : forall m o,
    results_get h m = option_map (fun d => chunkDocument c h (doc_content d)) o ->
    NoDup (map fst m) ->
    results_get h
      (fold_left (fun results doc =>
         results_set (doc_hash doc)
           (chunkDocument c (doc_hash doc) (doc_content doc)) results) docs m)
    = option_map (fun d => chunkDocument c h (doc_content d))
        (fold_left (fun o d => if jseqb h (doc_hash d) then Some d else o)
           docs o)
    /\ NoDup (map fst
         (fold_left (fun results doc =>
            results_set (doc_hash doc)
              (chunkDocument c (doc_hash doc) (doc_content doc)) results)
            docs m))).
  { induction docs as [|d docs IH]; intros m o Hm Hnd; simpl; [auto|].
    apply IH; [|apply results_set_keys_nodup, Hnd].
    destruct (jseqb h (doc_hash d)) eqn:E.
    - apply jseqb_eq in E. subst h. rewrite results_get_set_same.
      reflexivity.
    - rewrite results_get_set_other by exact E. exact Hm. }
  apply G; [reflexivity | constructor].
Qed.

End ChunkerMore.

(* ================================================================== *)
(** * The lexical searcher: results and the score threshold *)
(* ================================================================== *)

Section LexicalResults.
Import JsString Exn FtsSearch Props MoreProps.

Lemma normalizeBM25Score_range (raw : Q) :
  (0 < normalizeBM25Score raw <= 100)%Q.
Proof.
  unfold normalizeBM25Score.
  pose proof (Qabs_nonneg raw) as Ha.
  set (a := Qabs raw) in *.
  assert (Hp : (0 < 1 + a)%Q) by lra.
  assert (H1 : (0 < 1 / (1 + a))%Q).
  { apply Qlt_shift_div_l; [exact Hp | lra]. }
  assert (H2 : (1 / (1 + a) <= 1)%Q).
  { apply Qle_shift_div_r; [exact Hp | lra]. }
  set (t := (1 / (1 + a))%Q) in *. lra.
Qed.

Lemma run_search_returned with_snippets s query options rs :
  run_search with_snippets s query options = Returned rs ->
  rs = [] \/ exists rows, rs = results_of_rows with_snippets rows.
Proof.
  unfold run_search.
  destruct (negb (initialized s)); [discriminate|].
  destruct (negb (nonempty (sanitizeFTS5Query query))).
  - intros H. injection H as <-. auto.
  - destruct (db s _) as [rows|e].
    + intros H. injection H as <-. right. exists rows. reflexivity.
    + unfold on_engine_error.
      destruct (instanceof_Error e && includes (message_of e) (js "fts5"));
        [|discriminate].
      intros H. injection H as <-. auto.
Qed.

(** What the lexical searcher throws: [DB_NOT_INITIALIZED] when it is not
    initialized, [QUERY_ERROR] otherwise. *)
Lemma run_search_threw with_snippets s query options e :
  run_search with_snippets s query options = Threw e ->
  exists m, e = SearchError m DB_NOT_INITIALIZED
            \/ e = SearchError m QUERY_ERROR.
Proof.
  unfold run_search.
  destruct (negb (initialized s)).
  - intros H. injection H as <-. eexists. left. reflexivity.
  - destruct (negb (nonempty (sanitizeFTS5Query query))); [discriminate|].
    destruct (db s _) as [rows|e']; [discriminate|].
    unfold on_engine_error.
    destruct (instanceof_Error e' && includes (message_of e') (js "fts5"));
      [discriminate|].
    intros H. injection H as <-. eexists. right. reflexivity.
Qed.

(** X13: what [search] or [searchWithSnippets] returns is ranked 1, 2, 3,
    ... in list order, and every [score] lies in (0, 100]. *)
Theorem fts_results_ranked (s : FTSSearcher) (query : jsstring)
  (options : option SearchOptions) (rs : list SearchResult) :
  search s query options = Returned rs
  \/ searchWithSnippets s query options = Returned rs ->
  ranked_from_one rank rs
  /\ forall r, In r rs -> (0 < score r <= 100)%Q.
Proof.
  intros H.
  assert (Hrs : rs = [] \/ exists ws rows, rs = results_of_rows ws rows).
  { destruct H as [H|H]; apply run_search_returned in H;
      destruct H as [H|(rows & H)]; eauto. }
  destruct Hrs as [->|(ws & rows & ->)].
  - split; [reflexivity | intros r []].
  - unfold ranked_from_one, results_of_rows. split.
    + rewrite mapi_ranked by reflexivity.
      rewrite mapi_length. apply map_ext. intros n. lia.
    + intros r Hr. destruct (mapi_in _ _ _ _ Hr) as (row & i & _ & ->).
      simpl. apply normalizeBM25Score_range.
Qed.

Lemma fts_results_ranked_witness :
  ranked_from_one rank
    [mkSearchResult (js "a") (js "t") (js "c") (js "p")
       (normalizeBM25Score (-1)) [] 1].
Proof.
  refine (proj1
            (fts_results_ranked
               (mkFTSSearcher
                  (fun _ => Returned [mkFtsRow (js "a") (js "t") (js "c")
                                        (js "p") (-1) None]) true)
               (js "cats") None _ (or_introl eq_refl))).
Defined.

(** X14: the parameter bound to [abs(bm25) <= ?] for a [minScore] of at most
    100 selects exactly the rows whose normalized score is at least
    [minScore]. *)
Theorem minScore_threshold_exact (minScore raw : Q) :
  (minScore <= 100)%Q ->
  within_threshold raw (denormalizeToBM25 minScore)
  <-> (minScore <= normalizeBM25Score raw)%Q.
Proof.
  intros H100. unfold denormalizeToBM25, normalizeBM25Score.
  pose proof (Qabs_nonneg raw) as Ha.
  set (a := Qabs raw) in *.
  assert (Hp : (0 < 1 + a)%Q) by lra.
  assert (Hn : (1 / (1 + a) * 100 * (1 + a) == 100)%Q) by (field; lra).
  set (n := (1 / (1 + a) * 100)%Q) in *.
  destruct (Qle_bool minScore 0) eqn:E0.
  - apply Qle_bool_iff in E0. unfold within_threshold.
    split; [intros _ | auto].
    assert (H0 : (0 <= n)%Q) by nra. lra.
  - assert (Hm : (0 < minScore)%Q).
    { apply Qnot_le_lt. intros H. apply Qle_bool_iff in H. congruence. }
    destruct (Qle_bool 100 minScore) eqn:E1; unfold within_threshold; fold a.
    + apply Qle_bool_iff in E1. split; intros H; nra.
    + assert (Hu : (100 / minScore * minScore == 100)%Q) by (field; lra).
      set (u := (100 / minScore)%Q) in *.
      split; intros H; nra.
Qed.

Lemma minScore_threshold_exact_witness :
  within_threshold (-1) (denormalizeToBM25 50)
  <-> (50 <= normalizeBM25Score (-1))%Q.
Proof.
  apply (minScore_threshold_exact 50 (-1)). vm_compute. discriminate.
Defined.

End LexicalResults.

(* ================================================================== *)
(** * The vector searcher: results and failures *)
(* ================================================================== *)

Section VectorResults.
Import JsString Exn VectorSearch Props MoreProps.
Local Open Scope Q_scope.

Lemma collect_rows_ranks maxDistance rows : forall i,
  map rank (collect_rows maxDistance rows i)
  = map (fun n => (i - 1 + Z.of_nat n)%Z)
      (List.seq 1 (List.length (collect_rows maxDistance rows i))).
Proof.
  induction rows as [|row rows IH]; intros i; simpl; [reflexivity|].
  destruct (match maxDistance with
            | Some m => negb (Qle_bool (row_distance row) m)
            | None => false
            end); [apply IH|].
  simpl. rewrite IH. f_equal; [lia|].
  rewrite <- (seq_shift (List.length _) 1), map_map.
  apply map_ext. intros n. lia.
Qed.

Lemma collect_rows_in maxDistance rows r : forall i,
  In r (collect_rows maxDistance rows i) ->
  similarity r = distanceToSimilarity (distance r)
  /\ forall m, maxDistance = Some m -> distance r <= m.
Proof.
  induction rows as [|row rows IH]; intros i; simpl; [tauto|].
  destruct maxDistance as [m|].
  - destruct (Qle_bool (row_distance row) m) eqn:E; simpl.
    + intros [<-|H]; [|apply (IH _ H)]. simpl. split; [reflexivity|].
      intros m' Hm. injection Hm as <-. apply Qle_bool_iff, E.
    + apply IH.
  - simpl. intros [<-|H]; [|apply (IH _ H)]. simpl.
    split; [reflexivity | discriminate].
Qed.

Lemma distanceToSimilarity_range d : 0 <= distanceToSimilarity d <= 100.
Proof.
  unfold distanceToSimilarity.
  set (c := Qmax 0 (Qmin 2 d)).
  assert (H0 : 0 <= c) by apply Q.le_max_l.
  assert (H2 : c <= 2).
  { unfold c. apply Q.max_lub; [lra | apply Q.le_min_l]. }
  setoid_replace ((1 - c / 2) * 100) with (100 - 50 * c) by field.
  lra.
Qed.

(** Without rounding, a row within the distance that stands for
    [minSimilarity] is at least that similar, [minSimilarity] being at most
    100.  With rounding it can fall short: see
    [doubles_threshold_falls_short]. *)
Lemma within_distance_similar (m d : Q) :
  m <= 100 -> d <= similarityToDistance m -> m <= distanceToSimilarity d.
Proof.
  unfold similarityToDistance, distanceToSimilarity. intros Hm Hd.
  set (cm := Qmax 0 (Qmin 100 m)) in *.
  set (cd := Qmax 0 (Qmin 2 d)).
  assert (Hcm0 : 0 <= cm) by apply Q.le_max_l.
  assert (Hcm : m <= cm).
  { unfold cm. rewrite (Q.min_r 100 m Hm). apply Q.le_max_r. }
  setoid_replace (2 * (1 - cm / 100)) with (2 - cm / 50) in Hd by field.
  setoid_replace ((1 - cd / 2) * 100) with (100 - 50 * cd) by field.
  assert (Hcd : cd <= Qmax 0 d).
  { unfold cd. apply Q.max_le_compat_l, Q.le_min_r. }
  assert (Hq : cm / 50 == cm * (1 # 50)) by (field).
  rewrite Hq in Hd.
  destruct (Q.max_spec 0 d) as [[_ E]|[_ E]]; rewrite E in Hcd; lra.
Qed.

Lemma searchWithEmbedding_returned s emb options rs :
  searchWithEmbedding s emb options = Returned rs ->
  exists rows,
    rs = collect_rows
           (option_map similarityToDistance
              match options with Some o => minSimilarity o | None => None end)
           rows 1.
Proof.
  unfold searchWithEmbedding.
  destruct (negb (initialized s)); [discriminate|].
  destruct (negb (_ =? _)%Z); [discriminate|].
  destruct (db s _) as [rows|e].
  - intros H. injection H as <-. exists rows. reflexivity.
  - destruct (instanceof_Error e && includes (message_of e) _);
      [discriminate|].
    destruct (instanceof_Error e && includes (message_of e) _); discriminate.
Qed.

Lemma search_returned_rows s query options rs log :
  search s query options = (Returned rs, log) ->
  rs = [] \/ exists emb, searchWithEmbedding s emb options = Returned rs.
Proof.
  unfold search.
  destruct (negb (initialized s)); [discriminate|].
  destruct (negb (nonempty query) || (jslength (trim query) =? 0)%Z).
  - intros H. injection H as <- _. auto.
  - unfold call, bind, ret, throw.
    destruct (isAvailable (embedder s)); simpl; [|discriminate].
    destruct (generateEmbedding (embedder s) (trim query)) as [emb|e].
    + intros H. injection H as H _. right. exists emb. exact H.
    + discriminate.
Qed.

(** X15: what [search] or [searchWithEmbedding] returns is ranked 1, 2, 3,
    ... in list order, rows skipped for their distance using up no rank;
    every [similarity] is the conversion of the row's distance and lies
    between 0 and 100; and with a [minSimilarity] the distance of every
    result is at most [similarityToDistance minSimilarity], the bound the
    row loop tests. *)
Theorem vector_results_ranked_and_filtered (s : VectorSearcher)
  (query : jsstring) (emb : embedding) (options : option VectorSearchOptions)
  (rs : list VectorSearchResult) (log : list EmbedderCall) :
  search s query options = (Returned rs, log)
  \/ searchWithEmbedding s emb options = Returned rs ->
  ranked_from_one rank rs
  /\ forall r, In r rs ->
       similarity r = distanceToSimilarity (distance r)
       /\ 0 <= similarity r <= 100
       /\ forall o m, options = Some o -> minSimilarity o = Some m ->
                      distance r <= similarityToDistance m.
Proof.
  intros H.
  assert (Hrs : rs = [] \/ exists e, searchWithEmbedding s e options
                                     = Returned rs).
  { destruct H as [H|H]; [apply (search_returned_rows _ _ _ _ _ H) | eauto]. }
  destruct Hrs as [->|(e & He)].
  - split; [reflexivity | intros r []].
  - apply searchWithEmbedding_returned in He. destruct He as (rows & ->).
    split.
    + unfold ranked_from_one. rewrite collect_rows_ranks.
      apply map_ext. intros n. lia.
    + intros r Hr. destruct (collect_rows_in _ _ _ _ Hr) as [Hs Hd].
      split; [exact Hs|]. split.
      * rewrite Hs. apply distanceToSimilarity_range.
      * intros o m -> Hm. apply Hd. rewrite Hm. reflexivity.
Qed.

Lemma vector_results_ranked_and_filtered_witness :
  exists rs,
    search (mkVectorSearcher three_rows online_embedder true) (js "cats")
      (Some (mkVectorSearchOptions None None (Some 88)))
    = (Returned rs, [CallIsAvailable; CallGenerateEmbedding (js "cats")])
    /\ List.length rs = 2%nat
    /\ ranked_from_one rank rs.
Proof.
  edestruct (vector_results_ranked_and_filtered
               (mkVectorSearcher three_rows online_embedder true)
               (js "cats") []
               (Some (mkVectorSearchOptions None None (Some 88))))
    as [H _].
  - left. vm_compute. reflexivity.
  - eexists. split; [vm_compute; reflexivity|].
    split; [reflexivity | exact H].
Defined.

(** What the vector searcher throws is a [VectorSearchError]. *)
Lemma searchWithEmbedding_threw s emb options e :
  searchWithEmbedding s emb options = Threw e -> is_VectorSearchError e.
Proof.
  unfold searchWithEmbedding.
  destruct (negb (initialized s)); [intros H; injection H as <-; exact I|].
  destruct (negb (_ =? _)%Z); [intros H; injection H as <-; exact I|].
  destruct (db s _) as [rows|e']; [discriminate|].
  destruct (instanceof_Error e' && includes (message_of e') _);
    [intros H; injection H as <-; exact I|].
  destruct (instanceof_Error e' && includes (message_of e') _);
    intros H; injection H as <-; exact I.
Qed.

Lemma vector_search_threw s query options e log :
  search s query options = (Threw e, log) -> is_VectorSearchError e.
Proof.
  unfold search.
  destruct (negb (initialized s)); [intros H; injection H as <- _; exact I|].
  destruct (negb (nonempty query) || (jslength (trim query) =? 0)%Z);
    [discriminate|].
  unfold call, bind, ret, throw.
  destruct (isAvailable (embedder s)); simpl;
    [|intros H; injection H as <- _; exact I].
  destruct (generateEmbedding (embedder s) (trim query)) as [emb|e'].
  - intros H. injection H as H _. apply (searchWithEmbedding_threw _ _ _ _ H).
  - intros H. injection H as <- _. destruct e'; exact I.
Qed.

(** X16: failures of the embedding service.  For an initialized searcher
    and a query that is not blank, whatever the engine and the options: when
    the service is not available, [search] throws [EMBEDDER_NOT_AVAILABLE]
    with the install instructions in its message and asks for no embedding;
    when the service is available and generating the embedding throws an
    [EmbeddingError], [search] throws [EMBEDDER_NOT_AVAILABLE] with the
    message of that error; any other thrown value that is not already a
    [VectorSearchError] becomes a [QUERY_ERROR]. *)
Theorem vector_search_embedding_failures (d : Database) (e : OllamaEmbedder)
  (query : jsstring) (options : option VectorSearchOptions) :
  trim query <> [] ->
  let s := mkVectorSearcher d e true in
  (isAvailable e = false ->
   search s query options
   = (Threw (VectorSearchError
               (js "Ollama embedding service not available. "
                ++ getInstallInstructions e)
               EMBEDDER_NOT_AVAILABLE),
      [CallIsAvailable; CallGetInstallInstructions]))
  /\ (forall x,
        isAvailable e = true ->
        generateEmbedding e (trim query) = Threw x ->
        exists err,
          search s query options
          = (Threw err, [CallIsAvailable; CallGenerateEmbedding (trim query)])
          /\ match x with
             | EmbeddingError m =>
                 err = VectorSearchError
                         (js "Failed to generate query embedding: " ++ m)
                         EMBEDDER_NOT_AVAILABLE
             | VectorSearchError _ _ => err = x
             | _ => err = VectorSearchError
                            (js "Search failed: " ++ message_or_unknown x)
                            QUERY_ERROR
             end).
Proof.
  intros Hq s.
  assert (Hb : negb (nonempty query) || (jslength (trim query) =? 0)%Z
               = false).
  { destruct query as [|c q]; [exfalso; apply Hq; reflexivity|].
    simpl nonempty. simpl negb. simpl orb.
    destruct (trim (c :: q)) as [|c' t] eqn:E; [exfalso; apply Hq; reflexivity|].
    unfold jslength. simpl List.length. apply Z.eqb_neq. lia. }
  split.
  - intros Ha. unfold search, s. simpl initialized. simpl negb at 1.
    cbv iota. rewrite Hb. simpl embedder. rewrite Ha. reflexivity.
  - intros x Ha Hx. unfold search, s. simpl initialized. simpl negb at 1.
    cbv iota. rewrite Hb. simpl embedder. rewrite Ha.
    unfold call, bind. simpl. rewrite Hx.
    eexists. split; [reflexivity|]. destruct x; reflexivity.
Qed.

Lemma vector_search_embedding_failures_witness :
  search (mkVectorSearcher no_rows offline_embedder true) (js "cats") None
  = (Threw (VectorSearchError
              (js "Ollama embedding service not available. "
               ++ js "ollama pull nomic-embed-text")
              EMBEDDER_NOT_AVAILABLE),
     [CallIsAvailable; CallGetInstallInstructions]).
Proof.
  refine (proj1 (vector_search_embedding_failures no_rows offline_embedder
                   (js "cats") None _) eq_refl).
  vm_compute. discriminate.
Defined.

(** X17: failures of the engine.  An embedding that has not 768 components
    is rejected with [DIMENSION_MISMATCH] whatever the engine would do; when
    the engine throws, [searchWithEmbedding] throws [DB_NOT_INITIALIZED] if
    the thrown value is an [Error] whose message contains
    [no such table: vectors_vec], and [QUERY_ERROR] otherwise. *)
Theorem searchWithEmbedding_failures (d : Database) (e : OllamaEmbedder)
  (emb : embedding) (options : option VectorSearchOptions) :
  let s := mkVectorSearcher d e true in
  (Z.of_nat (List.length emb) <> EXPECTED_DIMENSIONS ->
   exists m,
     searchWithEmbedding s emb options
     = Threw (VectorSearchError m DIMENSION_MISMATCH))
  /\ (forall x,
        Z.of_nat (List.length emb) = EXPECTED_DIMENSIONS ->
        d (knn_request emb options) = Threw x ->
        exists m,
          searchWithEmbedding s emb options
          = Threw (VectorSearchError m
                     (if instanceof_Error x
                         && includes (message_of x)
                              (js "no such table: vectors_vec")
                      then DB_NOT_INITIALIZED else QUERY_ERROR))).
Proof.
  intros s. unfold searchWithEmbedding, s. simpl initialized. simpl negb at 1.
  cbv iota. split.
  - intros Hn. apply Z.eqb_neq in Hn. rewrite Hn. simpl. eexists. reflexivity.
  - intros x Hn Hx. apply Z.eqb_eq in Hn. rewrite Hn. simpl negb. cbv iota.
    simpl db. fold (knn_request emb options). rewrite Hx.
    destruct (instanceof_Error x
              && includes (message_of x) (js "no such table: vectors_vec")).
    + eexists. reflexivity.
    + destruct (instanceof_Error x && includes (message_of x) (js "vec0"));
        eexists; reflexivity.
Qed.

End VectorResults.

(* ================================================================== *)
(** * The lexical searcher: sanitized queries and column searches *)
(* ================================================================== *)

Section Sanitize.
Import JsString Exn FtsSearch FtsColumns Props MoreProps.

Lemma trim_middle (s : jsstring) :
  exists pre post, s = pre ++ trim s ++ post.
Proof.
  unfold trim.
  destruct (dropWhile_suffix is_s s) as (pre & Hpre & _).
  set (a := dropWhile is_s s) in *.
  destruct (dropWhile_suffix is_s (rev a)) as (pre2 & Hpre2 & _).
  set (b := dropWhile is_s (rev a)) in *.
  exists pre, (rev pre2).
  rewrite <- rev_app_distr, <- Hpre2, rev_involutive. exact Hpre.
Qed.

Lemma trim_forall (P : N -> Prop) (s : jsstring) :
  Forall P s -> Forall P (trim s).
Proof.
  destruct (trim_middle s) as (pre & post & E). intros H.
  rewrite E in H. apply Forall_app in H. destruct H as [_ H].
  apply Forall_app in H. tauto.
Qed.

Lemma no_double_space_app_r (a b : jsstring) :
  no_double_space (a ++ b) = true -> no_double_space b = true.
Proof.
  induction a as [|c a IH]; [auto|].
  intros H. apply IH. simpl app in H. cbn [no_double_space] in H.
  destruct (a ++ b); [reflexivity|].
  apply andb_true_iff in H. tauto.
Qed.

Lemma no_double_space_app_l (a b : jsstring) :
  no_double_space (a ++ b) = true -> no_double_space a = true.
Proof.
  induction a as [|c a IH]; [reflexivity|].
  simpl app. cbn [no_double_space].
  destruct a as [|c2 a]; [reflexivity|].
  simpl app in *. intros H. apply andb_true_iff in H. destruct H as [H1 H2].
  rewrite H1. apply IH, H2.
Qed.

Lemma trim_no_double_space (s : jsstring) :
  no_double_space s = true -> no_double_space (trim s) = true.
Proof.
  destruct (trim_middle s) as (pre & post & E). intros H.
  rewrite E in H. apply no_double_space_app_r in H.
  apply no_double_space_app_l in H. exact H.
Qed.

(** What [replace(/\s+/g, ' ')] leaves. *)
Lemma collapse_spaces_shape (s : jsstring) : forall in_run,
  no_double_space (collapse_spaces in_run s) = true
  /\ (in_run = true -> no_lead (collapse_spaces in_run s))
  /\ Forall (fun c => is_s c = true -> c = 32%N) (collapse_spaces in_run s).
Proof.
  induction s as [|c s IH]; intros in_run; simpl.
  - repeat split; constructor.
  - destruct (is_s c) eqn:E.
    + destruct (IH true) as (H1 & H2 & H3). specialize (H2 eq_refl).
      destruct in_run; [auto|].
      split; [|split; [discriminate|]].
      * cbn [no_double_space].
        destruct (collapse_spaces true s) as [|c2 t]; [reflexivity|].
        simpl in H2. rewrite H2, H1, andb_false_r. reflexivity.
      * constructor; auto.
    + destruct (IH false) as (H1 & _ & H3).
      split; [|split].
      * cbn [no_double_space].
        destruct (collapse_spaces false s); [reflexivity|].
        rewrite E, H1. reflexivity.
      * intros _. exact E.
      * constructor; [congruence | exact H3].
Qed.

Lemma collapse_spaces_forall (P : N -> Prop) (s : jsstring) :
  P 32%N -> Forall P s -> forall in_run, Forall P (collapse_spaces in_run s).
Proof.
  intros H32. induction 1 as [|c s Hc Hs IH]; intros in_run; simpl;
    [constructor|].
  destruct (is_s c); [destruct in_run|]; auto.
Qed.

Lemma collapse_spaces_id (s : jsstring) : forall in_run,
  (in_run = true -> no_lead s) ->
  Forall (fun c => is_s c = true -> c = 32%N) s ->
  no_double_space s = true ->
  collapse_spaces in_run s = s.
Proof.
  induction s as [|c s IH]; intros in_run Hl Hall Hnd; simpl; [reflexivity|].
  inversion Hall as [|? ? Hc Hs]; subst.
  assert (Hnd' : no_double_space s = true).
  { apply (no_double_space_app_r [c] s Hnd). }
  destruct (is_s c) eqn:E.
  - destruct in_run; [specialize (Hl eq_refl); simpl in Hl; congruence|].
    rewrite (Hc eq_refl). f_equal. apply IH; auto.
    intros _. cbn [no_double_space] in Hnd.
    destruct s as [|c2 s]; [exact I|]. simpl.
    rewrite E in Hnd. simpl in Hnd.
    destruct (is_s c2); [discriminate | reflexivity].
  - f_equal. apply IH; auto. discriminate.
Qed.

Lemma explicit_no_quote (s : jsstring) :
  FTS5_EXPLICIT_SYNTAX s = false ->
  flat_map (fun c => if (c =? 34)%N then [34%N; 34%N] else [c]) s = s
  /\ Forall (fun c => c <> 34%N) s.
Proof.
  unfold FTS5_EXPLICIT_SYNTAX. intros H.
  apply orb_false_iff in H. destruct H as [H _].
  apply orb_false_iff in H. destruct H as [H _].
  induction s as [|c s IH]; simpl; [split; [reflexivity | constructor]|].
  simpl in H. apply orb_false_iff in H. destruct H as [Hc Hs].
  apply orb_false_iff in Hc. destruct Hc as [Hc _].
  apply orb_false_iff in Hc. destruct Hc as [Hc _].
  destruct (IH Hs) as [E F]. rewrite Hc. simpl. rewrite E.
  split; [reflexivity|]. constructor; [|exact F].
  apply N.eqb_neq, Hc.
Qed.

Lemma replace_special_id (s : jsstring) :
  Forall (fun c => FTS5_SPECIAL_CHARS c = false) s ->
  map (fun c => if FTS5_SPECIAL_CHARS c then 32%N else c) s = s.
Proof.
  induction 1 as [|c s Hc _ IH]; simpl; [reflexivity|].
  rewrite Hc, IH. reflexivity.
Qed.

(** The text [sanitizeFTS5Query] works on when the query has no explicit
    syntax. *)
Lemma cleaned_plain (t : jsstring) :
  Forall (fun c => c <> 34%N) t ->
  let o := trim (collapse_spaces false
                   (map (fun c => if FTS5_SPECIAL_CHARS c then 32%N else c)
                      t)) in
  Forall plain_char o /\ no_double_space o = true.
Proof.
  intros Hq o.
  destruct (collapse_spaces_shape
              (map (fun c => if FTS5_SPECIAL_CHARS c then 32%N else c) t)
              false) as (H1 & _ & H3).
  split; [|apply trim_no_double_space, H1].
  apply trim_forall.
  assert (H4 : Forall (fun c => FTS5_SPECIAL_CHARS c = false /\ c <> 34%N)
                 (collapse_spaces false
                    (map (fun c => if FTS5_SPECIAL_CHARS c then 32%N else c)
                       t))).
  { apply collapse_spaces_forall; [split; [reflexivity | discriminate]|].
    apply Forall_map. revert Hq. apply Forall_impl. intros c Hc.
    destruct (FTS5_SPECIAL_CHARS c) eqn:E;
      [split; [reflexivity | discriminate] | split; assumption]. }
  rewrite Forall_forall in *. intros c Hc.
  destruct (H4 c Hc) as [A B]. split; [exact A|]. split; [exact B|].
  apply H3, Hc.
Qed.

(** The three forms of a sanitized query. *)
Lemma sanitize_cases (query : jsstring) :
  let o := sanitizeFTS5Query query in
  trimmed o
  /\ (o = []
      \/ (FTS5_EXPLICIT_SYNTAX (trim query) = true /\ o = trim query)
      \/ (FTS5_EXPLICIT_SYNTAX (trim query) = false
          /\ Forall plain_char o /\ no_double_space o = true)).
Proof.
  unfold sanitizeFTS5Query.
  destruct query as [|c q]; [split; [split; exact I | auto]|].
  set (t := trim (c :: q)).
  destruct (nonempty t); simpl; [|split; [split; exact I | auto]].
  destruct (FTS5_EXPLICIT_SYNTAX t) eqn:E.
  - split; [apply trim_trimmed | auto].
  - split; [apply trim_trimmed|]. right. right. split; [reflexivity|].
    destruct (explicit_no_quote t E) as [-> Hq].
    apply cleaned_plain, Hq.
Qed.

(** X18: [sanitizeFTS5Query] is idempotent: sanitizing a sanitized query
    changes nothing. *)
Theorem sanitizeFTS5Query_idempotent (query : jsstring) :
  sanitizeFTS5Query (sanitizeFTS5Query query) = sanitizeFTS5Query query.
Proof.
  destruct (sanitize_cases query) as [Ht Hc].
  set (o := sanitizeFTS5Query query) in *.
  assert (G : forall x, trimmed x ->
                (FTS5_EXPLICIT_SYNTAX x = false ->
                 Forall plain_char x /\ no_double_space x = true) ->
                sanitizeFTS5Query x = x).
  { intros x Hx Hp. unfold sanitizeFTS5Query.
    destruct x as [|c x]; [reflexivity|].
    rewrite (trim_id _ Hx). cbn [nonempty negb].
    destruct (FTS5_EXPLICIT_SYNTAX (c :: x)) eqn:E; [reflexivity|].
    destruct (Hp eq_refl) as [Hpl Hnd].
    destruct (explicit_no_quote _ E) as [-> _].
    rewrite replace_special_id.
    - rewrite collapse_spaces_id; [apply trim_id, Hx | discriminate | | exact Hnd].
      revert Hpl. apply Forall_impl. intros a (_ & _ & Ha). exact Ha.
    - revert Hpl. apply Forall_impl. intros a (Ha & _). exact Ha. }
  apply G; [exact Ht|].
  intros E. destruct Hc as [Hc|[[Hx Hc]|[_ Hc]]].
  - rewrite Hc. split; constructor.
  - rewrite Hc in E. congruence.
  - exact Hc.
Qed.

(** X19: what [sanitizeFTS5Query] returns has white space at neither end;
    a query with explicit syntax comes back trimmed and otherwise
    unchanged; in any other query no special character of FTS5 and no
    double quote is left, and white space is left as single spaces only. *)
Theorem sanitizeFTS5Query_output (query : jsstring) :
  let o := sanitizeFTS5Query query in
  trimmed o
  /\ (FTS5_EXPLICIT_SYNTAX (trim query) = true -> o = trim query)
  /\ (FTS5_EXPLICIT_SYNTAX (trim query) = false ->
      Forall plain_char o /\ no_double_space o = true).
Proof.
  intros o. destruct (sanitize_cases query) as [Ht Hc]. fold o in Ht, Hc.
  split; [exact Ht|]. split.
  - intros E. destruct Hc as [Hc|[[_ Hc]|[Hx _]]]; [|exact Hc|congruence].
    rewrite Hc. unfold o, sanitizeFTS5Query in Hc.
    destruct query as [|c q]; [reflexivity|].
    destruct (nonempty (trim (c :: q))) eqn:En; simpl in Hc.
    + rewrite E in Hc. symmetry. exact Hc.
    + destruct (trim (c :: q)); [reflexivity | discriminate].
  - intros E. destruct Hc as [Hc|[[Hx _]|[_ Hc]]]; [|congruence|exact Hc].
    rewrite Hc. split; constructor.
Qed.

(** ** Column searches *)

Lemma starts_with_app (p x : jsstring) : starts_with p (p ++ x) = true.
Proof.
  induction p as [|c p IH]; simpl; [reflexivity|].
  rewrite N.eqb_refl. exact IH.
Qed.

Lemma prefixed_is_explicit (p x : jsstring) :
  p = js "title:" \/ p = js "content:" ->
  FTS5_EXPLICIT_SYNTAX (p ++ x) = true.
Proof.
  intros Hp. unfold FTS5_EXPLICIT_SYNTAX.
  apply orb_true_iff. right.
  assert (Hl : List.length (p ++ x) = S (pred (List.length (p ++ x)))).
  { destruct Hp as [-> | ->]; reflexivity. }
  rewrite Hl. cbn [List.seq existsb skipn].
  unfold starts_with_ci. rewrite map_app.
  destruct Hp as [-> | ->].
  - rewrite starts_with_app. reflexivity.
  - rewrite (starts_with_app (map upper (js "content:"))).
    rewrite orb_true_r. reflexivity.
Qed.

Lemma prefixed_trimmed (p x : jsstring) :
  p = js "title:" \/ p = js "content:" -> trimmed x -> trimmed (p ++ x).
Proof.
  intros Hp [_ Hx]. split.
  - destruct Hp as [-> | ->]; reflexivity.
  - rewrite rev_app_distr.
    destruct (rev x) as [|c r]; [|exact Hx].
    destruct Hp as [-> | ->]; reflexivity.
Qed.

Lemma prefixed_sanitized (p : jsstring) (query : jsstring) :
  p = js "title:" \/ p = js "content:" ->
  sanitizeFTS5Query (p ++ sanitizeFTS5Query query)
  = p ++ sanitizeFTS5Query query.
Proof.
  intros Hp. destruct (sanitize_cases query) as [Ht _].
  set (x := sanitizeFTS5Query query) in *.
  pose proof (prefixed_trimmed p x Hp Ht) as Htr.
  pose proof (prefixed_is_explicit p x Hp) as He.
  unfold sanitizeFTS5Query.
  destruct (p ++ x) as [|c r] eqn:E.
  - destruct Hp as [-> | ->]; discriminate E.
  - rewrite (trim_id _ Htr). cbn [nonempty negb]. rewrite He. reflexivity.
Qed.

(** X20: [searchTitles] and [searchContent] of an initialized searcher
    always run their statement, a blank query included: the [MATCH] operand
    is [title:] or [content:] followed by the sanitized query, which the
    second sanitization inside [searchWithSnippets] leaves as it is. *)
Theorem column_searches_run (s : FTSSearcher) (query : jsstring)
  (options : option SearchOptions) :
  initialized s = true ->
  searchTitles s query options
  = engine_outcome true
      (db s (build_request true (js "title:" ++ sanitizeFTS5Query query)
               options))
  /\ searchContent s query options
     = engine_outcome true
         (db s (build_request true (js "content:" ++ sanitizeFTS5Query query)
                  options)).
Proof.
  intros Hi. unfold searchTitles, searchContent, searchWithSnippets, run_search.
  rewrite Hi. cbn [negb].
  rewrite !prefixed_sanitized by auto.
  split; reflexivity.
Qed.

Lemma column_searches_run_witness :
  searchTitles
    (mkFTSSearcher (failing_engine (Error (js "fts5: syntax error")))  true)
    (js "  ") None
  = engine_outcome true (Threw (Error (js "fts5: syntax error"))).
Proof.
  exact (proj1
           (column_searches_run
              (mkFTSSearcher
                 (failing_engine (Error (js "fts5: syntax error"))) true)
              (js "  ") None eq_refl)).
Defined.

End Sanitize.

(* ================================================================== *)
(** * Fusion: one record per hash, ranks, bounds of the normalized score *)
(* ================================================================== *)

Section FusionShape.
Import JsString Exn HybridSearch Props MoreProps.

Lemma keyed_map_set key value m :
  e_hash value = key -> keyed m -> keyed (map_set key value m).
Proof.
  intros <-. unfold keyed. induction m as [|[k v] m IH]; simpl; intros H.
  - repeat constructor.
  - inversion H; subst.
    destruct (jseqb (e_hash value) k) eqn:E; constructor; auto.
    apply jseqb_eq in E. simpl. congruence.
Qed.

Lemma keyed_map_get key m e :
  keyed m -> map_get key m = Some e -> e_hash e = key.
Proof.
  unfold keyed. induction m as [|[k v] m IH]; simpl; [discriminate|].
  intros H. inversion H as [|? ? Hk Hm]; subst. simpl in Hk.
  destruct (jseqb key k) eqn:E.
  - apply jseqb_eq in E. intros G. injection G as <-. congruence.
  - auto.
Qed.

Lemma keyed_foldi {A} (f : ScoreMap -> A -> Z -> ScoreMap) l :
  (forall m x i, keyed m -> keyed (f m x i)) ->
  forall i m, keyed m -> keyed (foldi f l i m).
Proof.
  intros H. induction l as [|x l IH]; intros i m Hm; simpl; auto.
Qed.

Lemma accumulate_keyed b v k : keyed (accumulate b v k).
Proof.
  unfold accumulate. apply keyed_foldi.
  - intros m x i Hm. rewrite add_vector_set. apply keyed_map_set; [|exact Hm].
    destruct (map_get (VectorSearch.hash x) m) as [ex|] eqn:G; simpl.
    + apply (keyed_map_get _ _ _ Hm G).
    + reflexivity.
  - apply keyed_foldi; [|constructor].
    intros m x i Hm. rewrite add_bm25_set. apply keyed_map_set; [|exact Hm].
    reflexivity.
Qed.

Lemma keyed_hashes m : keyed m -> map e_hash (map_values m) = map fst m.
Proof.
  unfold keyed, map_values. induction 1 as [|[k e] m Hk _ IH]; simpl;
    [reflexivity|].
  simpl in Hk. congruence.
Qed.

Lemma insert_desc_hashes_nodup x l :
  ~ In (e_hash x) (map e_hash l) -> NoDup (map e_hash l) ->
  NoDup (map e_hash (insert_desc x l)).
Proof.
  induction l as [|y l IH]; simpl; intros Hx Hl.
  - constructor; [tauto | constructor].
  - destruct (Qle_bool (e_rrfScore y) (e_rrfScore x)); simpl.
    + constructor; [exact Hx | exact Hl].
    + inversion Hl as [|? ? Hy Hl']; subst.
      constructor.
      * intros Hin. apply in_map_iff in Hin. destruct Hin as (z & Hz & Hin).
        apply insert_desc_in in Hin. destruct Hin as [->|Hin].
        -- apply Hx. left. symmetry. exact Hz.
        -- apply Hy. rewrite <- Hz. apply in_map, Hin.
      * apply IH; [tauto | exact Hl'].
Qed.

Lemma sort_desc_hashes_nodup l :
  NoDup (map e_hash l) -> NoDup (map e_hash (sort_desc l)).
Proof.
  induction l as [|x l IH]; simpl; intros H; [constructor|].
  inversion H as [|? ? Hx Hl]; subst.
  apply insert_desc_hashes_nodup; [|apply IH, Hl].
  intros Hin. apply Hx.
  apply in_map_iff in Hin. destruct Hin as (z & Hz & Hin).
  apply (proj1 (sort_desc_in _ _)) in Hin.
  rewrite <- Hz. apply in_map, Hin.
Qed.

Lemma mapi_finish_hashes mn rg l : forall i,
  map hash (mapi (finish mn rg) l i) = map e_hash l.
Proof.
  induction l as [|x l IH]; intros i; simpl; [reflexivity|].
  rewrite IH. reflexivity.
Qed.

Lemma mapi_finish_ranks mn rg l : forall i,
  map rank (mapi (finish mn rg) l i)
  = map (fun n => i + Z.of_nat n) (List.seq 1 (List.length l)).
Proof.
  induction l as [|x l IH]; intros i; simpl; [reflexivity|].
  rewrite IH. f_equal.
  rewrite <- (seq_shift (List.length l) 1), map_map.
  apply map_ext. intros n. lia.
Qed.

Lemma map_get_some_iff h m :
  map_get h m <> None <-> In h (map fst m).
Proof.
  induction m as [|[k v] m IH]; simpl; [tauto|].
  destruct (jseqb h k) eqn:E.
  - apply jseqb_eq in E. subst. split; [auto | discriminate].
  - apply jseqb_neq in E. rewrite IH. split; [auto|].
    intros [H|H]; [congruence | exact H].
Qed.

Lemma foldi_some_iff {A} (key : A -> jsstring)
  (entry : option ScoreEntry -> A -> Z -> ScoreEntry) h (l : list A) :
  forall i o,
    foldi (fun o x i => if jseqb h (key x) then Some (entry o x i) else o)
      l i o <> None
    <-> o <> None \/ In h (map key l).
Proof.
  induction l as [|x l IH]; intros i o; simpl; [tauto|].
  rewrite IH.
  destruct (jseqb h (key x)) eqn:E.
  - apply jseqb_eq in E. split; [auto|]. intros _. left. discriminate.
  - apply jseqb_neq in E. split; [tauto|].
    intros [H|[H|H]]; auto; congruence.
Qed.

Lemma under_some_iff h b v k :
  under h b v k <> None <-> In h (bm25_hashes b) \/ In h (vector_hashes v).
Proof.
  unfold under, bm25_hashes, vector_hashes.
  rewrite foldi_some_iff, foldi_some_iff. tauto.
Qed.

Lemma rrfFusion_hashes_eq b v k :
  map hash (rrfFusion b v k) = map e_hash (fused_of b v k).
Proof. rewrite rrfFusion_finish. apply mapi_finish_hashes. Qed.

(** X21: whatever the two candidate lists, [rrfFusion] returns one result
    per document hash, and the hashes of its results are exactly the hashes
    that occur in either list. *)
Theorem rrfFusion_one_result_per_hash (b : list FtsSearch.SearchResult)
  (v : list VectorSearch.VectorSearchResult) (k : Q) :
  NoDup (map hash (rrfFusion b v k))
  /\ forall h, In h (map hash (rrfFusion b v k))
               <-> In h (bm25_hashes b) \/ In h (vector_hashes v).
Proof.
  rewrite rrfFusion_hashes_eq. unfold fused_of.
  pose proof (keyed_hashes _ (accumulate_keyed b v k)) as Hk.
  split.
  - apply sort_desc_hashes_nodup. rewrite Hk. apply accumulate_keys_nodup.
  - intros h. rewrite <- under_some_iff, <- map_get_accumulate,
      map_get_some_iff, <- Hk.
    rewrite !in_map_iff. split; intros (e & He & Hin); exists e;
      (split; [exact He|]); apply sort_desc_in; exact Hin.
Qed.

(** X22: the [rank] fields of the results of [rrfFusion] are 1, 2, 3, ... in
    list order, that is in descending order of [rrfScore]. *)
Theorem rrfFusion_ranks (b : list FtsSearch.SearchResult)
  (v : list VectorSearch.VectorSearchResult) (k : Q) :
  ranked_from_one rank (rrfFusion b v k).
Proof.
  unfold ranked_from_one.
  rewrite rrfFusion_finish, mapi_finish_ranks, mapi_length.
  apply map_ext. intros n. lia.
Qed.

(** The raw scores of the fused entries lie between the last and the first
    one, which are the minimum and the maximum [rrfFusion] normalizes
    with. *)
Lemma fused_between b v k x rest :
  (0 < k)%Q -> fused_of b v k = x :: rest ->
  min_of (x :: rest) = e_rrfScore (last rest x)
  /\ max_of (x :: rest) = e_rrfScore x
  /\ forall e, In e (x :: rest) ->
       (e_rrfScore (last rest x) <= e_rrfScore e <= e_rrfScore x)%Q.
Proof.
  intros Hk Ef.
  pose proof (sort_desc_sorted (map_values (accumulate b v k))) as Hs.
  pose proof (fused_positive b v k) as Hpos.
  fold (fused_of b v k) in Hs. rewrite Ef in *.
  split; [|split].
  - unfold min_of. destruct (rev_cons_last x rest) as (t' & ->).
    apply or_default_pos, Hpos; [exact Hk | apply last_in].
  - unfold max_of. apply or_default_pos, Hpos; [exact Hk | left; reflexivity].
  - intros e He. split.
    + apply sorted_last_min; assumption.
    + apply (sorted_head_max x rest); assumption.
Qed.

Lemma normalized_in_range (s mn mx : Q) :
  (mn <= s <= mx)%Q ->
  (0 <= (s - mn) / or_default (mx - mn) 1 * 100 <= 100)%Q.
Proof.
  intros [Hlo Hhi]. unfold or_default.
  destruct (Qeq_bool (mx - mn) 0) eqn:E.
  - apply Qeq_bool_iff in E.
    assert (H0 : (s - mn == 0)%Q) by lra.
    rewrite H0. split; [|]; unfold Qdiv; rewrite !Qmult_0_l; lra.
  - apply Qeq_bool_neq in E.
    assert (Hr : (0 < mx - mn)%Q).
    { destruct (Qlt_le_dec 0 (mx - mn)) as [H|H]; [exact H|].
      exfalso. apply E. lra. }
    assert (H1 : (0 <= (s - mn) / (mx - mn))%Q).
    { apply Qle_shift_div_l; [exact Hr | lra]. }
    assert (H2 : ((s - mn) / (mx - mn) <= 1)%Q).
    { apply Qle_shift_div_r; [exact Hr | lra]. }
    set (t := ((s - mn) / (mx - mn))%Q) in *. lra.
Qed.

Lemma normalized_of_fused b v k r :
  (0 < k)%Q -> In r (rrfFusion b v k) ->
  (0 <= normalizedScore r <= 100)%Q.
Proof.
  intros Hk Hr. rewrite rrfFusion_finish in Hr.
  destruct (mapi_in _ _ _ _ Hr) as (e & j & He & ->). simpl.
  destruct (fused_of b v k) as [|x rest] eqn:Ef; [destruct He|].
  destruct (fused_between b v k x rest Hk Ef) as (-> & -> & Hb).
  apply normalized_in_range, Hb, He.
Qed.

(** X23: for a positive [k], the [normalizedScore] of every result of
    [rrfFusion] lies between 0 and 100. *)
Theorem rrfFusion_normalized_range (b : list FtsSearch.SearchResult)
  (v : list VectorSearch.VectorSearchResult) (k : Q)
  (r : HybridSearchResult) :
  (0 < k)%Q -> In r (rrfFusion b v k) ->
  (0 <= normalizedScore r <= 100)%Q.
Proof. apply normalized_of_fused. Qed.

Lemma rrfFusion_normalized_range_witness :
  exists r,
    In r (rrfFusion demo_bm25 demo_vector 60)
    /\ (0 <= normalizedScore r <= 100)%Q.
Proof.
  eexists. split.
  - vm_compute. left. reflexivity.
  - apply (rrfFusion_normalized_range demo_bm25 demo_vector 60).
    + reflexivity.
    + vm_compute. left. reflexivity.
Defined.

End FusionShape.

(* ================================================================== *)
(** * What [search] of the hybrid searcher returns and throws *)
(* ================================================================== *)

Section HybridOutcome.
Import JsString Exn HybridSearch Props MoreProps.

Lemma sorted_filter {A} (R : A -> A -> Prop) (f : A -> bool) l :
  StronglySorted R l -> StronglySorted R (filter f l).
Proof.
  induction 1 as [|x l Hs IH Hall]; simpl; [constructor|].
  destruct (f x); [|exact IH].
  constructor; [exact IH|].
  rewrite Forall_forall in *. intros y Hy. apply filter_In in Hy.
  apply Hall. tauto.
Qed.

Lemma sorted_firstn {A} (R : A -> A -> Prop) n l :
  StronglySorted R l -> StronglySorted R (firstn n l).
Proof.
  intros Hs. revert n. induction Hs as [|x l Hs IH Hall]; intros [|n]; simpl;
    try constructor.
  - apply IH.
  - rewrite Forall_forall in *. intros y Hy. apply Hall.
    apply (in_firstn _ _ _ Hy).
Qed.

Lemma nodup_firstn {A} n (l : list A) : NoDup l -> NoDup (firstn n l).
Proof.
  intros H. revert n. induction H as [|x l Hx Hl IH]; intros [|n]; simpl;
    try constructor.
  - intros Hin. apply Hx. apply (in_firstn _ _ _ Hin).
  - apply IH.
Qed.

Lemma nodup_map_filter {A B} (g : A -> B) (f : A -> bool) l :
  NoDup (map g l) -> NoDup (map g (filter f l)).
Proof.
  induction l as [|x l IH]; simpl; intros H; [constructor|].
  inversion H as [|? ? Hx Hl]; subst.
  destruct (f x); simpl; [|apply IH, Hl].
  constructor; [|apply IH, Hl].
  intros Hin. apply Hx. apply in_map_iff in Hin.
  destruct Hin as (y & Hy & Hin). apply filter_In in Hin.
  rewrite <- Hy. apply in_map. tauto.
Qed.

Lemma nodup_filtered_and_limited options results :
  NoDup (map hash results) ->
  NoDup (map hash (filtered_and_limited options results)).
Proof.
  intros H. unfold filtered_and_limited, slice0.
  destruct (limit_of options <? 0); rewrite <- firstn_map;
    apply nodup_firstn; destruct (minScore options);
    auto using nodup_map_filter.
Qed.

Lemma sorted_filtered_and_limited options results :
  StronglySorted by_score_desc results ->
  StronglySorted by_score_desc (filtered_and_limited options results).
Proof.
  intros Hs. unfold filtered_and_limited, slice0.
  destruct (limit_of options <? 0); apply sorted_firstn;
    destruct (minScore options); auto using sorted_filter.
Qed.

Lemma length_filtered_and_limited options results :
  0 <= limit_of options ->
  Z.of_nat (List.length (filtered_and_limited options results))
  <= limit_of options.
Proof.
  intros Hl. unfold filtered_and_limited, slice0.
  destruct (limit_of options <? 0) eqn:E; [lia|].
  rewrite length_firstn. lia.
Qed.

Lemma score_filtered_and_limited options results ms r :
  minScore options = Some ms ->
  In r (filtered_and_limited options results) ->
  (ms <= normalizedScore r)%Q.
Proof.
  intros Hms. unfold filtered_and_limited, slice0. rewrite Hms. intros H.
  destruct (limit_of options <? 0); apply in_firstn in H;
    apply filter_In in H; apply Qle_bool_iff; tauto.
Qed.

(** What [search] returns when it returns: nothing, or the fused candidates
    of two lists after the filter and the limit, [rrfK] being positive. *)
Lemma search_returned s first query options rs log :
  search s first query options = (Returned rs, log) ->
  (0 < rrfK_of options)%Q
  /\ (rs = []
      \/ exists b v,
           rs = filtered_and_limited options (rrfFusion b v (rrfK_of options))).
Proof.
  unfold search.
  destruct (negb (enableBM25_of options) && negb (enableVector_of options));
    [discriminate|].
  destruct (Qle_bool (rrfK_of options) 0) eqn:Ek; [discriminate|].
  assert (Hk : (0 < rrfK_of options)%Q).
  { apply Qnot_le_lt. intros H. apply Qle_bool_iff in H. congruence. }
  destruct (if enableVector_of options
            then executeVectorSearch s query (vector_options options)
            else VectorSearch.ret None) as [p2 log'].
  destruct (promise_all first _ p2) as [[bm vr]|e]; [|discriminate].
  unfold fuse_and_filter.
  destruct (negb (has_results bm) && negb (has_results vr)).
  - destruct (is_fail (fallbackStrategy s)); [discriminate|].
    intros H. injection H as <- _. auto.
  - intros H. injection H as <- _. split; [exact Hk|]. right.
    exists (or_empty bm), (or_empty vr). reflexivity.
Qed.

(** X24: what [search] returns has at most [limit] results (for a limit that
    is not negative), each with a [normalizedScore] between 0 and 100 and
    not below [minScore] when one is given, in descending order of
    [rrfScore], and no two of them for the same document hash. *)
Theorem hybrid_search_results (s : HybridSearcher) (first : Branch)
  (query : jsstring) (options : HybridSearchOptions)
  (rs : list HybridSearchResult) (log : list VectorSearch.EmbedderCall) :
  search s first query options = (Returned rs, log) ->
  (0 <= limit_of options -> Z.of_nat (List.length rs) <= limit_of options)
  /\ (forall r, In r rs ->
        (0 <= normalizedScore r <= 100)%Q
        /\ forall ms, minScore options = Some ms ->
                      (ms <= normalizedScore r)%Q)
  /\ StronglySorted by_score_desc rs
  /\ NoDup (map hash rs).
Proof.
  intros H. destruct (search_returned _ _ _ _ _ _ H) as (Hk & [->|(b & v & ->)]).
  - split; [simpl; lia|]. split; [intros r []|]. split; constructor.
  - split; [apply length_filtered_and_limited|]. split; [|split].
    + intros r Hr. split.
      * apply in_filtered_and_limited in Hr.
        apply (normalized_of_fused _ _ _ _ Hk Hr).
      * intros ms Hms. apply (score_filtered_and_limited _ _ _ _ Hms Hr).
    + apply sorted_filtered_and_limited, rrfFusion_sorted.
    + apply nodup_filtered_and_limited.
      rewrite rrfFusion_hashes_eq. unfold fused_of.
      apply sort_desc_hashes_nodup.
      rewrite (keyed_hashes _ (accumulate_keyed b v (rrfK_of options))).
      apply accumulate_keys_nodup.
Qed.

Lemma hybrid_search_results_witness :
  exists rs,
    search lexical_down BM25 (js "cats") no_options
    = (Returned rs,
       [VectorSearch.CallIsAvailable;
        VectorSearch.CallGenerateEmbedding (js "cats")])
    /\ Z.of_nat (List.length rs) <= 10
    /\ StronglySorted by_score_desc rs.
Proof.
  edestruct (hybrid_search_results lexical_down BM25 (js "cats") no_options)
    as (H1 & _ & H3 & _).
  - vm_compute. reflexivity.
  - eexists. split; [vm_compute; reflexivity|].
    split; [apply H1; vm_compute; discriminate | exact H3].
Defined.

(** A branch of [search] throws only in fail mode, and then what its
    searcher threw. *)
Lemma executeBM25Search_threw s query options e :
  executeBM25Search s query options = Threw e ->
  is_SearchError e /\ fallbackStrategy s = fail.
Proof.
  unfold executeBM25Search, FtsSearch.search.
  destruct (FtsSearch.run_search false (ftsSearcher s) query (Some options))
    as [r|x] eqn:E; [discriminate|].
  destruct (fallbackStrategy s); simpl; [|discriminate].
  intros H. injection H as <-. split; [|reflexivity].
  destruct (run_search_threw _ _ _ _ _ E) as (m & [->| ->]); exact I.
Qed.

Lemma executeVectorSearch_threw s query options e log :
  executeVectorSearch s query options = (Threw e, log) ->
  is_VectorSearchError e /\ fallbackStrategy s = fail.
Proof.
  unfold executeVectorSearch.
  destruct (VectorSearch.search (vectorSearcher s) query (Some options))
    as [[r|x] l] eqn:E; [discriminate|].
  destruct (fallbackStrategy s); simpl; [|discriminate].
  intros H. injection H as <- _. split; [|reflexivity].
  apply (vector_search_threw _ _ _ _ _ E).
Qed.

(** X25: whatever the two searchers and the embedding service do, what
    [search] throws is an instance of one of the three error classes of the
    searchers, an error of the lexical or of the vector searcher only in
    fail mode; in graceful mode [search] throws for invalid options only,
    before any call to the embedding service. *)
Theorem hybrid_search_errors (s : HybridSearcher) (first : Branch)
  (query : jsstring) (options : HybridSearchOptions) (e : exn)
  (log : list VectorSearch.EmbedderCall) :
  search s first query options = (Threw e, log) ->
  (is_HybridSearchError e
   \/ (fallbackStrategy s = fail
       /\ (is_SearchError e \/ is_VectorSearchError e)))
  /\ (fallbackStrategy s = graceful ->
      code_of e = Some INVALID_OPTIONS /\ is_HybridSearchError e /\ log = []).
Proof.
  unfold search.
  destruct (negb (enableBM25_of options) && negb (enableVector_of options)).
  { intros H. injection H as <- <-. simpl. auto. }
  destruct (Qle_bool (rrfK_of options) 0).
  { intros H. injection H as <- <-. simpl. auto. }
  set (p1 := if enableBM25_of options
             then executeBM25Search s query (bm25_options options)
             else Returned None).
  assert (H1 : forall x, p1 = Threw x ->
                         is_SearchError x /\ fallbackStrategy s = fail).
  { unfold p1. destruct (enableBM25_of options); [|discriminate].
    intros x. apply executeBM25Search_threw. }
  destruct (if enableVector_of options
            then executeVectorSearch s query (vector_options options)
            else VectorSearch.ret None) as [p2 log'] eqn:E2.
  assert (H2 : forall x, p2 = Threw x ->
                         is_VectorSearchError x /\ fallbackStrategy s = fail).
  { destruct (enableVector_of options).
    - intros x ->. apply (executeVectorSearch_threw _ _ _ _ _ E2).
    - injection E2 as <- _. discriminate. }
  clearbody p1.
  assert (Hf : forall x, fallbackStrategy s = fail ->
                 (is_SearchError x \/ is_VectorSearchError x) ->
                 (is_HybridSearchError x
                  \/ fallbackStrategy s = fail
                     /\ (is_SearchError x \/ is_VectorSearchError x))
                 /\ (fallbackStrategy s = graceful ->
                     code_of x = Some INVALID_OPTIONS
                     /\ is_HybridSearchError x /\ log = [])).
  { intros x Hs Hx. split; [auto | congruence]. }
  destruct p1 as [a|x1], p2 as [b|x2]; simpl.
  - unfold fuse_and_filter.
    destruct (negb (has_results a) && negb (has_results b)); [|discriminate].
    destruct (fallbackStrategy s) eqn:Es; simpl; [|discriminate].
    intros H. injection H as <- _. split; [left; exact I | discriminate].
  - intros H. injection H as <- _.
    destruct (H2 _ eq_refl). apply Hf; auto.
  - intros H. injection H as <- _.
    destruct (H1 _ eq_refl). apply Hf; auto.
  - intros H. injection H as <- _.
    destruct (H1 _ eq_refl), (H2 _ eq_refl).
    destruct first; apply Hf; auto.
Qed.

Lemma hybrid_search_errors_witness :
  exists e,
    search lexical_down BM25 (js "cats")
      (mkHybridSearchOptions None None None (Some 0%Q) None None None)
    = (Threw e, [])
    /\ code_of e = Some INVALID_OPTIONS.
Proof.
  eexists. split; [vm_compute; reflexivity|].
  refine (proj1 (proj2
                   (hybrid_search_errors lexical_down BM25 (js "cats")
                      (mkHybridSearchOptions None None None (Some 0%Q) None
                         None None) _ [] eq_refl) eq_refl)).
Defined.

End HybridOutcome.

(* ================================================================== *)
(** * Fallback: what a single surviving branch gives *)
(* ================================================================== *)

Section Fallback.
Import JsString Exn HybridSearch Props MoreProps HybridCases.

Lemma last_at_cons_here {A} (key : A -> jsstring) (x : A) (l : list A) :
  ~ In (key x) (map key l) -> last_at key (x :: l) (key x) 0 x.
Proof.
  intros Hn. split; [reflexivity|]. split; [reflexivity|].
  intros [|j] y Hj Hy; [lia|]. simpl in Hy. intros E. apply Hn.
  rewrite <- E. apply in_map. apply (nth_error_In _ _ Hy).
Qed.

Lemma last_at_cons_later {A} (key : A -> jsstring) (x : A) (l : list A) h i y :
  last_at key l h i y -> last_at key (x :: l) h (S i) y.
Proof.
  intros (H1 & H2 & H3). split; [exact H1|]. split; [exact H2|].
  intros [|j] z Hj Hz; [lia|]. simpl in Hz. apply (H3 j z); [lia | exact Hz].
Qed.

Lemma first_at_cons_here {A} (key : A -> jsstring) (x : A) (l : list A) :
  first_at key (x :: l) (key x) 0 x.
Proof.
  split; [reflexivity|]. split; [reflexivity|]. intros j y Hj. lia.
Qed.

Lemma first_at_cons_later {A} (key : A -> jsstring) (x : A) (l : list A) h i y :
  key x <> h -> first_at key l h i y -> first_at key (x :: l) h (S i) y.
Proof.
  intros Hx (H1 & H2 & H3). split; [exact H1|]. split; [exact H2|].
  intros [|j] z Hj Hz.
  - simpl in Hz. injection Hz as <-. exact Hx.
  - simpl in Hz. apply (H3 j z); [lia | exact Hz].
Qed.

(** The lexical loop leaves under a hash the entry of the last result with
    that hash. *)
Lemma foldi_bm25_at k h b : forall i0 o0,
  let res := foldi (fun o x i => if jseqb h (FtsSearch.hash x)
                                 then Some (entry_b k x i) else o) b i0 o0 in
  (~ In h (bm25_hashes b) /\ res = o0)
  \/ exists i x, last_at FtsSearch.hash b h i x
       /\ res = Some (entry_b k x (i0 + Z.of_nat i)).
Proof.
  induction b as [|x b IH]; intros i0 o0; simpl.
  - left. split; [tauto | reflexivity].
  - destruct (IH (i0 + 1)
                (if jseqb h (FtsSearch.hash x) then Some (entry_b k x i0)
                 else o0)) as [[Hn Hres]|(i & y & Hl & Hres)];
      simpl in Hres.
    + destruct (jseqb h (FtsSearch.hash x)) eqn:E.
      * apply jseqb_eq in E. subst h. right. exists 0%nat, x.
        split; [apply last_at_cons_here, Hn|].
        rewrite Hres. do 2 f_equal. lia.
      * apply jseqb_neq in E. left. split; [|exact Hres].
        intros [H|H]; [congruence | tauto].
    + right. exists (S i), y. split; [apply last_at_cons_later, Hl|].
      rewrite Hres. do 2 f_equal. lia.
Qed.

(** The vector loop leaves under a hash the similarity and the rank of the
    last result with that hash, on the entry the hash had or on one made of
    the first result with that hash. *)
Lemma foldi_vector_at k h v : forall i0 o0,
  let res := foldi (fun o x i => if jseqb h (VectorSearch.hash x)
                                 then Some (entry_v k o x i) else o) v i0 o0 in
  (~ In h (vector_hashes v) /\ res = o0)
  \/ exists i x e,
       last_at VectorSearch.hash v h i x /\ res = Some e
       /\ e_similarity e = Some (VectorSearch.similarity x)
       /\ e_vectorRank e = Some (i0 + Z.of_nat i + 1)
       /\ match o0 with
          | Some ex => same_origin e ex
          | None => vector_origin v h e
          end.
Proof.
  induction v as [|x v IH]; intros i0 o0; simpl.
  - left. split; [tauto | reflexivity].
  - destruct (jseqb h (VectorSearch.hash x)) eqn:E.
    + apply jseqb_eq in E. subst h.
      destruct (IH (i0 + 1) (Some (entry_v k o0 x i0)))
        as [[Hn Hres]|(i & y & e & Hl & Hres & Hs & Hr & Ho)];
        simpl in Hres; right.
      * exists 0%nat, x, (entry_v k o0 x i0).
        split; [apply last_at_cons_here, Hn|]. split; [exact Hres|].
        destruct o0 as [ex|]; simpl.
        -- split; [reflexivity|]. split; [f_equal; lia|].
           repeat split; reflexivity.
        -- split; [reflexivity|]. split; [f_equal; lia|].
           exists 0%nat, x. split; [apply first_at_cons_here|].
           repeat split; reflexivity.
      * exists (S i), y, e. split; [apply last_at_cons_later, Hl|].
        split; [exact Hres|]. split; [exact Hs|].
        split; [rewrite Hr; f_equal; lia|].
        destruct Ho as (O1 & O2 & O3 & O4 & O5 & O6).
        destruct o0 as [ex|]; simpl in *.
        -- repeat split; assumption.
        -- exists 0%nat, x. split; [apply first_at_cons_here|].
           repeat split; assumption.
    + apply jseqb_neq in E.
      destruct (IH (i0 + 1) o0)
        as [[Hn Hres]|(i & y & e & Hl & Hres & Hs & Hr & Ho)];
        simpl in Hres.
      * left. split; [|exact Hres]. intros [H|H]; [congruence | tauto].
      * right. exists (S i), y, e. split; [apply last_at_cons_later, Hl|].
        split; [exact Hres|]. split; [exact Hs|].
        split; [rewrite Hr; f_equal; lia|].
        destruct o0 as [ex|]; [exact Ho|].
        destruct Ho as (j & z & Hf & Hrest).
        exists (S j), z. split; [|exact Hrest].
        apply first_at_cons_later; [congruence | exact Hf].
Qed.

(** A hash that occurs once in a list contributes for that position. *)
Lemma contributions_from_absent k hashes h : forall r,
  ~ In h hashes -> (contributions_from k hashes h r == 0)%Q.
Proof.
  induction hashes as [|x l IH]; intros r Hn; simpl; [reflexivity|].
  destruct (jseqb h x) eqn:E.
  - apply jseqb_eq in E. exfalso. apply Hn. left. congruence.
  - rewrite IH; [ring | intros H; apply Hn; right; exact H].
Qed.

Lemma contributions_from_once k hashes h : forall i r,
  NoDup hashes -> nth_error hashes i = Some h ->
  (contributions_from k hashes h r == 1 / (k + inject_Z (r + Z.of_nat i)))%Q.
Proof.
  induction hashes as [|x l IH]; intros i r Hnd Hi.
  - destruct i; discriminate.
  - inversion Hnd as [|? ? Hx Hl]; subst. destruct i as [|i]; simpl in *.
    + injection Hi as ->. rewrite jseqb_refl.
      rewrite contributions_from_absent by exact Hx.
      replace (r + 0) with r by lia. ring.
    + destruct (jseqb h x) eqn:E.
      * apply jseqb_eq in E. subst x. exfalso. apply Hx.
        apply (nth_error_In _ _ Hi).
      * rewrite (IH i (r + 1) Hl Hi).
        replace (r + 1 + Z.of_nat i) with (r + Z.pos (Pos.of_succ_nat i))
          by lia.
        ring.
Qed.

Lemma rrfFusion_in_finish b v k r :
  In r (rrfFusion b v k) ->
  exists e mn rg j,
    In e (map_values (accumulate b v k)) /\ r = finish mn rg e j.
Proof.
  rewrite rrfFusion_finish. intros H.
  destruct (mapi_in _ _ _ _ H) as (e & j & He & ->).
  apply (proj1 (sort_desc_in _ _)) in He.
  exists e. do 3 eexists. split; [exact He | reflexivity].
Qed.

Lemma rrfFusion_from_lexical br k r :
  In r (rrfFusion br [] k) -> from_lexical k br r.
Proof.
  intros Hr.
  destruct (rrfFusion_in_finish _ _ _ _ Hr) as (e & mn & rg & j & He & ->).
  destruct (value_under _ _ _ _ He) as (key & Hu).
  unfold under in Hu. simpl foldi at 1 in Hu.
  destruct (foldi_bm25_at k key br 0 None) as [[_ Hres]|(i & x & Hl & Hres)];
    simpl in Hres; rewrite Hu in Hres; [discriminate|].
  injection Hres as ->. simpl.
  exists i, x. destruct Hl as (L1 & L2 & L3). subst key.
  split; [split; [exact L1 | split; [reflexivity | exact L3]]|].
  unfold rrfContribution. repeat split; reflexivity.
Qed.

Lemma rrfFusion_from_vector vr k r :
  In r (rrfFusion [] vr k) -> from_vector k vr r.
Proof.
  intros Hr.
  destruct (rrfFusion_in_finish _ _ _ _ Hr) as (e & mn & rg & j & He & ->).
  destruct (value_under _ _ _ _ He) as (key & Hu).
  unfold under in Hu. simpl foldi at 2 in Hu.
  destruct (foldi_vector_sum k key vr 0 None I) as [_ Hsum].
  simpl in Hsum. rewrite Hu in Hsum. simpl in Hsum.
  destruct (foldi_vector_at k key vr 0 None)
    as [[_ Hres]|(i & x & e' & Hl & Hres & Hs & Hrk & Ho)];
    simpl in Hres; rewrite Hu in Hres; [discriminate|].
  injection Hres as <-.
  destruct Ho as (j' & y & Hf & O1 & O2 & O3 & O4 & O5 & O6).
  assert (Hkey : e_hash e = key).
  { rewrite O1. apply Hf. }
  unfold from_vector. simpl. rewrite Hkey.
  assert (Hscore : (e_rrfScore e
                    == contributions_from k (vector_hashes vr) key 1)%Q).
  { rewrite Hsum. ring. }
  split; [|split; [|split; assumption]].
  - exists i, x. split; [exact Hl|]. split; [exact Hs|].
    split; [rewrite Hrk; f_equal; lia|].
    intros Hnd. rewrite Hscore.
    rewrite (contributions_from_once k (vector_hashes vr) key i 1 Hnd).
    + replace (1 + Z.of_nat i) with (Z.of_nat i + 1) by lia. reflexivity.
    + unfold vector_hashes. rewrite nth_error_map.
      destruct Hl as (L1 & L2 & _). rewrite L1. simpl. congruence.
  - exists j', y. split; [exact Hf|]. repeat split; assumption.
Qed.

Lemma fused_one_per_hash b v k :
  one_per_hash (bm25_hashes b ++ vector_hashes v) (rrfFusion b v k).
Proof.
  unfold one_per_hash. rewrite rrfFusion_hashes_eq. unfold fused_of.
  pose proof (keyed_hashes _ (accumulate_keyed b v k)) as Hk.
  split.
  - apply sort_desc_hashes_nodup. rewrite Hk. apply accumulate_keys_nodup.
  - intros h. rewrite in_app_iff, <- under_some_iff, <- map_get_accumulate,
      map_get_some_iff, <- Hk.
    rewrite !in_map_iff. split; intros (e & He & Hin); exists e;
      (split; [exact He|]); apply sort_desc_in; exact Hin.
Qed.

Lemma rrfFusion_lexical_flow br k : lexical_flow k br (rrfFusion br [] k).
Proof.
  split; [|split].
  - pose proof (fused_one_per_hash br [] k) as H.
    simpl in H. rewrite app_nil_r in H. exact H.
  - apply rrfFusion_sorted.
  - intros r. apply rrfFusion_from_lexical.
Qed.

Lemma rrfFusion_vector_flow vr k : vector_flow k vr (rrfFusion [] vr k).
Proof.
  split; [|split].
  - apply (fused_one_per_hash [] vr k).
  - apply rrfFusion_sorted.
  - intros r. apply rrfFusion_from_vector.
Qed.

(** Without a minimum score and with a limit that is not below their number,
    all fused results are returned. *)
Lemma filtered_and_limited_all options results :
  minScore options = None ->
  Z.of_nat (List.length results) <= limit_of options ->
  filtered_and_limited options results = results.
Proof.
  intros Hms Hl. unfold filtered_and_limited, slice0. rewrite Hms.
  destruct (limit_of options <? 0) eqn:E; [lia|].
  apply firstn_all2. lia.
Qed.

(** C7: with both branches enabled and a positive [rrfK].  In graceful
    mode a branch that throws contributes nothing and nothing is thrown:
    [search] returns the fusion of the other branch's results, cut by the
    minimum-score filter and the limit, and all of it when no minimum score
    is given and the limit is not below their number.  That fusion has one
    result for each document of the surviving list and for no other, best
    fused score first; each result carries the document, the score and the
    rank its document has in the surviving list, [1 / (k + rank)] as fused
    score (for the vector list: when it names the document once), and no
    field of the other method.  When neither branch yields a candidate the
    result is the empty list.  In fail mode the error of a throwing branch
    is the error of the search, and two empty branches raise
    [NO_RESULTS]. *)
Theorem hybrid_search_fallback (s : HybridSearcher) (first : Branch)
  (query : jsstring) (options : HybridSearchOptions)
  (log : list VectorSearch.EmbedderCall) :
  enableBM25_of options = true -> enableVector_of options = true ->
  (0 < rrfK_of options)%Q ->
  let lexical :=
    FtsSearch.search (ftsSearcher s) query (Some (bm25_options options)) in
  let semantic :=
    VectorSearch.search (vectorSearcher s) query
      (Some (vector_options options)) in
  let k := rrfK_of options in
  (fallbackStrategy s = graceful ->
   (forall e vr,
      lexical = Threw e -> semantic = (Returned vr, log) ->
      let fused := rrfFusion [] vr k in
      search s first query options
      = (Returned (filtered_and_limited options fused), log)
      /\ vector_flow k vr fused
      /\ (minScore options = None ->
          Z.of_nat (List.length fused) <= limit_of options ->
          search s first query options = (Returned fused, log))
      /\ forall r, In r (filtered_and_limited options fused) ->
                   vector_only r /\ from_vector k vr r)
   /\ (forall e br,
        lexical = Returned br -> semantic = (Threw e, log) ->
        let fused := rrfFusion br [] k in
        search s first query options
        = (Returned (filtered_and_limited options fused), log)
        /\ lexical_flow k br fused
        /\ (minScore options = None ->
            Z.of_nat (List.length fused) <= limit_of options ->
            search s first query options = (Returned fused, log))
        /\ forall r, In r (filtered_and_limited options fused) ->
                     lexical_only r /\ from_lexical k br r)
   /\ ((lexical = Returned [] \/ exists e, lexical = Threw e) ->
       (semantic = (Returned [], log) \/ exists e, semantic = (Threw e, log)) ->
       search s first query options = (Returned [], log)))
  /\ (fallbackStrategy s = fail ->
      (forall e vr,
         lexical = Threw e -> semantic = (Returned vr, log) ->
         search s first query options = (Threw e, log))
      /\ (forall e br,
           lexical = Returned br -> semantic = (Threw e, log) ->
           search s first query options = (Threw e, log))
      /\ (forall e1 e2,
           lexical = Threw e1 -> semantic = (Threw e2, log) ->
           search s first query options
           = (Threw match first with BM25 => e1 | Vector => e2 end, log))
      /\ (lexical = Returned [] -> semantic = (Returned [], log) ->
          exists m,
            search s first query options
            = (Threw (HybridSearchError m NO_RESULTS), log))).
Proof.
  intros Hb Hv Hk lexical semantic k. subst k.
  assert (Hk' : Qle_bool (rrfK_of options) 0 = false).
  { destruct (Qle_bool (rrfK_of options) 0) eqn:E; [|reflexivity].
    apply Qle_bool_iff in E. lra. }
  assert (Hsearch :
    search s first query options
    = let p1 := executeBM25Search s query (bm25_options options) in
      let '(p2, lg) := executeVectorSearch s query (vector_options options) in
      match promise_all first p1 p2 with
      | Threw e => (Threw e, lg)
      | Returned (bm25Results, vectorResults) =>
          (fuse_and_filter (fallbackStrategy s) options bm25Results
             vectorResults, lg)
      end).
  { unfold search. rewrite Hb, Hv, Hk'. reflexivity. }
  rewrite Hsearch. clear Hsearch.
  unfold executeBM25Search, executeVectorSearch.
  fold lexical. fold semantic.
  split; intros Hst; rewrite Hst; simpl.
  - split; [|split].
    + intros e vr -> ->. simpl.
      rewrite fuse_and_filter_graceful. simpl.
      split; [reflexivity|].
      split; [apply rrfFusion_vector_flow|]. split.
      * intros Hms Hl. rewrite filtered_and_limited_all by assumption.
        reflexivity.
      * intros r Hr. apply in_filtered_and_limited in Hr. split.
        -- eapply rrfFusion_vector_only, Hr.
        -- apply rrfFusion_from_vector, Hr.
    + intros e br -> ->. simpl.
      rewrite fuse_and_filter_graceful. simpl.
      split; [reflexivity|].
      split; [apply rrfFusion_lexical_flow|]. split.
      * intros Hms Hl. rewrite filtered_and_limited_all by assumption.
        reflexivity.
      * intros r Hr. apply in_filtered_and_limited in Hr. split.
        -- eapply rrfFusion_lexical_only, Hr.
        -- apply rrfFusion_from_lexical, Hr.
    + intros [->|(e & ->)] [->|(e' & ->)]; reflexivity.
  - split; [|split; [|split]].
    + intros e vr -> ->. reflexivity.
    + intros e br -> ->. reflexivity.
    + intros e1 e2 -> ->. reflexivity.
    + intros -> ->. eexists. reflexivity.
Qed.

Lemma hybrid_search_fallback_witness :
  (exists results,
     search lexical_down BM25 (js "cats") no_options
     = (Returned results,
        [VectorSearch.CallIsAvailable;
         VectorSearch.CallGenerateEmbedding (js "cats")])
     /\ map hash results = [js "d"; js "e"; js "c"]
     /\ forall r, In r results -> vector_only r)
  /\ (exists results,
        search vector_down Vector (js "cats") no_options
        = (Returned results,
           [VectorSearch.CallIsAvailable;
            VectorSearch.CallGetInstallInstructions])
        /\ map hash results = [js "a"; js "b"; js "c"]
        /\ map bm25Rank results = [Some 1; Some 2; Some 3]
        /\ forall r, In r results -> lexical_only r)
  /\ (exists m,
        search vector_down_strict Vector (js "cats") no_options
        = (Threw (VectorSearchError m EMBEDDER_NOT_AVAILABLE),
           [VectorSearch.CallIsAvailable;
            VectorSearch.CallGetInstallInstructions])).
Proof.
  split; [|split].
  - destruct (hybrid_search_fallback lexical_down BM25 (js "cats") no_options
                [VectorSearch.CallIsAvailable;
                 VectorSearch.CallGenerateEmbedding (js "cats")]
                eq_refl eq_refl eq_refl) as [G _].
    destruct (G eq_refl) as (G1 & _).
    edestruct G1 as (_ & _ & E & V).
    + vm_compute. reflexivity.
    + vm_compute. reflexivity.
    + eexists. split; [apply E; [reflexivity | vm_compute; discriminate]|].
      split; [vm_compute; reflexivity|].
      intros r Hr. apply V.
      rewrite filtered_and_limited_all;
        [exact Hr | reflexivity | vm_compute; discriminate].
  - destruct (hybrid_search_fallback vector_down Vector (js "cats") no_options
                [VectorSearch.CallIsAvailable;
                 VectorSearch.CallGetInstallInstructions]
                eq_refl eq_refl eq_refl) as [G _].
    destruct (G eq_refl) as (_ & G2 & _).
    edestruct G2 as (_ & _ & E & V).
    + vm_compute. reflexivity.
    + vm_compute. reflexivity.
    + eexists. split; [apply E; [reflexivity | vm_compute; discriminate]|].
      split; [vm_compute; reflexivity|].
      split; [vm_compute; reflexivity|].
      intros r Hr. apply V.
      rewrite filtered_and_limited_all;
        [exact Hr | reflexivity | vm_compute; discriminate].
  - destruct (hybrid_search_fallback vector_down_strict Vector (js "cats")
                no_options
                [VectorSearch.CallIsAvailable;
                 VectorSearch.CallGetInstallInstructions]
                eq_refl eq_refl eq_refl) as [_ G].
    destruct (G eq_refl) as (_ & G2 & _).
    eexists. eapply G2.
    + vm_compute. reflexivity.
    + vm_compute. reflexivity.
Defined.

End Fallback.

(* ================================================================== *)
(** * A document named twice by the vector list *)
(* ================================================================== *)

Section RepeatedHash.
Import JsString Exn HybridSearch Props MoreProps HybridCases.

(** C1, where the code departs from it.  The vector searcher returns a row
    per chunk, so its list names a document with two matching chunks twice.
    For such a document at ranks 1 and 2 of the vector list and in no
    lexical result, [rrfFusion] gives [1/61 + 1/62] with [k = 60], both
    contributions, and records rank 2 and the similarity of the second
    chunk: not [1 / (60 + rank)] for its rank in the one list it appears
    in.  [search] returns this result for an index in which the two
    nearest chunks belong to one document. *)
Theorem repeated_vector_hash_accumulates :
  exists r,
    rrfFusion [] two_chunks_of_a 60 = [r]
    /\ hash r = js "a"
    /\ rank_in (vector_hashes two_chunks_of_a) (hash r) = Some 1
    /\ vectorRank r = Some 2
    /\ (exists s, similarity r = Some s /\ (s == 90)%Q)
    /\ (rrfScore r == 1 / (60 + 1) + 1 / (60 + 2))%Q
    /\ ~ (rrfScore r
          == contribution 60 (rank_in [] (hash r))
             + contribution 60
                 (rank_in (vector_hashes two_chunks_of_a) (hash r)))%Q
    /\ ~ (rrfScore r == 1 / (60 + 2))%Q
    /\ search two_chunks_index BM25 (js "cats") no_options
       = (Returned [r],
          [VectorSearch.CallIsAvailable;
           VectorSearch.CallGenerateEmbedding (js "cats")]).
Proof.
  eexists. split; [vm_compute; reflexivity|].
  split; [reflexivity|]. split; [reflexivity|]. split; [reflexivity|].
  split; [eexists; split; [reflexivity | vm_compute; reflexivity]|].
  split; [vm_compute; reflexivity|].
  split; [vm_compute; discriminate|].
  split; [vm_compute; discriminate|].
  vm_compute. reflexivity.
Qed.

End RepeatedHash.

(* ================================================================== *)
(** * Statistics of what [search] returns *)
(* ================================================================== *)

Section HybridStatistics.
Import JsString Exn HybridSearch HybridStats Props MoreProps.

Lemma fused_has_rank b v k r :
  In r (rrfFusion b v k) ->
  truthy (bm25Rank r) || truthy (vectorRank r) = true.
Proof.
  intros Hr.
  destruct (rrfFusion_in _ _ _ _ Hr) as (e & He & _ & _ & -> & -> & _).
  revert e He. apply Forall_forall.
  assert (Hrank : forall i, 0 <= i -> truthy (Some (i + 1)) = true).
  { intros i Hi. simpl. apply negb_true_iff, Z.eqb_neq. lia. }
  unfold accumulate.
  apply values_foldi; [| lia |].
  - intros m x i Hi Hm. rewrite add_vector_set.
    apply values_map_set; [|exact Hm].
    destruct (map_get (VectorSearch.hash x) m); simpl e_vectorRank;
      rewrite (Hrank i Hi); apply orb_true_r.
  - apply values_foldi; [| lia | constructor].
    intros m x i Hi Hm. rewrite add_bm25_set.
    apply values_map_set; [|exact Hm].
    simpl e_bm25Rank. rewrite (Hrank i Hi). reflexivity.
Qed.

Lemma fused_score_positive b v k r :
  (0 < k)%Q -> In r (rrfFusion b v k) -> (0 < rrfScore r)%Q.
Proof.
  intros Hk Hr.
  destruct (rrfFusion_in _ _ _ _ Hr) as (e & He & _ & -> & _).
  pose proof (accumulate_positive b v k Hk) as H.
  rewrite Forall_forall in H. auto.
Qed.

Lemma count_partition {A} (p q : A -> bool) l :
  (forall x, In x l -> p x || q x = true) ->
  Z.of_nat (List.length l)
  = count (fun x => p x && q x) l
    + count (fun x => p x && negb (q x)) l
    + count (fun x => negb (p x) && q x) l.
Proof.
  unfold count. induction l as [|x l IH]; intros H; [reflexivity|].
  assert (IH' := IH (fun y Hy => H y (or_intror Hy))).
  pose proof (H x (or_introl eq_refl)) as Hx.
  cbn [filter List.length].
  destruct (p x), (q x); try discriminate;
    cbn [andb negb List.length] in *; lia.
Qed.

Lemma min_with_zero (l : list Q) :
  (forall x, In x l -> (0 <= x)%Q) -> (fold_right Qmin 0%Q l == 0)%Q.
Proof.
  induction l as [|x l IH]; intros H; simpl; [reflexivity|].
  assert (E := IH (fun y Hy => H y (or_intror Hy))).
  apply Qeq_trans with (fold_right Qmin 0%Q l); [|exact E].
  apply Q.min_r. rewrite E. apply H. left. reflexivity.
Qed.

Lemma max_with_zero_le (l : list Q) (M : Q) :
  (0 <= M)%Q -> (forall x, In x l -> (x <= M)%Q) ->
  (fold_right Qmax 0%Q l <= M)%Q.
Proof.
  intros HM. induction l as [|x l IH]; intros H; simpl; [exact HM|].
  apply Q.max_lub; [apply H; left; reflexivity|].
  apply IH. intros y Hy. apply H. right. exact Hy.
Qed.

(** X26: the statistics of what [search] returns.  Every result counts in
    exactly one of [inBothSets], [bm25Only] and [vectorOnly], so the three
    add up to [total]; [maxRRFScore] is the score of the first result (0
    for no result); and [minRRFScore] is 0, not the lowest score, zero
    being among the arguments of the minimum and every score positive. *)
Theorem search_stats (s : HybridSearcher) (first : Branch)
  (query : jsstring) (options : HybridSearchOptions)
  (rs : list HybridSearchResult) (log : list VectorSearch.EmbedderCall) :
  search s first query options = (Returned rs, log) ->
  let st := getSearchStats rs in
  total st = inBothSets st + bm25Only st + vectorOnly st
  /\ (maxRRFScore st
      == match rs with r :: _ => rrfScore r | [] => 0 end)%Q
  /\ (minRRFScore st == 0)%Q.
Proof.
  intros H st.
  assert (Hrs : (forall r, In r rs ->
                   truthy (bm25Rank r) || truthy (vectorRank r) = true
                   /\ (0 < rrfScore r)%Q)
                /\ StronglySorted by_score_desc rs).
  { destruct (search_returned _ _ _ _ _ _ H) as (Hk & [->|(b & v & ->)]).
    - split; [intros r [] | constructor].
    - split.
      + intros r Hr. apply in_filtered_and_limited in Hr. split.
        * apply (fused_has_rank _ _ _ _ Hr).
        * apply (fused_score_positive _ _ _ _ Hk Hr).
      + apply sorted_filtered_and_limited, rrfFusion_sorted. }
  destruct Hrs as [Hr Hs]. unfold st, getSearchStats. simpl.
  split; [|split].
  - apply count_partition. intros x Hx. apply Hr, Hx.
  - destruct rs as [|r rest]; simpl; [reflexivity|].
    apply Q.max_l. apply max_with_zero_le.
    + apply Qlt_le_weak, Hr. left. reflexivity.
    + intros x Hx. apply in_map_iff in Hx. destruct Hx as (y & <- & Hy).
      inversion Hs as [|? ? _ Hall]; subst.
      rewrite Forall_forall in Hall. apply Hall, Hy.
  - apply min_with_zero. intros x Hx.
    apply in_map_iff in Hx. destruct Hx as (y & <- & Hy).
    apply Qlt_le_weak, Hr, Hy.
Qed.

Lemma search_stats_witness :
  exists rs,
    search lexical_down BM25 (js "cats") no_options
    = (Returned rs,
       [VectorSearch.CallIsAvailable;
        VectorSearch.CallGenerateEmbedding (js "cats")])
    /\ vectorOnly (getSearchStats rs) = 3
    /\ (minRRFScore (getSearchStats rs) == 0)%Q.
Proof.
  edestruct (search_stats lexical_down BM25 (js "cats") no_options)
    as (_ & _ & H3).
  - vm_compute. reflexivity.
  - eexists. split; [vm_compute; reflexivity|].
    split; [reflexivity | exact H3].
Defined.

End HybridStatistics.

(* ================================================================== *)
(** * The batch processor: counters, termination, the chunk identifier *)
(* ================================================================== *)

Section BatchFacts.
Import JsString Exn Chunker ChunkerBatch BatchProcessor Props MoreProps.

(** ** One batch *)

Lemma processBatchWithRetry_length w chunks maxRetries : forall st,
  List.length (fst (processBatchWithRetry w chunks maxRetries st))
  = List.length chunks.
Proof.
  induction chunks as [|c chunks IH]; intros st; simpl; [reflexivity|].
  destruct (attempts w c (Z.to_nat (maxRetries + 1)) None st) as [item st1].
  specialize (IH st1).
  destruct (processBatchWithRetry w chunks maxRetries st1) as [items st2].
  simpl in *. congruence.
Qed.

Lemma insertEmbedding_ok w result chunk st :
  db_never_throws w -> fst (insertEmbedding w result chunk st) = Returned tt.
Proof.
  intros Hdb. unfold insertEmbedding, db_run.
  destruct (split_hashSeq (hashSeq result)) as [h sq].
  rewrite Hdb. simpl. apply Hdb.
Qed.

Lemma store_results_tally w results : forall t st,
  let '(thrown, t', st') := store_results w results t st in
  completed t + failed t <= completed t' + failed t'
  /\ (thrown = None ->
      completed t' + failed t'
      = completed t + failed t + Z.of_nat (List.length results))
  /\ (db_never_throws w -> thrown = None).
Proof.
  induction results as [|r results IH]; intros t st.
  - simpl. repeat split; lia.
  - cbn [store_results].
    assert (Hfail :
      let '(thrown, t', st') :=
        store_results w results
          (mkTally (completed t) (failed t + 1)
             match item_error r with
             | Some m => errors t ++ [m]
             | None => errors t
             end) st in
      completed t + failed t <= completed t' + failed t'
      /\ (thrown = None ->
          completed t' + failed t'
          = completed t + failed t + Z.of_nat (List.length (r :: results)))
      /\ (db_never_throws w -> thrown = None)).
    { specialize (IH (mkTally (completed t) (failed t + 1)
                        match item_error r with
                        | Some m => errors t ++ [m]
                        | None => errors t
                        end) st).
      destruct (store_results w results _ st) as [[thrown t'] st'].
      simpl in IH. rewrite length_cons, Nat2Z.inj_succ.
      destruct IH as (H1 & H2 & H3). repeat split; [lia | | exact H3].
      intros E. specialize (H2 E). lia. }
    destruct (success r); [|exact Hfail].
    destruct (item_embedding r) as [e|]; [|exact Hfail].
    pose proof (insertEmbedding_ok w e (item_chunk r) st) as Hok.
    destruct (insertEmbedding w e (item_chunk r) st) as [[u|x] st1].
    + specialize (IH (mkTally (completed t + 1) (failed t) (errors t)) st1).
      destruct (store_results w results _ st1) as [[thrown t'] st'].
      simpl in IH. rewrite length_cons, Nat2Z.inj_succ.
      destruct IH as (H1 & H2 & H3). repeat split; [lia | | exact H3].
      intros E. specialize (H2 E). lia.
    + repeat split; [lia | discriminate |].
      intros Hdb. specialize (Hok Hdb). discriminate Hok.
Qed.

Lemma process_batch_tally w batchIndex batchChunks maxRetries coe t st :
  let '(brk, t', st') :=
    process_batch w batchIndex batchChunks maxRetries coe t st in
  (coe = true ->
   brk = false
   /\ completed t + failed t + Z.of_nat (List.length batchChunks)
      <= completed t' + failed t')
  /\ (db_never_throws w ->
      brk = false
      /\ completed t' + failed t'
         = completed t + failed t + Z.of_nat (List.length batchChunks)).
Proof.
  unfold process_batch.
  pose proof (processBatchWithRetry_length w batchChunks maxRetries st) as Hl.
  destruct (processBatchWithRetry w batchChunks maxRetries st)
    as [results st1]. simpl in Hl.
  set (m := Z.of_nat (List.length batchChunks)).
  assert (Hm : Z.of_nat (List.length results) = m) by (unfold m; congruence).
  (* what the statements inside the outer [try] leave *)
  assert (H :
    let '(thrown, t2, st2) :=
      match db_run w BeginTransaction st1 with
      | (Threw x, st') => (Some x, t, st')
      | (Returned _, st') =>
          match store_results w results t st' with
          | (Some dbError, t', st'') => rollback w dbError t' st''
          | (None, t', st'') =>
              match db_run w Commit st'' with
              | (Threw dbError, st3) => rollback w dbError t' st3
              | (Returned _, st3) => (None, t', st3)
              end
          end
      end in
    completed t + failed t <= completed t2 + failed t2
    /\ (thrown = None -> completed t2 + failed t2 = completed t + failed t + m)
    /\ (db_never_throws w -> thrown = None)).
  { unfold db_run at 1.
    destruct (run w (List.length (db_calls st1)) BeginTransaction) as [u|x]
      eqn:Eb.
    - set (st' := mkCalls _ _).
      pose proof (store_results_tally w results t st') as Hs.
      destruct (store_results w results t st') as [[thrown t'] st''].
      destruct Hs as (H1 & H2 & H3). rewrite Hm in H2.
      destruct thrown as [dbError|].
      + unfold rollback, db_run.
        destruct (run w _ Rollback); (split; [exact H1|]);
          (split; [discriminate|]); intros Hdb; specialize (H3 Hdb);
          discriminate H3.
      + unfold db_run at 1.
        destruct (run w (List.length (db_calls st'')) Commit) as [u'|y] eqn:Ec.
        * split; [exact H1|]. split; [intros _; apply H2; reflexivity|].
          reflexivity.
        * unfold rollback, db_run.
          destruct (run w _ Rollback); (split; [exact H1|]);
            (split; [discriminate|]); intros Hdb; rewrite Hdb in Ec;
            discriminate Ec.
    - split; [lia|]. split; [discriminate|].
      intros Hdb. rewrite Hdb in Eb. discriminate Eb. }
  destruct (match db_run w BeginTransaction st1 with
            | (Threw x, st') => (Some x, t, st')
            | (Returned _, st') => _
            end) as [[thrown t2] st2].
  destruct H as (H1 & H2 & H3).
  destruct thrown as [error|].
  - destruct coe; simpl.
    + split; [intros _; split; [reflexivity | lia]|].
      intros Hdb. specialize (H3 Hdb). discriminate H3.
    + split; [discriminate|].
      intros Hdb. specialize (H3 Hdb). discriminate H3.
  - specialize (H2 eq_refl). split; intros _; (split; [reflexivity | lia]).
Qed.

(** ** The loop over the batches *)

Lemma slice_length {A} (l : list A) (s e : Z) :
  0 <= s <= e -> e <= Z.of_nat (List.length l) ->
  Z.of_nat (List.length (slice l s e)) = e - s.
Proof.
  intros Hs He. unfold slice.
  destruct (s <? 0) eqn:E1; [apply Z.ltb_lt in E1; lia|].
  destruct (e <? 0) eqn:E2; [apply Z.ltb_lt in E2; lia|].
  rewrite length_firstn, length_skipn. lia.
Qed.

Lemma below_ceiling (len bs i : Z) :
  1 <= bs ->
  (i <? Qceiling (inject_Z len / inject_Z bs)%Q) = (i * bs <? len).
Proof.
  intros Hbs.
  assert (Hq : (0 < inject_Z bs)%Q).
  { change 0%Q with (inject_Z 0). rewrite <- Zlt_Qlt. lia. }
  set (x := (inject_Z len / inject_Z bs)%Q).
  pose proof (Qle_ceiling x) as H1.
  pose proof (Qceiling_lt x) as H2.
  assert (Hx : (inject_Z i < x)%Q <-> i * bs < len).
  { unfold x. split.
    - intros H. destruct (Z_lt_le_dec (i * bs) len) as [G|G]; [exact G|].
      exfalso.
      assert (H' : (inject_Z len / inject_Z bs <= inject_Z i)%Q).
      { apply Qle_shift_div_r; [exact Hq|].
        rewrite <- inject_Z_mult, <- Zle_Qle. exact G. }
      lra.
    - intros H. apply Qlt_shift_div_l; [exact Hq|].
      rewrite <- inject_Z_mult, <- Zlt_Qlt. exact H. }
  destruct (i * bs <? len) eqn:E.
  - apply Z.ltb_lt in E. apply Z.ltb_lt. apply Hx in E.
    assert (H : (inject_Z i < inject_Z (Qceiling x))%Q) by lra.
    rewrite <- Zlt_Qlt in H. exact H.
  - apply Z.ltb_ge in E. apply Z.ltb_ge.
    destruct (Z_lt_le_dec i (Qceiling x)) as [H|H]; [|exact H].
    exfalso.
    assert (H' : (inject_Z i <= inject_Z (Qceiling x - 1))%Q).
    { rewrite <- Zle_Qle. lia. }
    assert (H3 : (inject_Z i < x)%Q).
    { apply Qle_lt_trans with (inject_Z (Qceiling x - 1)); assumption. }
    apply Hx in H3. lia.
Qed.

Lemma batches_tally w chunks bs maxRetries coe :
  1 <= bs ->
  let len := Z.of_nat (List.length chunks) in
  forall n i t st,
    0 <= i -> len - i * bs <= Z.of_nat n ->
    exists t' st',
      (forall fuel, (n < fuel)%nat ->
         batches fuel w chunks bs maxRetries coe
           (Finite (Qceiling (inject_Z len / inject_Z bs)%Q)) i t st
         = Some (t', st'))
      /\ (coe = true ->
          completed t + failed t + Z.max 0 (len - i * bs)
          <= completed t' + failed t')
      /\ (db_never_throws w ->
          completed t' + failed t'
          = completed t + failed t + Z.max 0 (len - i * bs)).
Proof.
  intros Hbs len. induction n as [|n IH]; intros i t st Hi Hn.
  - exists t, st. split; [|split; intros _; lia].
    intros [|fuel] Hf; [lia|]. cbn [batches below].
    rewrite below_ceiling by exact Hbs.
    assert (E : (i * bs <? len) = false) by (apply Z.ltb_ge; lia).
    rewrite E. reflexivity.
  - destruct (i * bs <? len) eqn:E.
    + apply Z.ltb_lt in E.
      set (batchEnd := Z.min (i * bs + bs) len).
      set (batchChunks := slice chunks (i * bs) batchEnd).
      assert (Hm : Z.of_nat (List.length batchChunks) = batchEnd - i * bs).
      { apply slice_length; unfold batchEnd; fold len; nia. }
      pose proof (process_batch_tally w i batchChunks maxRetries coe t st)
        as Hp.
      destruct (process_batch w i batchChunks maxRetries coe t st)
        as [[brk t1] st1] eqn:Ep.
      destruct Hp as [Hc Hd]. rewrite Hm in Hc, Hd.
      assert (Hrem : Z.max 0 (len - i * bs)
                     = (batchEnd - i * bs) + Z.max 0 (len - (i + 1) * bs)).
      { unfold batchEnd. nia. }
      destruct brk.
      * exists t1, st1. split; [|split].
        -- intros [|fuel] Hf; [lia|]. cbn [batches below].
           rewrite below_ceiling by exact Hbs.
           assert (E' : (i * bs <? len) = true) by (apply Z.ltb_lt; exact E).
           rewrite E'. fold len. fold batchEnd. fold batchChunks.
           rewrite Ep. reflexivity.
        -- intros Hcoe. destruct (Hc Hcoe) as [Hb _]. discriminate Hb.
        -- intros Hdb. destruct (Hd Hdb) as [Hb _]. discriminate Hb.
      * destruct (IH (i + 1) t1 st1 ltac:(lia) ltac:(nia))
          as (t' & st' & Hrun & Hc' & Hd').
        exists t', st'. split; [|split].
        -- intros [|fuel] Hf; [lia|]. cbn [batches below].
           rewrite below_ceiling by exact Hbs.
           assert (E' : (i * bs <? len) = true) by (apply Z.ltb_lt; exact E).
           rewrite E'. fold len. fold batchEnd. fold batchChunks.
           rewrite Ep. apply Hrun. lia.
        -- intros Hcoe. destruct (Hc Hcoe) as [_ Hc1].
           specialize (Hc' Hcoe). lia.
        -- intros Hdb. destruct (Hd Hdb) as [_ Hd1].
           specialize (Hd' Hdb). lia.
    + exists t, st. apply Z.ltb_ge in E. split; [|split; intros _; lia].
      intros [|fuel] Hf; [lia|]. cbn [batches below].
      rewrite below_ceiling by exact Hbs.
      assert (E' : (i * bs <? len) = false) by (apply Z.ltb_ge; exact E).
      rewrite E'. reflexivity.
Qed.

(** X27: with a batch size of at least 1, [processChunks] ends after at
    most one turn per chunk and reports every chunk in [totalChunks]; when
    no statement of the database throws, each chunk is counted once, as a
    successful or as a failed embedding; with [continueOnError] (the
    default) the two counters add up to at least [totalChunks], a batch
    whose transaction fails being counted as failed as a whole on top of
    what was counted before the failure. *)
Theorem processChunks_counts (w : Services) (chunks : list DocumentChunk)
  (options : option BatchProcessingOptions) (st : Calls) :
  1 <= batchSize_of options ->
  exists r st',
    (forall fuel, (List.length chunks < fuel)%nat ->
       processChunks fuel w chunks options st = Some (r, st'))
    /\ totalChunks r = Z.of_nat (List.length chunks)
    /\ (continueOnError_of options = true ->
        totalChunks r <= successfulEmbeddings r + failedEmbeddings r)
    /\ (db_never_throws w ->
        successfulEmbeddings r + failedEmbeddings r = totalChunks r).
Proof.
  intros Hbs.
  destruct (batches_tally w chunks (batchSize_of options)
              (maxRetries_of options) (continueOnError_of options) Hbs
              (List.length chunks) 0 (mkTally 0 0 []) st
              ltac:(lia) ltac:(lia))
    as (t' & st' & Hrun & Hc & Hd).
  exists (mkBatchResult (Z.of_nat (List.length chunks)) (completed t')
            (failed t') (errors t')), st'.
  cbn [totalChunks successfulEmbeddings failedEmbeddings].
  simpl completed in *. simpl failed in *.
  split; [|split; [reflexivity|split]].
  - intros fuel Hf. unfold processChunks, totalBatches_of.
    assert (E : (batchSize_of options =? 0) = false)
      by (apply Z.eqb_neq; lia).
    rewrite E, (Hrun fuel Hf). reflexivity.
  - intros Hcoe. specialize (Hc Hcoe). lia.
  - intros Hdb. specialize (Hd Hdb). lia.
Qed.

Lemma processChunks_counts_witness :
  exists r st',
    (forall fuel, (1 < fuel)%nat ->
       processChunks fuel
         (mkServices (fun _ _ => Threw NonError) (fun _ _ => Returned tt))
         [mkChunk (js "h") 0 0 (js "text") 2] None (mkCalls 0 [])
       = Some (r, st'))
    /\ totalChunks r = 1
    /\ successfulEmbeddings r + failedEmbeddings r = 1.
Proof.
  destruct (processChunks_counts
              (mkServices (fun _ _ => Threw NonError) (fun _ _ => Returned tt))
              [mkChunk (js "h") 0 0 (js "text") 2] None (mkCalls 0 []))
    as (r & st' & H1 & H2 & _ & H4).
  - vm_compute. discriminate.
  - exists r, st'. split; [exact H1|]. split; [exact H2|].
    rewrite H4; [exact H2 | intros n c; reflexivity].
Defined.

Lemma batches_unending w chunks maxRetries : forall fuel i t st,
  batches fuel w chunks 0 maxRetries true PlusInfinity i t st = None.
Proof.
  induction fuel as [|fuel IH]; intros i t st; [reflexivity|].
  cbn [batches below].
  pose proof (process_batch_tally w i
                (slice chunks (i * 0)
                   (Z.min (i * 0 + 0) (Z.of_nat (List.length chunks))))
                maxRetries true t st) as Hp.
  destruct (process_batch w i _ maxRetries true t st) as [[brk t1] st1].
  destruct Hp as [Hc _]. destruct (Hc eq_refl) as [-> _]. apply IH.
Qed.

(** X28: with a batch size of 0, chunks to process and [continueOnError]
    (the default), the loop of [processChunks] never ends: the number of
    batches is infinite, every batch is empty, and no failure leaves the
    loop. *)
Theorem processChunks_zero_batch_size (w : Services)
  (chunks : list DocumentChunk) (options : option BatchProcessingOptions)
  (st : Calls) :
  batchSize_of options = 0 -> chunks <> [] ->
  continueOnError_of options = true ->
  forall fuel, processChunks fuel w chunks options st = None.
Proof.
  intros Hbs Hne Hcoe fuel. unfold processChunks, totalBatches_of.
  rewrite Hbs, Hcoe. cbn [Z.eqb].
  assert (E : (Z.of_nat (List.length chunks) =? 0) = false).
  { apply Z.eqb_neq. destruct chunks; [congruence | simpl; lia]. }
  rewrite E, batches_unending. reflexivity.
Qed.

Lemma processChunks_zero_batch_size_witness :
  processChunks 1000
    (mkServices (fun _ _ => Threw NonError) (fun _ _ => Returned tt))
    [mkChunk [] 0 0 (js "text") 2]
    (Some (mkBatchOptions (Some 0) None None)) (mkCalls 0 [])
  = None.
Proof.
  apply processChunks_zero_batch_size; [reflexivity | discriminate | reflexivity].
Defined.

(** ** Documents *)

Lemma chunkDocument_blank (c : DocumentChunker) (h content : jsstring) :
  trim content = [] -> chunkDocument c h content = [].
Proof.
  intros E. unfold chunkDocument. rewrite E. simpl. rewrite orb_true_r.
  reflexivity.
Qed.

Lemma all_chunks_nil_iff (chunker : DocumentChunker) (documents : list Doc) :
  all_chunks chunker documents = []
  <-> forall d, In d documents -> trim (doc_content d) = [].
Proof.
  unfold all_chunks. induction documents as [|d l IH]; simpl.
  - split; [intros _ d [] | reflexivity].
  - split.
    + intros H. apply app_eq_nil in H. destruct H as [H1 H2].
      intros x [<-|Hx]; [|apply (proj1 IH H2 x Hx)].
      apply (proj1 (chunkDocument_nil_blank chunker (doc_hash d) _) H1).
    + intros H. rewrite (proj2 IH) by auto.
      rewrite chunkDocument_blank by auto. reflexivity.
Qed.

(** X29: [processDocuments] hands every chunk of every document to
    [processChunks]: [totalChunks] is the number of chunks the chunker makes
    of the documents; it is 0 exactly when every document is blank, and then
    neither the embedder nor the database is called. *)
Theorem processDocuments_total (fuel : nat) (w : Services)
  (chunker : DocumentChunker) (documents : list Doc)
  (options : option BatchProcessingOptions) (st : Calls)
  (r : BatchProcessingResult) (st' : Calls) :
  processDocuments fuel w chunker documents options st = Some (r, st') ->
  totalChunks r = Z.of_nat (List.length (all_chunks chunker documents))
  /\ (totalChunks r = 0
      <-> forall d, In d documents -> trim (doc_content d) = [])
  /\ (totalChunks r = 0 ->
      st' = st /\ successfulEmbeddings r = 0 /\ failedEmbeddings r = 0).
Proof.
  unfold processDocuments. fold (all_chunks chunker documents).
  rewrite <- (all_chunks_nil_iff chunker documents).
  destruct (all_chunks chunker documents) as [|ch l] eqn:E.
  - intros H. injection H as <- <-. simpl. repeat split; auto.
  - unfold processChunks.
    destruct (batches fuel w (ch :: l) _ _ _ _ 0 _ st) as [[t st1]|];
      [|discriminate].
    intros H. injection H as <- <-. cbn [totalChunks].
    assert (Hpos : Z.of_nat (List.length (ch :: l)) <> 0)
      by (rewrite length_cons; lia).
    split; [reflexivity|]. split.
    + split; [intros H; congruence | discriminate].
    + intros H. congruence.
Qed.

Lemma processDocuments_total_witness :
  totalChunks (mkBatchResult 0 0 0 []) = 0
  <-> forall d, In d [mkDoc (js "h") (js "  ")] ->
                trim (doc_content d) = [].
Proof.
  exact (proj1 (proj2
           (processDocuments_total 0
              (mkServices (fun _ _ => Threw NonError)
                 (fun _ _ => Returned tt))
              (new_DocumentChunker None) [mkDoc (js "h") (js "  ")] None
              (mkCalls 0 []) (mkBatchResult 0 0 0 []) (mkCalls 0 [])
              eq_refl))).
Defined.

End BatchFacts.

(* ================================================================== *)
(** * The chunk identifier [hash_seq] *)
(* ================================================================== *)

Section HashSeq.
Import JsString Exn Chunker BatchProcessor Props MoreProps.

Lemma parse_digits_app (ds rest : jsstring) : forall a,
  Forall (fun c => is_digit c = true) ds ->
  parse_digits a (ds ++ rest)
  = parse_digits (fold_left (fun a c => (a * 10 + (c - 48))%N) ds a) rest.
Proof.
  induction ds as [|c ds IH]; intros a H; simpl; [reflexivity|].
  inversion H as [|? ? Hc Hds]; subst. rewrite Hc. apply IH, Hds.
Qed.

Lemma digit_char (m : N) : (m < 10)%N -> is_digit (48 + m) = true.
Proof.
  intros H. unfold is_digit, in_range.
  apply andb_true_iff. split; apply N.leb_le; lia.
Qed.

Lemma digits_spec (f : nat) : forall n acc,
  (n < 2 ^ N.of_nat (S f))%N ->
  exists ds,
    digits (S f) n acc = ds ++ acc
    /\ ds <> []
    /\ Forall (fun c => is_digit c = true) ds
    /\ forall a,
         fold_left (fun a c => (a * 10 + (c - 48))%N) ds a
         = (a * 10 ^ N.of_nat (List.length ds) + n)%N.
Proof.
  assert (Hone : forall n acc,
            (n / 10 = 0)%N ->
            exists ds,
              (48 + n mod 10)%N :: acc = ds ++ acc
              /\ ds <> []
              /\ Forall (fun c => is_digit c = true) ds
              /\ forall a,
                   fold_left (fun a c => (a * 10 + (c - 48))%N) ds a
                   = (a * 10 ^ N.of_nat (List.length ds) + n)%N).
  { intros n acc H0.
    pose proof (N.div_mod n 10 ltac:(discriminate)) as Hdm.
    pose proof (N.mod_lt n 10 ltac:(discriminate)) as Hlt.
    exists [(48 + n mod 10)%N]. split; [reflexivity|].
    split; [discriminate|]. split.
    - constructor; [apply digit_char, Hlt | constructor].
    - intros a. cbn [fold_left List.length].
      change (N.of_nat 1) with 1%N. rewrite N.pow_1_r.
      rewrite H0 in Hdm. set (m := (n mod 10)%N) in *. lia. }
  induction f as [|f IH]; intros n acc Hn.
  - cbn [digits].
    destruct (n / 10 =? 0)%N eqn:E.
    + apply N.eqb_eq in E. apply Hone, E.
    + apply N.eqb_neq in E. exfalso. apply E.
      apply N.div_small. simpl in Hn. lia.
  - change (digits (S (S f)) n acc)
      with (if (n / 10 =? 0)%N then (48 + n mod 10)%N :: acc
            else digits (S f) (n / 10)%N ((48 + n mod 10)%N :: acc)).
    destruct (n / 10 =? 0)%N eqn:E.
    + apply N.eqb_eq in E. apply Hone, E.
    + assert (Hd : (n / 10 < 2 ^ N.of_nat (S f))%N).
      { apply N.Div0.div_lt_upper_bound.
        replace (N.of_nat (S (S f))) with (N.succ (N.of_nat (S f))) in Hn
          by lia.
        rewrite N.pow_succ_r' in Hn. lia. }
      destruct (IH (n / 10)%N ((48 + n mod 10)%N :: acc) Hd)
        as (ds & E1 & E2 & E3 & E4).
      pose proof (N.div_mod n 10 ltac:(discriminate)) as Hdm.
      pose proof (N.mod_lt n 10 ltac:(discriminate)) as Hlt.
      exists (ds ++ [(48 + n mod 10)%N]).
      split; [rewrite E1, <- app_assoc; reflexivity|].
      split; [destruct ds; discriminate|].
      split.
      * apply Forall_app. split; [exact E3|].
        constructor; [apply digit_char, Hlt | constructor].
      * intros a. rewrite fold_left_app, E4. cbn [fold_left].
        rewrite length_app. cbn [List.length].
        replace (N.of_nat (List.length ds + 1))
          with (N.succ (N.of_nat (List.length ds))) by lia.
        rewrite N.pow_succ_r'.
        set (p := (10 ^ N.of_nat (List.length ds))%N).
        set (m := (n mod 10)%N) in *. set (q := (n / 10)%N) in *. nia.
Qed.

Lemma String_of_int_digits (z : Z) :
  exists ds,
    String_of_int z = (if z <? 0 then [45%N] else []) ++ ds
    /\ ds <> []
    /\ Forall (fun c => is_digit c = true) ds
    /\ parse_digits 0 ds = Z.abs_N z.
Proof.
  unfold String_of_int.
  destruct (digits_spec (N.to_nat (N.size (Z.abs_N z))) (Z.abs_N z) [])
    as (ds & E1 & E2 & E3 & E4).
  { pose proof (N.size_gt (Z.abs_N z)) as H.
    apply N.lt_le_trans with (2 ^ N.size (Z.abs_N z))%N; [exact H|].
    apply N.pow_le_mono_r; [discriminate | lia]. }
  exists ds. rewrite E1, app_nil_r. split; [reflexivity|].
  split; [exact E2|]. split; [exact E3|].
  rewrite <- (app_nil_r ds) at 1. rewrite parse_digits_app by exact E3.
  simpl. rewrite E4. lia.
Qed.

Lemma digit_cases (c : N) :
  is_digit c = true ->
  In c [48; 49; 50; 51; 52; 53; 54; 55; 56; 57]%N.
Proof.
  unfold is_digit, in_range. intros H. apply andb_true_iff in H.
  destruct H as [H1 H2]. apply N.leb_le in H1. apply N.leb_le in H2.
  simpl. lia.
Qed.

Lemma parseInt10_digits (c : N) (r : jsstring) :
  is_digit c = true ->
  parseInt10 (Some (c :: r)) = Some (Z.of_N (parse_digits 0 (c :: r)))
  /\ parseInt10 (Some (45%N :: c :: r))
     = Some (- Z.of_N (parse_digits 0 (c :: r))).
Proof.
  intros H. pose proof (digit_cases c H) as Hc. simpl in Hc.
  repeat (destruct Hc as [<-|Hc];
          [match goal with
           | |- parseInt10 (Some (?d :: r)) = _ /\ _ =>
               split;
               [change (parseInt10 (Some (d :: r)))
                  with (Some (1 * Z.of_N (parse_digits 0 (d :: r))));
                rewrite Z.mul_1_l; reflexivity
               |change (parseInt10 (Some (45%N :: d :: r)))
                  with (Some (-1 * Z.of_N (parse_digits 0 (d :: r))));
                f_equal; lia]
           end|]).
  destruct Hc.
Qed.

Lemma digits_no_underscore (ds : jsstring) :
  Forall (fun c => is_digit c = true) ds -> ~ In 95%N ds.
Proof.
  intros H Hin. rewrite Forall_forall in H. specialize (H _ Hin).
  discriminate H.
Qed.

Lemma split_underscore_none (s : jsstring) : forall prev cur,
  ~ In 95%N s ->
  split_from re_underscore false prev cur 0 s = [rev cur ++ s].
Proof.
  induction s as [|c s IH]; intros prev cur Hn; cbn [split_from].
  - rewrite app_nil_r. reflexivity.
  - assert (Hc : c <> 95%N) by (intros ->; apply Hn; left; reflexivity).
    assert (E : re_underscore prev (c :: s) = None).
    { unfold re_underscore.
      destruct c as [|p]; [reflexivity|].
      do 7 (destruct p as [p|p|]; try reflexivity). congruence. }
    rewrite E, IH by (intros H; apply Hn; right; exact H).
    simpl. rewrite <- app_assoc. reflexivity.
Qed.

Lemma split_underscore_first (h rest : jsstring) : forall prev cur,
  ~ In 95%N h ->
  split_from re_underscore false prev cur 0 (h ++ 95%N :: rest)
  = (rev cur ++ h)
    :: split_from re_underscore false (Some 95%N) [] 0 rest.
Proof.
  induction h as [|c h IH]; intros prev cur Hn.
  - simpl. rewrite app_nil_r. reflexivity.
  - assert (Hc : c <> 95%N) by (intros ->; apply Hn; left; reflexivity).
    assert (E : re_underscore prev (c :: h ++ 95%N :: rest) = None).
    { unfold re_underscore.
      destruct c as [|p]; [reflexivity|].
      do 7 (destruct p as [p|p|]; try reflexivity). congruence. }
    simpl app. cbn [split_from]. rewrite E.
    rewrite IH by (intros H; apply Hn; right; exact H).
    simpl. rewrite <- app_assoc. reflexivity.
Qed.

Lemma split_underscore_pieces (s : jsstring) : forall prev cur skip,
  ~ In 95%N cur ->
  Forall (fun p => ~ In 95%N p)
    (split_from re_underscore false prev cur skip s).
Proof.
  induction s as [|c s IH]; intros prev cur skip Hcur; cbn [split_from].
  - constructor; [|constructor]. rewrite <- in_rev. exact Hcur.
  - destruct skip as [|k]; [|apply IH, Hcur].
    destruct (re_underscore prev (c :: s)) as [[|k]|] eqn:E.
    + unfold re_underscore in E. destruct c as [|p]; [discriminate|].
      do 7 (destruct p as [p|p|]; try discriminate).
    + constructor; [rewrite <- in_rev; exact Hcur|].
      apply IH. intros [].
    + apply IH. intros [Hc|H]; [|exact (Hcur H)].
      subst c. discriminate E.
Qed.

(** X30: the identifier [embedChunk] gives a chunk, [`${hash}_${seq}`], is
    taken apart again by [insertEmbedding] into the hash and the sequence
    number of the chunk exactly when the hash contains no underscore; with an
    underscore in the hash, the hash it stores is cut short. *)
Theorem hashSeq_round_trip
  (generateEmbedding : jsstring -> completion (list Q))
  (actualModel : jsstring) (chunk : DocumentChunk) (e : list Q) :
  generateEmbedding (text chunk) = Returned e ->
  exists r,
    embedChunk generateEmbedding actualModel chunk = Returned r
    /\ (~ In 95%N (hash chunk) ->
        split_hashSeq (hashSeq r) = (hash chunk, Some (seq chunk)))
    /\ (In 95%N (hash chunk) ->
        fst (split_hashSeq (hashSeq r)) <> hash chunk).
Proof.
  intros He. unfold embedChunk. rewrite He.
  eexists. split; [reflexivity|]. cbn [hashSeq]. split.
  - intros Hn. unfold split_hashSeq, split.
    rewrite split_underscore_first by exact Hn.
    destruct (String_of_int_digits (seq chunk)) as (ds & E1 & E2 & E3 & E4).
    assert (Hs : ~ In 95%N (String_of_int (seq chunk))).
    { rewrite E1. intros H. apply in_app_or in H. destruct H as [H|H].
      - destruct (seq chunk <? 0); [destruct H as [H|[]]; discriminate H
                                   | destruct H].
      - apply (digits_no_underscore ds E3 H). }
    rewrite split_underscore_none by exact Hs.
    cbn [rev app nth nth_error]. f_equal.
    rewrite E1. destruct ds as [|c r]; [congruence|].
    inversion E3 as [|? ? Hc _]; subst.
    destruct (parseInt10_digits c r Hc) as [P1 P2].
    destruct (seq chunk <? 0) eqn:Ez.
    + apply Z.ltb_lt in Ez. cbn [app]. refine (eq_trans P2 _).
      rewrite E4. f_equal. lia.
    + apply Z.ltb_ge in Ez. cbn [app]. refine (eq_trans P1 _).
      rewrite E4. f_equal. lia.
  - intros Hin Heq. unfold split_hashSeq in Heq. cbn [fst] in Heq.
    pose proof (split_underscore_pieces
                  (hash chunk ++ 95%N :: String_of_int (seq chunk))
                  None [] 0 (fun H => H)) as Hp.
    fold (split re_underscore false
            (hash chunk ++ 95%N :: String_of_int (seq chunk))) in Hp.
    destruct (split re_underscore false _) as [|p ps].
    + simpl in Heq. rewrite <- Heq in Hin. destruct Hin.
    + simpl in Heq. inversion Hp as [|? ? Hp1 _]; subst.
      apply Hp1, Hin.
Qed.

Lemma hashSeq_round_trip_witness :
  split_hashSeq (js "abc123" ++ 95%N :: String_of_int 12)
  = (js "abc123", Some 12).
Proof.
  destruct (hashSeq_round_trip (fun _ => Returned []) (js "m")
              (mkChunk (js "abc123") 12 0 (js "text") 2) [] eq_refl)
    as (r & Hr & H1 & _).
  injection Hr as <-. apply H1.
  vm_compute. intuition discriminate.
Defined.

End HashSeq.
